(** * atlab/mouse_pipeline: the polling worker and the pipeline stages

    A shallow embedding of
    - [python/scripts/worker-populate.py] (the command-line worker),
    - [python/pipeline/reso.py] (stages for resonant-scanner recordings),
    - [python/pipeline/aodtrk.py] (eye tracking for AOD recordings),
    and of the reservation and cascade protocols that the design document
    places under them.

    Python code that raises, prints, sleeps or writes to the database is
    written in a state-and-exception monad.  What the code calls and the
    repository does not contain (the module system, the database framework,
    the random generator, the numeric and video libraries) is a field of an
    interface class, so every statement holds for all implementations.

    Part I holds the definitions, Part II the statements and proofs. *)

From Stdlib Require Import ZArith QArith Lia Ascii String.
From stdpp Require Import base decidable option list strings gmap fin_maps.

Open Scope Z_scope.

(** * Part I: definitions *)

(** A decidable statement about concrete data, settled by evaluating its
    decision procedure. *)
Ltac by_evaluation := apply (bool_decide_unpack _); vm_compute; exact I.

(** ** Python outcomes: a value or a raised exception *)

Module Py.

(** The exception classes that occur in the embedded code. *)
Inductive exn : Type :=
| ImportError
| ModuleNotFoundError
| AttributeError
| ValueError
| TypeError
| IndexError
| KeyError
| AssertionError
| NotImplementedError (msg : string)
| UnboundLocalError (name : string)
| DataJointError
| PipelineException (msg : string)
| OtherError (cls : string).

#[global] Instance exn_eq_dec : EqDecision exn.
Proof. solve_decision. Defined.

(** [except ImportError] also catches its subclass ModuleNotFoundError. *)
Definition isinstance_ImportError (e : exn) : bool :=
  match e with
  | ImportError | ModuleNotFoundError => true
  | _ => false
  end.

Definition isinstance_AttributeError (e : exn) : bool :=
  match e with
  | AttributeError => true
  | _ => false
  end.

Inductive outcome (A : Type) : Type :=
| Ok (a : A)
| Raise (e : exn).
Arguments Ok {A} a.
Arguments Raise {A} e.

#[global] Instance outcome_eq_dec `{EqDecision A} : EqDecision (outcome A).
Proof. solve_decision. Defined.

Definition raised {A} (o : outcome A) : Prop :=
  match o with Ok _ => False | Raise _ => True end.

(** Effectful code over a state [S]: the state reached is returned also
    when the code raises, as the effects performed before a [raise] stay. *)
Definition M (S A : Type) : Type := S → outcome A * S.

Definition ret {S A} (a : A) : M S A := λ s, (Ok a, s).

Definition bind {S A B} (c : M S A) (k : A → M S B) : M S B :=
  λ s, match c s with
       | (Ok a, s') => k a s'
       | (Raise e, s') => (Raise e, s')
       end.

Definition raise {S A} (e : exn) : M S A := λ s, (Raise e, s).

(** [try: c except <class>: h] for the exceptions selected by [catches]. *)
Definition try_except {S A} (c : M S A) (catches : exn → bool) (h : M S A)
  : M S A :=
  λ s, match c s with
       | (Ok a, s') => (Ok a, s')
       | (Raise e, s') => if catches e then h s' else (Raise e, s')
       end.

Definition lift {S A} (o : outcome A) : M S A := λ s, (o, s).

Definition modify {S} (f : S → S) : M S unit := λ s, (Ok tt, f s).

(** A local variable slot of a function frame: [None] until the first
    assignment.  Reading an unassigned local raises UnboundLocalError. *)
Definition load_local {S A} (name : string) (slot : option A) : M S A :=
  match slot with
  | Some v => ret v
  | None => raise (UnboundLocalError name)
  end.

(** [for x in xs: body x] *)
Fixpoint for_each {S A} (xs : list A) (body : A → M S unit) : M S unit :=
  match xs with
  | [] => ret tt
  | x :: xs' => bind (body x) (λ _, for_each xs' body)
  end.

Module Notations.
Notation "'do' x <- c ; k" := (bind c (λ x, k))
  (at level 10, x pattern, c at level 100, k at level 200, only parsing).
Notation "'run' c ; k" := (bind c (λ _, k))
  (at level 10, c at level 100, k at level 200, only parsing).
End Notations.

End Py.

Import Py.Notations.

(** ** The string methods used by the worker *)

Module Str.

Definition of_list : list ascii → string := String.string_of_list_ascii.
Definition to_list : string → list ascii := String.list_ascii_of_string.

(** [s.split(sep)] for a one-character separator: every occurrence cuts,
    so the result always has one more element than there are separators. *)
Fixpoint split (sep : ascii) (s : string) : list string :=
  match s with
  | EmptyString => [EmptyString]
  | String c s' =>
      if Ascii.eqb c sep then EmptyString :: split sep s'
      else match split sep s' with
           | [] => [String c EmptyString]
           | w :: ws => String c w :: ws
           end
  end.

(** [str.isspace] on the ASCII range: TAB..CR, FS..US and the space. *)
Definition isspace (c : ascii) : bool :=
  let n := nat_of_ascii c in
  ((9 <=? n) && (n <=? 13) || (28 <=? n) && (n <=? 32))%nat.

Fixpoint lstrip_list (cs : list ascii) : list ascii :=
  match cs with
  | c :: cs' => if isspace c then lstrip_list cs' else cs
  | [] => []
  end.

(** [s.strip()] *)
Definition strip (s : string) : string :=
  of_list (rev (lstrip_list (rev (lstrip_list (to_list s))))).

(** Cut at the last occurrence of [sep], if there is one. *)
Fixpoint rbreak (sep : ascii) (cs : list ascii)
  : option (list ascii * list ascii) :=
  match cs with
  | [] => None
  | c :: cs' =>
      match rbreak sep cs' with
      | Some (a, b) => Some (c :: a, b)
      | None => if Ascii.eqb c sep then Some ([], cs') else None
      end
  end.

(** [s.rsplit(sep, 1)] *)
Definition rsplit1 (sep : ascii) (s : string) : list string :=
  match rbreak sep (to_list s) with
  | Some (a, b) => [of_list a; of_list b]
  | None => [s]
  end.

(** ["...{}...".format(x)] with a single placeholder. *)
Definition format1 (before after x : string) : string :=
  before +:+ x +:+ after.

End Str.

(** Code that may raise and touches no state: [x ← c; k] goes on with the
    value of [c], or ends with the exception [c] raised. *)
#[global] Instance outcome_bind : MBind Py.outcome :=
  λ A B k o, match o with Py.Ok a => k a | Py.Raise e => Py.Raise e end.


(** ** python/scripts/worker-populate.py *)

Module Worker.
Import Py.

(** The namespace returned by [parser.parse_args]. *)
Record Args : Type := {
  relations : string;
  daemon : bool;
  t_min : Z;
  t_max : Z
}.

(** Defaults of [--t_min] and [--t_max]. *)
Definition default_t_min : Z := 5 * 60.
Definition default_t_max : Z := 15 * 60.

(** What the worker does to the outside, in the order it does it. *)
Inductive event : Type :=
| EvPrint (words : list string)
| EvProgress (name : string)
| EvPopulate (name : string)
| EvSleep (secs : Z).

#[global] Instance event_eq_dec : EqDecision event.
Proof. solve_decision. Defined.

Definition is_sleep (e : event) : bool :=
  match e with EvSleep _ => true | _ => false end.

Definition is_stage_call (e : event) : bool :=
  match e with EvProgress _ | EvPopulate _ => true | _ => false end.

(** [p, m = xs]: unpacking needs exactly two values. *)
Definition unpack2 (xs : list string) : outcome (string * string) :=
  match xs with
  | [p; m] => Ok (p, m)
  | _ => Raise ValueError
  end.

(** [d[k] = v] on a dict, which keeps insertion order: an existing key
    keeps its place, a new one goes last. *)
Fixpoint dict_set {V} (k : string) (v : V) (d : list (string * V))
  : list (string * V) :=
  match d with
  | [] => [(k, v)]
  | (k', v') :: d' =>
      if String.eqb k' k then (k', v) :: d' else (k', v') :: dict_set k v d'
  end.

(** The process environment: modules and their attributes, the database
    behind the framework methods, and numpy's global generator.
    [progress rel] stands for [rel().progress()] and [populate rel] for
    [rel().populate(reserve_jobs=True)]; both may raise and both may change
    the world. *)
Class Runtime : Type := {
  Mod : Type;
  Rel : Type;
  World : Type;
  import_module : string → outcome Mod;
  getattr : Mod → string → outcome Rel;
  progress : Rel → World → outcome (Z * Z) * World;
  populate : Rel → World → outcome unit * World;
  (** one raw draw from the generator *)
  entropy : World → Z * World;
  (** the longest duration [time.sleep] accepts on the platform *)
  sleep_limit : Z
}.

Section Main.
Context `{RT : Runtime}.

Record state : Type := { world : World; log : list event }.

Definition emit (e : event) : M state unit :=
  modify (λ s, {| world := world s; log := log s ++ [e] |}).

Definition call {A} (f : World → outcome A * World) : M state A :=
  λ s, let '(o, w) := f (world s) in (o, {| world := w; log := log s |}).

Definition print (words : list string) : M state unit :=
  emit (EvPrint words).

(** [np.random.randint(low, high)] with the default integer type: an
    integer from the half-open range [low, high); ValueError when a bound
    does not fit 64 bits or when [low >= high]. *)
Definition randint (low high : Z) : M state Z :=
  if (low <? - 2 ^ 63) || (2 ^ 63 <? high) || (high <=? low)
  then raise ValueError
  else do r <- call (λ w, let '(r, w') := entropy w in (Ok r, w'));
       ret (low + r mod (high - low)).

(** [time.sleep(secs)] *)
Definition sleep (secs : Z) : M state unit :=
  if secs <? 0 then raise ValueError
  else if sleep_limit <? secs then raise (OtherError "OverflowError")
  else emit (EvSleep secs).

(** The body of the first [for] loop for one name: [inl 1] is the
    [return 1] of either handler, [inr rel] the class found. *)
Definition resolve_one (relname : string) : M state (Z + Rel) :=
  do pm <- lift (unpack2 (Str.rsplit1 "." relname));
  let '(p, m) := pm in
  do r <- try_except
            (do mod_ <- lift (import_module p); ret (inr mod_))
            isinstance_ImportError
            (run print ["Could not find module"; p]; ret (inl 1));
  match r with
  | inl code => ret (inl code)
  | inr mod_ =>
      try_except
        (do rel <- lift (getattr mod_ m); ret (inr rel))
        isinstance_AttributeError
        (run print ["Could not find class"; m]; ret (inl 1))
  end.

Fixpoint resolve (names : list string) (rels_cls : list (string * Rel))
  : M state (Z + list (string * Rel)) :=
  match names with
  | [] => ret (inr rels_cls)
  | relname :: rest =>
      do r <- resolve_one relname;
      match r with
      | inl code => ret (inl code)
      | inr rel => resolve rest (dict_set relname rel rels_cls)
      end
  end.

(** [for name, rel in rels_cls.items(): ...], threading
    [populated_at_least_one]. *)
Fixpoint poll_stages (rels : list (string * Rel)) (populated : bool)
  : M state bool :=
  match rels with
  | [] => ret populated
  | (name, rel) :: rest =>
      run emit (EvProgress name);
      do td <- call (progress rel);
      let '(todo, _) := td in
      if 0 <? todo then
        run emit (EvPopulate name);
        run call (populate rel);
        poll_stages rest true
      else poll_stages rest populated
  end.

(** The body of [while run_daemon:] up to the assignment that ends it. *)
Definition cycle (args : Args) (rels : list (string * Rel))
    (run_daemon : bool) : M state unit :=
  do populated <- poll_stages rels false;
  if run_daemon && negb populated
  then do d <- randint (t_min args) (t_max args); sleep d
  else ret tt.

(** [while run_daemon: ...; run_daemon = args.daemon] and [return 0].
    [None] when [fuel] cycles were not enough. *)
Fixpoint daemon_loop (fuel : nat) (args : Args)
    (rels : list (string * Rel)) (run_daemon : bool) (s : state)
  : option (outcome Z) * state :=
  if run_daemon then
    match fuel with
    | O => (None, s)
    | S fuel' =>
        match cycle args rels run_daemon s with
        | (Ok _, s') => daemon_loop fuel' args rels (daemon args) s'
        | (Raise e, s') => (Some (Raise e), s')
        end
    end
  else (Some (Ok 0), s).

Definition names (args : Args) : list string :=
  map Str.strip (Str.split "," (relations args)).

Definition main (fuel : nat) (args : Args) (s : state)
  : option (outcome Z) * state :=
  match resolve (names args) [] s with
  | (Raise e, s') => (Some (Raise e), s')
  | (Ok (inl code), s') => (Some (Ok code), s')
  | (Ok (inr rels), s') => daemon_loop fuel args rels true s'
  end.

(** [sys.exit(main(sys.argv))]: the status is the value returned; an
    exception that leaves [main] ends the interpreter with status 1. *)
Definition exit_code (o : outcome Z) : Z :=
  match o with
  | Ok code => code
  | Raise _ => 1
  end.

(** A name the first loop can turn into a class. *)
Definition resolves (relname : string) : Prop :=
  ∃ p m mod_ rel,
    Str.rsplit1 "." relname = [p; m] ∧
    import_module p = Ok mod_ ∧ getattr mod_ m = Ok rel.

End Main.

(** The events a run adds to the log. *)
Definition adds `{RT : Runtime} (s s' : state) (evs : list event) : Prop :=
  log s' = log s ++ evs.

(** The names of a list in the order of their first occurrence, without
    those already in [seen]. *)
Fixpoint first_occurrences (seen ns : list string) : list string :=
  match ns with
  | [] => []
  | n :: rest =>
      if decide (n ∈ seen) then first_occurrences seen rest
      else n :: first_occurrences (seen ++ [n]) rest
  end.

(** The calls one pass over the stages makes, where [had_work] tells for
    each stage whether it reported [todo > 0]: [progress] of every stage,
    in the order of the dict, each followed at once by [populate] when the
    stage had work. *)
Fixpoint pass_events {R} (rels : list (string * R)) (had_work : list bool)
  : list event :=
  match rels, had_work with
  | (name, _) :: rels', w :: ws =>
      EvProgress name :: (if w then [EvPopulate name] else [])
      ++ pass_events rels' ws
  | _, _ => []
  end.

(** What the stages reported in one pass that starts in the world [w] and
    in which no call raises: [had_work] tells for each stage, in the order
    of the dict, whether the [todo] its [progress] returned was positive
    ([if todo > 0:]).  A stage that had work is populated before the next
    one is asked, a stage with [todo <= 0] is not populated; [w'] is the
    world the pass leaves. *)
Inductive pass_reports `{RT : Runtime}
  : list (string * Rel) → World → list bool → World → Prop :=
| reports_nil w : pass_reports [] w [] w
| reports_idle name rel rest w todo done_ w1 had_work w' :
    progress rel w = (Ok (todo, done_), w1) →
    todo ≤ 0 →
    pass_reports rest w1 had_work w' →
    pass_reports ((name, rel) :: rest) w (false :: had_work) w'
| reports_work name rel rest w todo done_ w1 w2 had_work w' :
    progress rel w = (Ok (todo, done_), w1) →
    0 < todo →
    populate rel w1 = (Ok tt, w2) →
    pass_reports rest w2 had_work w' →
    pass_reports ((name, rel) :: rest) w (true :: had_work) w'.

End Worker.

(** Concrete runtimes on which the worker is run below: the module
    [pipeline.reso] with the classes [ScanInfo] and [RasterCorrection]; the
    world is the generator's counter and the number of keys every stage
    still has to do, which [populate] brings to zero. *)
Module WorkerDemo.
Import Py Worker.

Definition demo_import (p : string) : outcome string :=
  if String.eqb p "pipeline.reso" then Ok p else Raise ModuleNotFoundError.

Definition demo_getattr (mod_ m : string) : outcome string :=
  if String.eqb m "ScanInfo" || String.eqb m "RasterCorrection"
  then Ok m else Raise AttributeError.

#[export] Instance demo_runtime : Runtime := {|
  Mod := string;
  Rel := string;
  World := Z * Z;
  import_module := demo_import;
  getattr := demo_getattr;
  progress := λ _ w, (Ok (snd w, 0), w);
  populate := λ _ w, (Ok tt, (fst w, 0));
  entropy := λ w, (fst w, (fst w + 1, snd w));
  sleep_limit := 2 ^ 32
|}.

Definition start (seed todo : Z) : state :=
  {| world := (seed, todo); log := [] |}.

(** The state after both stages were polled and had nothing to do. *)
Definition polled (seed : Z) : state :=
  {| world := (seed, 0);
     log := [EvProgress "pipeline.reso.ScanInfo";
             EvProgress "pipeline.reso.RasterCorrection"] |}.

Definition single_pass : Args :=
  {| relations := "pipeline.reso.ScanInfo"; daemon := false;
     t_min := default_t_min; t_max := default_t_max |}.

Definition daemon_5_6 : Args :=
  {| relations := "pipeline.reso.ScanInfo, pipeline.reso.RasterCorrection";
     daemon := true; t_min := 5; t_max := 6 |}.

Definition daemon_5_5 : Args :=
  {| relations := "pipeline.reso.ScanInfo, pipeline.reso.RasterCorrection";
     daemon := true; t_min := 5; t_max := 5 |}.

Definition misspelt : Args :=
  {| relations := "pipeline.reso.ScanInfo,pipeline.reso.RasterCorection";
     daemon := false; t_min := default_t_min; t_max := default_t_max |}.

(** A list of names that ends in a comma, and one that names a stage
    twice. *)
Definition trailing_comma : Args :=
  {| relations := "pipeline.reso.ScanInfo,"; daemon := false;
     t_min := default_t_min; t_max := default_t_max |}.

Definition named_twice : Args :=
  {| relations := "pipeline.reso.ScanInfo, pipeline.reso.RasterCorrection, pipeline.reso.ScanInfo";
     daemon := true; t_min := 5; t_max := 6 |}.

(** A daemon whose range of sleep durations lies below zero. *)
Definition daemon_negative : Args :=
  {| relations := "pipeline.reso.ScanInfo"; daemon := true;
     t_min := -10; t_max := -5 |}.

(** The state after the one stage of [single_pass] was polled and had
    nothing to do. *)
Definition polled_one (seed : Z) : state :=
  {| world := (seed, 0); log := [EvProgress "pipeline.reso.ScanInfo"] |}.

(** The state after a pass in which ScanInfo had work and was populated,
    and RasterCorrection had none. *)
Definition polled_busy (seed : Z) : state :=
  {| world := (seed, 0);
     log := [EvProgress "pipeline.reso.ScanInfo";
             EvPopulate "pipeline.reso.ScanInfo";
             EvProgress "pipeline.reso.RasterCorrection"] |}.

(** A runtime in which every stage has work and [populate] of
    RasterCorrection fails. *)
Definition failing_runtime : Runtime := {|
  Mod := string;
  Rel := string;
  World := Z * Z;
  import_module := demo_import;
  getattr := demo_getattr;
  progress := λ _ w, (Ok (3, 0), w);
  populate := λ rel w,
    if String.eqb rel "RasterCorrection"
    then (Raise (OtherError "IntegrityError"), w) else (Ok tt, w);
  entropy := λ w, (fst w, (fst w + 1, snd w));
  sleep_limit := 2 ^ 32
|}.

Definition failing_world : @World failing_runtime := (7, 0).

(** States of a run in that runtime: at the start, after ScanInfo was
    populated, and when [populate] of RasterCorrection has failed. *)
Definition failing_start : @state failing_runtime :=
  @Build_state failing_runtime (7, 0) [].

Definition failing_polled : @state failing_runtime :=
  @Build_state failing_runtime (7, 0)
    [EvProgress "pipeline.reso.ScanInfo"; EvPopulate "pipeline.reso.ScanInfo"].

Definition failing_end : @state failing_runtime :=
  @Build_state failing_runtime (7, 0)
    ([EvProgress "pipeline.reso.ScanInfo"; EvPopulate "pipeline.reso.ScanInfo"]
     ++ [EvProgress "pipeline.reso.RasterCorrection";
         EvPopulate "pipeline.reso.RasterCorrection"]).

End WorkerDemo.

(** ** The relational operators of the DataJoint query language

    The stage definitions are written in DataJoint's operators; their
    meaning on tables is given here.  A row maps attribute names to values;
    a relation is the list of its rows, each carrying every attribute of the
    relation's heading. *)

Module Dj.
Import Py.

(** A decimal literal [mantissa * 10 ^ exp10], for values the source writes
    or stores as floats; their arithmetic is not interpreted. *)
Record decimal : Type := Decimal { mantissa : Z; exp10 : Z }.

Inductive val : Type :=
| VInt (n : Z)
| VStr (s : string)
| VFloat (d : decimal)
| VNull.

#[global] Instance decimal_eq_dec : EqDecision decimal.
Proof. solve_decision. Defined.

#[global] Instance val_eq_dec : EqDecision val.
Proof. solve_decision. Defined.

Abbreviation row := (gmap string val).

(** Two rows match when they agree on the attributes they share. *)
Definition matches (r1 r2 : row) : Prop := map_agree r1 r2.

#[global] Instance matches_dec : RelDecision matches.
Proof. unfold matches. apply _. Defined.

(** [A & B]: the rows of [A] that match some row of [B]. *)
Definition restrict (a b : list row) : list row :=
  filter (λ r, Exists (matches r) b) a.

(** [A - B]: the rows of [A] that match no row of [B]. *)
Definition antijoin (a b : list row) : list row :=
  filter (λ r, ¬ Exists (matches r) b) a.

(** [A & key] for a dict: attributes of the dict outside the heading of
    [A] do not restrict. *)
Definition restrict_by (a : list row) (key : row) : list row :=
  filter (λ r, matches r key) a.

(** [A & 'attr=n'] for an integer literal. *)
Definition restrict_eq (a : list row) (attr : string) (n : Z) : list row :=
  filter (λ r, r !! attr = Some (VInt n)) a.

(** [A.proj()]: the given (primary key) attributes of a row. *)
Definition proj (attrs : list string) (r : row) : row :=
  filter (λ kv, kv.1 ∈ attrs) r.

(** [bool(A)]: a relation is true when it has a row. *)
Definition nonempty (a : list row) : bool :=
  match a with [] => false | _ => true end.

(** [A.fetch1]: exactly one row, or an error. *)
Definition fetch1 (a : list row) : outcome row :=
  match a with
  | [r] => Ok r
  | _ => Raise DataJointError
  end.

(** [tuple['attr']] on a fetched row or a dict. *)
Definition getitem (r : row) (attr : string) : outcome val :=
  match r !! attr with
  | Some v => Ok v
  | None => Raise KeyError
  end.

(** [xs[i]] on a list. *)
Definition list_item {A} (xs : list A) (i : Z) : outcome A :=
  if i <? 0 then
    match xs !! (length xs - Z.to_nat (- i))%nat with
    | Some x => if (Z.to_nat (- i) <=? length xs)%nat then Ok x else Raise IndexError
    | None => Raise IndexError
    end
  else match xs !! Z.to_nat i with
       | Some x => Ok x
       | None => Raise IndexError
       end.

(** Every row of a table carries exactly the attributes of its heading. *)
Definition has_heading (heading : list string) (a : list row) : Prop :=
  Forall (λ r : row, dom r = list_to_set (C := gset string) heading) a.

#[global] Instance has_heading_dec heading a : Decision (has_heading heading a).
Proof. unfold has_heading. apply _. Defined.

(** Two rows have the same values of the given attributes. *)
Definition same_on (attrs : list string) (r1 r2 : row) : Prop :=
  Forall (λ k, r1 !! k = r2 !! k) attrs.

#[global] Instance same_on_dec attrs r1 r2 : Decision (same_on attrs r1 r2).
Proof. unfold same_on. apply _. Defined.

(** [A * B]: the natural join, every pair of matching rows put together. *)
Definition join (a b : list row) : list row :=
  r1 ← a; r2 ← filter (matches r1) b; [r1 ∪ r2].

(** [A.fetch['attr']]: the column, in the order of the rows. *)
Fixpoint fetch_attr (attr : string) (a : list row) : outcome (list val) :=
  match a with
  | [] => Ok []
  | r :: rest =>
      match r !! attr, fetch_attr attr rest with
      | Some v, Ok vs => Ok (v :: vs)
      | None, _ => Raise DataJointError
      | _, Raise e => Raise e
      end
  end.

End Dj.


(** ** python/pipeline/reso.py *)

Module Reso.
Import Py Dj.

(** The primary key of [experiment.Scan], which every table below inherits
    (the attributes that [ScanSet._make_tuples] and [Activity._make_tuples]
    select as the scan key). *)
Definition scan_pk : list string := ["animal_id"; "session"; "scan_idx"].

(** Headings, from the [definition] strings.  A foreign key brings in the
    primary key of the table it points to. *)
Definition ScanInfo_heading : list string :=
  scan_pk ++
  ["nslices"; "nchannels"; "nframes"; "nframes_requested"; "px_height";
   "px_width"; "um_height"; "um_width"; "x"; "y"; "fps"; "zoom";
   "bidirectional"; "usecs_per_line"; "fill_fraction"].

Definition Slice_heading : list string := scan_pk ++ ["slice"; "z"].

Definition CorrectionChannel_heading : list string :=
  scan_pk ++ ["slice"; "channel"].

Definition RasterCorrection_heading : list string :=
  scan_pk ++ ["slice"; "channel"; "template"; "raster_phase"].

Definition SegmentationTask_heading : list string :=
  scan_pk ++ ["slice"; "channel"; "compartment"].

(** The tables that raster correction reads, and its own. *)
Record tables : Type := {
  ScanInfo : list row;
  ScanInfo_Slice : list row;
  CorrectionChannel : list row;
  RasterCorrection : list row
}.

Definition well_formed (t : tables) : Prop :=
  has_heading ScanInfo_heading (ScanInfo t) ∧
  has_heading Slice_heading (ScanInfo_Slice t) ∧
  has_heading CorrectionChannel_heading (CorrectionChannel t) ∧
  has_heading RasterCorrection_heading (RasterCorrection t).

#[global] Instance well_formed_dec t : Decision (well_formed t).
Proof. unfold well_formed. apply _. Defined.

(** [RasterCorrection.key_source]:
    [(ScanInfo() & CorrectionChannel()) - (ScanInfo.Slice() - CorrectionChannel())] *)
Definition key_source (t : tables) : list row :=
  antijoin (restrict (ScanInfo t) (CorrectionChannel t))
           (antijoin (ScanInfo_Slice t) (CorrectionChannel t)).

(** Modelled from the spec: the subtraction of the keys already done, which
    the framework's [populate] and [progress] perform and the repository
    does not contain ("Result = U − D", section 4.1): the pending keys of a
    stage are the keys of its key source that match no row of the stage's
    own table. *)
Definition pending (t : tables) : list row :=
  proj scan_pk <$> antijoin (key_source t) (RasterCorrection t).

(** The condition as the specification words it, for a scan key [k]: its
    ScanInfo row exists, no slice of the scan lacks a CorrectionChannel row,
    and the key is not done. *)
Definition pending_as_stated (t : tables) (k : row) : Prop :=
  (∃ r, r ∈ ScanInfo t ∧ proj scan_pk r = k) ∧
  (∀ sl, sl ∈ ScanInfo_Slice t → same_on scan_pk sl k →
         ∃ c, c ∈ CorrectionChannel t ∧ same_on (scan_pk ++ ["slice"]) c sl) ∧
  ¬ (∃ d, d ∈ RasterCorrection t ∧ same_on scan_pk d k).

(** The condition the key source computes: as above, and at least one
    CorrectionChannel row is recorded for the scan. *)
Definition pending_as_computed (t : tables) (k : row) : Prop :=
  (∃ r, r ∈ ScanInfo t ∧ proj scan_pk r = k) ∧
  (∃ c, c ∈ CorrectionChannel t ∧ same_on scan_pk c k) ∧
  (∀ sl, sl ∈ ScanInfo_Slice t → same_on scan_pk sl k →
         ∃ c, c ∈ CorrectionChannel t ∧ same_on (scan_pk ++ ["slice"]) c sl) ∧
  ¬ (∃ d, d ∈ RasterCorrection t ∧ same_on scan_pk d k).

(** *** [SegmentationTask.estimate_num_components] *)

(** Python's arithmetic on the values fetched: multiplication, [round] and
    [int] are the interpreter's and numpy's, and may raise. *)
Class Arith : Type := {
  py_mul : val → val → outcome val;
  py_round : val → outcome val;
  py_int : val → outcome Z
}.

(** What the function does besides returning: the objects it constructs. *)
Inductive event : Type :=
| EvConstruct (e : exn).

Definition construct (e : exn) : M (list event) unit :=
  modify (λ evs, evs ++ [EvConstruct e]).

(** [str.format] of a fetched value. *)
Definition str_of (v : val) : string :=
  match v with
  | VStr s => s
  | VInt _ => "<int>"
  | VFloat _ => "<float>"
  | VNull => "None"
  end.

Definition not_recognized (compartment : val) : string :=
  Str.format1 "Compartment type '" "' not recognized" (str_of compartment).

Section EstimateNumComponents.
Context `{AR : Arith}.

(** [self] is the relation the method is called on; [scan_info] the
    contents of [ScanInfo()].  The local [num_components] is assigned in the
    first two branches only. *)
Definition estimate_num_components (scan_info self : list row)
  : M (list event) Z :=
  do r <- lift (fetch1 (restrict scan_info self));
  do slice_height <- lift (getitem r "um_height");
  do slice_width <- lift (getitem r "um_width");
  let slice_thickness := VInt 10 in
  do wh <- lift (py_mul slice_width slice_height);
  do slice_volume <- lift (py_mul wh slice_thickness);
  do task <- lift (fetch1 self);
  do compartment <- lift (getitem task "compartment");
  do num_components <-
    (if decide (compartment = VStr "soma") then
       do n <- lift (py_mul slice_volume (VFloat (Decimal 1 (-4))));
       ret (Some n)
     else if decide (compartment = VStr "axon") then
       do n <- lift (py_mul slice_volume (VFloat (Decimal 1 (-3))));
       ret (Some n)
     else
       run construct (PipelineException (not_recognized compartment));
       ret None);
  do n <- load_local "num_components" num_components;
  do rounded <- lift (py_round n);
  lift (py_int rounded).

End EstimateNumComponents.


(** *** The overridden [delete] methods of the segmentation tables *)

Inductive seg_table : Type := ManualSegmentation | NMF | Segmentation.

#[global] Instance seg_table_eq_dec : EqDecision seg_table.
Proof. solve_decision. Defined.

(** [dj.BaseRelation.delete(rel)], the framework's delete of the rows of a
    relation together with the rows that depend on them; it is not in the
    repository. *)
Class Framework : Type := {
  BaseRelation_delete :
    seg_table → list row → (seg_table → list row) → (seg_table → list row)
}.

(** The three tables, and the framework deletes performed so far: the table
    and the rows each was asked to delete. *)
Record seg_state : Type := {
  seg_rows : seg_table → list row;
  deletes : list (seg_table * list row)
}.

Section Delete.
Context `{FW : Framework}.

Definition framework_delete (tbl : seg_table)
    (rel : (seg_table → list row) → list row) : M seg_state unit :=
  modify (λ s, {| seg_rows := BaseRelation_delete tbl (rel (seg_rows s))
                                (seg_rows s);
                  deletes := deletes s ++ [(tbl, rel (seg_rows s))] |}).

(** [if rel: body], the relation being evaluated on the tables as they are
    when the test is made. *)
Definition if_nonempty (rel : (seg_table → list row) → list row)
    (body : M seg_state unit) : M seg_state unit :=
  λ s, if nonempty (rel (seg_rows s)) then body s else (Ok tt, s).

(** [Segmentation.delete(self)]; [self] is a query on Segmentation. *)
Definition Segmentation_delete (self : (seg_table → list row) → list row)
  : M seg_state unit :=
  let manual db := restrict (db ManualSegmentation) (self db) in
  let nmf db := restrict (db NMF) (self db) in
  run if_nonempty manual (framework_delete ManualSegmentation manual);
  run if_nonempty nmf (framework_delete NMF nmf);
  if_nonempty self (framework_delete Segmentation self).

(** [NMF.delete(self)]; [self] is a query on NMF. *)
Definition NMF_delete (self : (seg_table → list row) → list row)
  : M seg_state unit :=
  let segmentation db := restrict (db Segmentation) (self db) in
  run if_nonempty segmentation (framework_delete Segmentation segmentation);
  if_nonempty self (framework_delete NMF self).

(** [ManualSegmentation.delete(self)]; [self] is a query on
    ManualSegmentation. *)
Definition ManualSegmentation_delete
    (self : (seg_table → list row) → list row) : M seg_state unit :=
  let segmentation db := restrict (db Segmentation) (self db) in
  run if_nonempty segmentation (framework_delete Segmentation segmentation);
  if_nonempty self (framework_delete ManualSegmentation self).

End Delete.

(** At most one delete, of the given table. *)
Definition at_most_one (tbl : seg_table)
    (ds : list (seg_table * list row)) : Prop :=
  ds = [] ∨ ∃ rel, rel ≠ [] ∧ ds = [(tbl, rel)].

(** *** [RasterCorrection._make_tuples] and [get_correct_raster] *)

(** The primary key of RasterCorrection, which is that of ScanInfo. *)
Definition RasterCorrection_primary_key : list string := scan_pk.

(** The function [get_correct_raster] returns, by what it does to a scan:
    [scan.astype(np.float32, copy=False)], or
    [galvo_corrections.correct_raster(scan, raster_phase, fill_fraction)]. *)
Inductive raster_fn : Type :=
| astype_float32
| correct_raster (raster_phase fill_fraction : val).

#[global] Instance raster_fn_eq_dec : EqDecision raster_fn.
Proof. solve_decision. Defined.

(** [v == 0] for a fetched number. *)
Definition eq_zero (v : val) : bool :=
  match v with
  | VInt n => n =? 0
  | VFloat d => mantissa d =? 0
  | _ => false
  end.

(** [RasterCorrection.get_correct_raster(key)] *)
Definition get_correct_raster (t : tables) (key : row) : outcome raster_fn :=
  let key := proj RasterCorrection_primary_key key in
  r ← fetch1 (restrict_by (RasterCorrection t) key);
  raster_phase ← getitem r "raster_phase";
  i ← fetch1 (restrict_by (ScanInfo t) key);
  fill_fraction ← getitem i "fill_fraction";
  if eq_zero raster_phase then Ok astype_float32
  else Ok (correct_raster raster_phase fill_fraction).

(** An integer fetched from an integer column; arithmetic on anything else
    that the framework could hand back for such a column (None, a string)
    is a TypeError. *)
Definition as_int (v : val) : outcome Z :=
  match v with
  | VInt n => Ok n
  | _ => Raise TypeError
  end.

(** What the stage calls outside the repository: the scan reader (with the
    lookup of the file names), numpy's mean over the frames
    [scan[slice_id, :, :, channel, start:stop]], the estimate of the raster
    phase, the checks the database makes on an insert, and the
    notification service. *)
Class Scanner : Type := {
  scan_t : Type;
  read_scan : row → outcome scan_t;
  num_fields : scan_t → Z;
  num_frames : scan_t → Z;
  is_bidirectional : scan_t → bool;
  temporal_fill_fraction : scan_t → val;
  mean_frame : scan_t → Z → Z → Z → Z → outcome val;
  compute_raster_phase : val → val → outcome val;
  raster_rejects : list row → row → option exn;
  slack_notify : row → val → outcome unit
}.

(** The notifications sent: the key and the raster phase in the message. *)
Inductive raster_event : Type :=
| EvNotify (key : row) (raster_phase : val).

Record raster_state : Type := {
  tabs : tables;
  sent : list raster_event
}.

#[global] Instance tables_eq_dec : EqDecision tables.
Proof. solve_decision. Defined.

#[global] Instance raster_event_eq_dec : EqDecision raster_event.
Proof. solve_decision. Defined.

#[global] Instance raster_state_eq_dec : EqDecision raster_state.
Proof. solve_decision. Defined.

Section RasterCorrection.
Context `{SC : Scanner}.

(** [self.insert1(tuple_)] on RasterCorrection. *)
Definition RasterCorrection_insert1 (r : row) : M raster_state unit :=
  λ s, match raster_rejects (RasterCorrection (tabs s)) r with
       | Some e => (Raise e, s)
       | None =>
           (Ok tt,
            {| tabs := {| ScanInfo := ScanInfo (tabs s);
                          ScanInfo_Slice := ScanInfo_Slice (tabs s);
                          CorrectionChannel := CorrectionChannel (tabs s);
                          RasterCorrection := RasterCorrection (tabs s) ++ [r] |};
               sent := sent s |})
       end.

(** [RasterCorrection.notify(self, key)] *)
Definition RasterCorrection_notify (key : row) : M raster_state unit :=
  λ s, match r ← fetch1 (restrict_by (RasterCorrection (tabs s)) key);
             raster_phase ← getitem r "raster_phase";
             _ ← slack_notify key raster_phase;
             Ok raster_phase with
       | Ok raster_phase =>
           (Ok tt, {| tabs := tabs s;
                      sent := sent s ++ [EvNotify key raster_phase] |})
       | Raise e => (Raise e, s)
       end.

(** [RasterCorrection._make_tuples(self, key)].  [np.floor(n / 2)] on a
    count is the floor division. *)
Definition RasterCorrection_make_tuples (key : row) : M raster_state unit :=
  do scan <- lift (read_scan key);
  let slice_id := num_fields scan / 2 in
  do channel <- (λ s,
       (c ← fetch1 (restrict_by
                      (restrict_by (CorrectionChannel (tabs s)) key)
                      {[ "slice" := VInt (slice_id + 1) ]});
        ch ← getitem c "channel";
        n ← as_int ch;
        Ok (n - 1), s));
  let tuple_ := key in
  let tuple_ := <["slice" := VInt (slice_id + 1)]> tuple_ in
  let tuple_ := <["channel" := VInt (channel + 1)]> tuple_ in
  let middle_frame := num_frames scan / 2 in
  let start := Z.max (middle_frame - 1000) 0 in
  let stop := middle_frame + 1000 in
  do template <- lift (mean_frame scan slice_id channel start stop);
  let tuple_ := <["template" := template]> tuple_ in
  do raster_phase <-
    (if is_bidirectional scan
     then lift (compute_raster_phase template (temporal_fill_fraction scan))
     else ret (VInt 0));
  let tuple_ := <["raster_phase" := raster_phase]> tuple_ in
  run RasterCorrection_insert1 tuple_;
  RasterCorrection_notify key.

End RasterCorrection.

(** The row a call stores, for the values it read and computed. *)
Definition stored_row (key : row) (slice channel : Z) (template phase : val)
  : row :=
  <["raster_phase" := phase]>
    (<["template" := template]>
       (<["channel" := VInt channel]> (<["slice" := VInt slice]> key))).

(** *** [Segmentation.reshape_masks] and the masks as [NMF._make_tuples]
        stores them

    A stack of images [image_height x image_width x num_masks] is kept as
    its layers, each layer [masks[:, :, i]] as the vector of its pixels in
    column-major (Fortran) order: pixel [(y, x)] is at [y + x * height].
    Weights are numpy floats; the code uses the zero that [np.zeros] fills
    with and the truth value that [np.where] tests. *)

Record stack (W : Type) : Type := {
  height : nat;
  width : nat;
  layers : list (list W)
}.
Arguments height {W} _.
Arguments width {W} _.
Arguments layers {W} _.

(** [masks[y, x, i]] *)
Definition pixel {W} (m : stack W) (y x i : nat) : option W :=
  if decide (y < height m ∧ x < width m)%nat
  then layer ← layers m !! i; layer !! (y + x * height m)%nat
  else None.

(** An index into an array of length [n]: counted from the end when
    negative, IndexError outside [-n, n). *)
Definition normalize_index (n : nat) (i : Z) : outcome nat :=
  if (i <? - Z.of_nat n) || (Z.of_nat n <=? i) then Raise IndexError
  else Ok (Z.to_nat (if i <? 0 then i + Z.of_nat n else i)).

Fixpoint normalize_indices (n : nat) (idx : list Z) : outcome (list nat) :=
  match idx with
  | [] => Ok []
  | i :: rest =>
      p ← normalize_index n i;
      ps ← normalize_indices n rest;
      Ok (p :: ps)
  end.

Section Masks.
Context {W : Type}.
Variable zero : W.
Variable is_zero : W → bool.

(** [vec[idx] = vals] for an array of indices and an array of values: the
    values are as many as the indices, or one that is used for every
    index, or else the shapes do not match (ValueError); every index is
    checked before anything is written (IndexError); a position written
    twice keeps the last value. *)
Definition assign_at (vec : list W) (idx : list Z) (vals : list W)
  : outcome (list W) :=
  vals ← (if (length vals =? length idx)%nat then Ok vals
          else match vals with
               | [v] => Ok (replicate (length idx) v)
               | _ => Raise ValueError
               end);
  positions ← normalize_indices (length vec) idx;
  Ok (foldl (λ acc pv, <[pv.1 := pv.2]> acc) vec (zip positions vals)).

(** The body of the loop of [reshape_masks], over
    [zip(mask_pixels, mask_weights)]: the layers that are written. *)
Fixpoint reshape_each (n : nat) (mask_pixels : list (list Z))
    (mask_weights : list (list W)) : outcome (list (list W)) :=
  match mask_pixels, mask_weights with
  | mp :: pixels', mw :: weights' =>
      mask_as_vector ← assign_at (replicate n zero) ((λ p, p - 1) <$> mp) mw;
      rest ← reshape_each n pixels' weights';
      Ok (mask_as_vector :: rest)
  | _, _ => Ok []
  end.

(** [Segmentation.reshape_masks(mask_pixels, mask_weights, image_height,
    image_width)].  [np.zeros] refuses a negative dimension; the stack has
    a layer for every element of [mask_pixels], and the layers the loop
    does not reach stay zero. *)
Definition reshape_masks (mask_pixels : list (list Z))
    (mask_weights : list (list W)) (image_height image_width : Z)
  : outcome (stack W) :=
  if (image_height <? 0) || (image_width <? 0) then Raise ValueError
  else
    let n := Z.to_nat (image_height * image_width) in
    written ← reshape_each n mask_pixels mask_weights;
    Ok {| height := Z.to_nat image_height;
          width := Z.to_nat image_width;
          layers := written
                    ++ replicate (length mask_pixels - length written)
                         (replicate n zero) |}.

(** [np.where(mask)[0]]: the positions of the nonzero weights, counted
    from [i]. *)
Fixpoint np_where (i : nat) (mask : list W) : list nat :=
  match mask with
  | [] => []
  | x :: rest =>
      if is_zero x then np_where (S i) rest else i :: np_where (S i) rest
  end.

(** [mask[mask_pixels]] for positions that [np.where] returned. *)
Definition take_positions (mask : list W) (positions : list nat) : list W :=
  omap (λ p, mask !! p) positions.

(** What [NMF._make_tuples] stores for one mask, a row of
    [location_matrix.reshape(-1, num_masks, order='F').T]: the positions of
    its nonzero weights, moved to start at 1, and those weights. *)
Definition stored_pixels (mask : list W) : list Z :=
  (λ p, Z.of_nat p + 1) <$> np_where 0 mask.

Definition stored_weights (mask : list W) : list W :=
  take_positions mask (np_where 0 mask).

(** A weight as it comes back: a zero of any sign is not stored, and comes
    back as the zero [np.zeros] fills with. *)
Definition restored (x : W) : W := if is_zero x then zero else x.

Definition restored_mask (mask : list W) : list W := restored <$> mask.

End Masks.

(** *** [ScanSet._make_tuples] and [Activity._make_tuples] *)

(** The tables the two stages read and write. *)
Inductive stage_table : Type :=
| T_ScanInfo
| T_Segmentation_Mask
| T_Calcium_Trace
| T_SpikeMethod
| T_ScanSet
| T_ScanSet_Unit
| T_Activity
| T_Activity_Trace.

#[global] Instance stage_table_eq_dec : EqDecision stage_table.
Proof. solve_decision. Defined.

(** The attributes kept in [scan_key] by the two stages. *)
Definition ScanSet_scan_key : list string :=
  ["animal_id"; "session"; "scan_idx"; "extract_method"].

Definition Activity_scan_key : list string :=
  ["animal_id"; "session"; "scan_idx"; "extract_method"; "spike_method"].

(** Headings, from the [definition] strings: ScanSet.Unit has the key of
    ScanInfo, the segmentation method and [unit_id] as its primary key, and
    the rest of the key of Segmentation.Mask as dependent attributes. *)
Definition Unit_primary_key : list string :=
  scan_pk ++ ["extract_method"; "unit_id"].

Definition Unit_heading : list string :=
  Unit_primary_key ++ ["slice"; "channel"; "mask_id"].

(** What the stages do besides writing rows. *)
Inductive stage_event : Type :=
| EvPrintActivity (key : row)
| EvNotifyActivity (key : row).

#[global] Instance stage_event_eq_dec : EqDecision stage_event.
Proof. solve_decision. Defined.

Record stage_state : Type := {
  stored : stage_table → list row;
  shown : list stage_event
}.

(** What the stages call outside the repository: the checks the database
    makes on an insert; [signal.fill_nans] of a squeezed copy of a trace;
    the imports made inside the branches; the deconvolution
    [pyfnnd.deconvolve(trace, dt=1/fps)[0]] and the prediction of the
    spike-triggered mixture model on the part of the trace between its
    first and last number; the notification with the plot of the spikes. *)
Class Lab : Type := {
  stage_rejects : stage_table → list row → row → option exn;
  fill_nans : val → outcome val;
  import_pyfnnd : outcome unit;
  import_c2s : outcome unit;
  import_caiman_interface : outcome unit;
  deconvolve : val → val → outcome val;
  predict : val → val → outcome val;
  notify_spikes : row → list row → outcome unit
}.

(** Integers out of an integer column. *)
Fixpoint as_ints (vs : list val) : outcome (list Z) :=
  match vs with
  | [] => Ok []
  | v :: rest => n ← as_int v; ns ← as_ints rest; Ok (n :: ns)
  end.

(** [np.max] of a column of integers; of an empty one it is a ValueError. *)
Definition np_max (ns : list Z) : outcome Z :=
  match ns with
  | [] => Raise ValueError
  | n :: rest => Ok (foldl Z.max n rest)
  end.

(** [[f(x) for x in xs]] *)
Fixpoint map_outcome {A B} (f : A → outcome B) (xs : list A)
  : outcome (list B) :=
  match xs with
  | [] => Ok []
  | x :: rest => y ← f x; ys ← map_outcome f rest; Ok (y :: ys)
  end.

Section Stages.
Context `{LB : Lab}.

Definition query {A} (f : (stage_table → list row) → outcome A)
  : M stage_state A :=
  λ s, (f (stored s), s).

Definition stage_insert1 (tbl : stage_table) (r : row) : M stage_state unit :=
  λ s, match stage_rejects tbl (stored s tbl) r with
       | Some e => (Raise e, s)
       | None =>
           (Ok tt,
            {| stored := λ t, if decide (t = tbl) then stored s t ++ [r]
                              else stored s t;
               shown := shown s |})
       end.

Definition show (e : stage_event) : M stage_state unit :=
  modify (λ s, {| stored := stored s; shown := shown s ++ [e] |}).

(** The loop of [ScanSet._make_tuples] over the mask ids, threading
    [unit_id]. *)
Fixpoint insert_units (key : row) (mask_ids : list val) (unit_id : Z)
  : M stage_state unit :=
  match mask_ids with
  | [] => ret tt
  | mask_id :: rest =>
      run stage_insert1 T_ScanSet_Unit
            (<["unit_id" := VInt unit_id]> (<["mask_id" := mask_id]> key));
      insert_units key rest (unit_id + 1)
  end.

(** The first unit id of a call: one more than the largest of the scan
    and segmentation method, or 1 when they have no unit yet. *)
Definition next_unit_id (unit_rel : list row) : outcome Z :=
  if nonempty unit_rel
  then unit_ids ← fetch_attr "unit_id" unit_rel;
       ns ← as_ints unit_ids;
       largest ← np_max ns;
       Ok (largest + 1)
  else Ok 1.

(** [ScanSet._make_tuples(self, key)] *)
Definition ScanSet_make_tuples (key : row) : M stage_state unit :=
  run stage_insert1 T_ScanSet key;
  let scan_key := proj ScanSet_scan_key key in
  do unit_id <- query (λ db,
       next_unit_id (restrict_by (db T_ScanSet_Unit) scan_key));
  do mask_ids <- query (λ db,
       fetch_attr "mask_id" (restrict_by (db T_Segmentation_Mask) key));
  insert_units key mask_ids unit_id.

(** The two loops of [Activity._make_tuples] over
    [zip(unit_ids, full_traces)], for the function that infers the spikes
    of one trace. *)
Fixpoint insert_traces (infer : val → outcome val) (scan_key : row)
    (units : list (val * val)) : M stage_state unit :=
  match units with
  | [] => ret tt
  | (unit_id, trace) :: rest =>
      do spike_trace <- lift (infer trace);
      run stage_insert1 T_Activity_Trace
            (<["trace" := spike_trace]> (<["unit_id" := unit_id]> scan_key));
      insert_traces infer scan_key rest
  end.

(** [Activity.notify(self, key)]: the plot and the message are made
    outside, of the traces stored for the key
    ([(Activity.Trace() & (Activity() & key))], by [get_all_spikes]). *)
Definition Activity_notify (key : row) : M stage_state unit :=
  run query (λ db,
        notify_spikes key (restrict (db T_Activity_Trace)
                             (restrict_by (db T_Activity) key)));
  show (EvNotifyActivity key).

(** ['{} method not implemented.'.format(method_name)] *)
Definition method_not_implemented (method_name : val) : string :=
  Str.format1 "" " method not implemented." (str_of method_name).

(** The three reads of [Activity._make_tuples]: the frame rate of the
    scan, the unit ids with the filled calcium traces of the key's units,
    and the name of the spike method. *)
Definition Activity_fps (key : row) (db : stage_table → list row)
  : outcome val :=
  info ← fetch1 (restrict_by (db T_ScanInfo) key); getitem info "fps".

Definition Activity_units (key : row) (db : stage_table → list row)
  : outcome (list (val * val)) :=
  let rel := join (restrict_by (db T_ScanSet_Unit) key) (db T_Calcium_Trace) in
  unit_ids ← fetch_attr "unit_id" rel;
  traces ← fetch_attr "trace" rel;
  full_traces ← map_outcome fill_nans traces;
  Ok (zip unit_ids full_traces).

Definition Activity_method_name (key : row) (db : stage_table → list row)
  : outcome val :=
  method ← fetch1 (restrict_by (db T_SpikeMethod) key);
  getitem method "spike_method_name".

(** [Activity._make_tuples(self, key)] *)
Definition Activity_make_tuples (key : row) : M stage_state unit :=
  run show (EvPrintActivity key);
  do fps <- query (Activity_fps key);
  do units <- query (Activity_units key);
  run stage_insert1 T_Activity key;
  let scan_key := proj Activity_scan_key key in
  do method_name <- query (Activity_method_name key);
  run (if decide (method_name = VStr "oopsi") then
         run lift import_pyfnnd;
         insert_traces (λ trace, deconvolve trace fps) scan_key units
       else if decide (method_name = VStr "stm") then
         run lift import_c2s;
         insert_traces (λ trace, predict trace fps) scan_key units
       else if decide (method_name = VStr "nmf") then
         run lift import_caiman_interface;
         raise (NotImplementedError "NMF not yet implemented")
       else
         raise (NotImplementedError (method_not_implemented method_name)));
  Activity_notify key.

End Stages.

(** The units of one call: a unit for every mask id, numbered from [first]
    in the order of the masks. *)
Definition numbered_units (key : row) (first : Z) (mask_ids : list val)
  : list row :=
  imap (λ j mask_id, <["unit_id" := VInt (first + Z.of_nat j)]>
                       (<["mask_id" := mask_id]> key)) mask_ids.

(** No two rows of ScanSet.Unit have the same primary key. *)
Definition unit_key_unique (units : list row) : Prop :=
  ∀ i j r1 r2, units !! i = Some r1 → units !! j = Some r2 →
               same_on Unit_primary_key r1 r2 → i = j.

(** *** The requests the overridden deletes make *)

(** [tbl() & self], on the tables [db]. *)
Definition rows_of_self (tbl : seg_table)
    (self : (seg_table → list row) → list row)
  : (seg_table → list row) → list row :=
  λ db, restrict (db tbl) (self db).

Section DeleteRequests.
Context `{FW : Framework}.

(** What [if rel: dj.BaseRelation.delete(rel)] asks of the framework on the
    tables [db]: one delete, of the rows of [rel], when [rel] has rows, and
    nothing when it has none. *)
Definition requested (tbl : seg_table)
    (rel : (seg_table → list row) → list row) (db : seg_table → list row)
  : list (seg_table * list row) :=
  if nonempty (rel db) then [(tbl, rel db)] else [].

(** The tables it leaves. *)
Definition after_request (tbl : seg_table)
    (rel : (seg_table → list row) → list row) (db : seg_table → list row)
  : seg_table → list row :=
  if nonempty (rel db) then BaseRelation_delete tbl (rel db) db else db.

(** The requests of several such statements one after the other, each
    relation being evaluated on the tables the statements before it left,
    and the tables they leave. *)
Fixpoint requests
    (steps : list (seg_table * ((seg_table → list row) → list row)))
    (db : seg_table → list row) : list (seg_table * list row) :=
  match steps with
  | [] => []
  | (tbl, rel) :: rest =>
      requested tbl rel db ++ requests rest (after_request tbl rel db)
  end.

Fixpoint after_requests
    (steps : list (seg_table * ((seg_table → list row) → list row)))
    (db : seg_table → list row) : seg_table → list row :=
  match steps with
  | [] => db
  | (tbl, rel) :: rest => after_requests rest (after_request tbl rel db)
  end.

End DeleteRequests.
End Reso.


(** Concrete tables and arithmetic on which the statements about
    [reso.py] are exercised. *)
Module ResoDemo.
Import Py Dj Reso.

Definition scan_key (a s i : Z) : row :=
  {[ "animal_id" := VInt a; "session" := VInt s; "scan_idx" := VInt i ]}.

Definition flt (m e : Z) : val := VFloat (Decimal m e).

Definition scan_info_row (a s i : Z) : row :=
  scan_key a s i ∪
  {[ "nslices" := VInt 2; "nchannels" := VInt 1; "nframes" := VInt 1000;
     "nframes_requested" := VInt 1000; "px_height" := VInt 256;
     "px_width" := VInt 256; "um_height" := VInt 400;
     "um_width" := VInt 400 ]} ∪
  {[ "x" := flt 0 0; "y" := flt 0 0; "fps" := flt 30 0; "zoom" := flt 16 (-1);
     "bidirectional" := VInt 1; "usecs_per_line" := flt 63 0;
     "fill_fraction" := flt 7 (-1) ]}.

Definition slice_row (a s i sl : Z) : row :=
  scan_key a s i ∪ {[ "slice" := VInt sl; "z" := flt 100 0 ]}.

Definition channel_row (a s i sl ch : Z) : row :=
  scan_key a s i ∪ {[ "slice" := VInt sl; "channel" := VInt ch ]}.

Definition task_row (a s i sl ch : Z) (compartment : string) : row :=
  scan_key a s i ∪
  {[ "slice" := VInt sl; "channel" := VInt ch;
     "compartment" := VStr compartment ]}.

(** A scan whose ScanInfo row has no slice rows and for which no channel
    was chosen. *)
Definition no_slices : tables :=
  {| ScanInfo := [scan_info_row 1 1 1];
     ScanInfo_Slice := [];
     CorrectionChannel := [];
     RasterCorrection := [] |}.

(** A scan of two slices with a channel chosen for both, and one with a
    channel chosen for the first slice only. *)
Definition two_scans : tables :=
  {| ScanInfo := [scan_info_row 1 1 1; scan_info_row 1 1 2];
     ScanInfo_Slice := [slice_row 1 1 1 1; slice_row 1 1 1 2;
                        slice_row 1 1 2 1; slice_row 1 1 2 2];
     CorrectionChannel := [channel_row 1 1 1 1 1; channel_row 1 1 1 2 1;
                           channel_row 1 1 2 1 1];
     RasterCorrection := [] |}.

(** Integer arithmetic, enough to run the method on whole numbers. *)
#[export] Instance int_arith : Arith := {|
  py_mul := λ a b, match a, b with
                   | VInt x, VInt y => Ok (VInt (x * y))
                   | _, _ => Raise TypeError
                   end;
  py_round := λ a, Ok a;
  py_int := λ a, match a with VInt x => Ok x | _ => Raise TypeError end
|}.

(** A reader of unidirectional scans of two slices, a database that
    accepts every row and a notification service that is up.  Images are
    not interpreted: a string stands for the template. *)
Definition demo_scanner : Scanner := {|
  scan_t := unit;
  read_scan := λ _, Ok tt;
  num_fields := λ _, 2;
  num_frames := λ _, 1000;
  is_bidirectional := λ _, false;
  temporal_fill_fraction := λ _, flt 7 (-1);
  mean_frame := λ _ _ _ _ _, Ok (VStr "<template>");
  compute_raster_phase := λ _ _, Ok (flt 0 0);
  raster_rejects := λ _ _, None;
  slack_notify := λ _ _, Ok tt
|}.

Definition raster_start : raster_state := {| tabs := two_scans; sent := [] |}.

(** The row of the first scan of [two_scans], computed on its second (the
    middle) slice. *)
Definition raster_row : row :=
  scan_key 1 1 1 ∪
  {[ "slice" := VInt 2; "channel" := VInt 1; "template" := VStr "<template>";
     "raster_phase" := VInt 0 ]}.

Definition raster_done : raster_state :=
  {| tabs := {| ScanInfo := ScanInfo two_scans;
                ScanInfo_Slice := ScanInfo_Slice two_scans;
                CorrectionChannel := CorrectionChannel two_scans;
                RasterCorrection := [raster_row] |};
     sent := [EvNotify (scan_key 1 1 1) (VInt 0)] |}.

(** A key of the same scan as NMF passes it: with a slice and a channel. *)
Definition nmf_key : row :=
  scan_key 1 1 1 ∪ {[ "slice" := VInt 1; "channel" := VInt 1 ]}.

(** Whole numbers as weights, and a stack of two images of two rows and
    two columns, the second without a nonzero weight. *)
Definition int_is_zero (x : Z) : bool := x =? 0.

Definition two_masks : stack Z :=
  {| height := 2; width := 2; layers := [[0; 3; 0; 5]; [0; 0; 0; 0]] |}.

(** Two masks of one row and two columns, read back from two pixel arrays
    and one weight array. *)
Definition second_mask_lost : stack Z :=
  {| height := 1; width := 2; layers := [[5; 0]; [0; 0]] |}.

(** A laboratory in which everything outside works and leaves the traces as
    they are, and the segmentation of a scan of two slices: the first slice
    has its unit, the second has two masks and no unit yet.  Strings stand
    for the arrays. *)
Definition demo_lab : Lab := {|
  stage_rejects := λ _ _ _, None;
  fill_nans := λ trace, Ok trace;
  import_pyfnnd := Ok tt;
  import_c2s := Ok tt;
  import_caiman_interface := Ok tt;
  deconvolve := λ trace _, Ok trace;
  predict := λ trace _, Ok trace;
  notify_spikes := λ _ _, Ok tt
|}.

Definition seg_key (sl : Z) : row :=
  scan_key 1 1 1 ∪
  {[ "slice" := VInt sl; "channel" := VInt 1; "extract_method" := VInt 2 ]}.

Definition mask_row (sl mask_id : Z) : row :=
  seg_key sl ∪
  {[ "mask_id" := VInt mask_id; "pixels" := VStr "<pixels>";
     "weights" := VStr "<weights>" ]}.

Definition unit_row (sl mask_id unit_id : Z) : row :=
  seg_key sl ∪ {[ "mask_id" := VInt mask_id; "unit_id" := VInt unit_id ]}.

Definition segmented (t : stage_table) : list row :=
  match t with
  | T_ScanInfo => [scan_info_row 1 1 1]
  | T_Segmentation_Mask => [mask_row 1 1; mask_row 2 1; mask_row 2 2]
  | T_ScanSet => [seg_key 1]
  | T_ScanSet_Unit => [unit_row 1 1 1]
  | _ => []
  end.

Definition scanset_start : stage_state := {| stored := segmented; shown := [] |}.

Definition scanset_done : stage_state :=
  (ScanSet_make_tuples (LB:=demo_lab) (seg_key 2) scanset_start).2.

(** The units of both slices with their calcium traces, and the key of the
    second slice for the spike method 3, which is the method 'nmf'. *)
Definition activity_key : row := seg_key 2 ∪ {[ "spike_method" := VInt 3 ]}.

Definition with_traces (t : stage_table) : list row :=
  match t with
  | T_ScanInfo => [scan_info_row 1 1 1]
  | T_ScanSet_Unit => [unit_row 1 1 1; unit_row 2 1 2; unit_row 2 2 3]
  | T_Calcium_Trace =>
      [seg_key 2 ∪ {[ "mask_id" := VInt 1; "trace" := VStr "<trace 1>" ]};
       seg_key 2 ∪ {[ "mask_id" := VInt 2; "trace" := VStr "<trace 2>" ]}]
  | T_SpikeMethod =>
      [{[ "spike_method" := VInt 3; "spike_method_name" := VStr "nmf";
          "language" := VStr "python" ]}]
  | _ => []
  end.

Definition activity_start : stage_state :=
  {| stored := with_traces; shown := [] |}.

(** A framework whose delete removes the rows from the one table, and
    segmentation tables that are empty. *)
Definition demo_framework : Framework := {|
  BaseRelation_delete := λ tbl rel db t,
    if decide (t = tbl) then list_difference (db t) rel else db t
|}.

Definition no_segmentation : seg_state :=
  {| seg_rows := λ _, []; deletes := [] |}.


(** Two segmentations: the one of slice 1 has a manual segmentation and
    an NMF segmentation, the one of slice 2 only an NMF segmentation. *)
Definition two_segmentations : seg_state :=
  {| seg_rows := λ t,
       match t with
       | ManualSegmentation => [seg_key 1]
       | NMF => [seg_key 1; seg_key 2]
       | Segmentation => [seg_key 1; seg_key 2]
       end;
     deletes := [] |}.

(** [Segmentation() & {'slice': 1}] and [NMF() & {'slice': 2}] *)
Definition segmentation_of_slice (sl : Z) : (seg_table → list row) → list row :=
  λ db, restrict (db Segmentation) [{[ "slice" := VInt sl ]}].

Definition nmf_of_slice (sl : Z) : (seg_table → list row) → list row :=
  λ db, restrict (db NMF) [{[ "slice" := VInt sl ]}].
(** Exact arithmetic on whole numbers and decimals: a product with a
    decimal is a decimal, and [round] rounds half to even. *)
Definition round_decimal (d : decimal) : Z :=
  if 0 <=? exp10 d then mantissa d * 10 ^ exp10 d
  else
    let unit := 10 ^ (- exp10 d) in
    let q := mantissa d / unit in
    let twice := 2 * (mantissa d mod unit) in
    if twice <? unit then q
    else if unit <? twice then q + 1
    else if Z.even q then q else q + 1.

Definition decimal_arith : Arith := {|
  py_mul := λ a b,
    match a, b with
    | VInt x, VInt y => Ok (VInt (x * y))
    | VInt x, VFloat (Decimal m e) | VFloat (Decimal m e), VInt x =>
        Ok (VFloat (Decimal (x * m) e))
    | VFloat (Decimal m1 e1), VFloat (Decimal m2 e2) =>
        Ok (VFloat (Decimal (m1 * m2) (e1 + e2)))
    | _, _ => Raise TypeError
    end;
  py_round := λ a,
    match a with
    | VInt x => Ok (VInt x)
    | VFloat d => Ok (VInt (round_decimal d))
    | _ => Raise TypeError
    end;
  py_int := λ a, match a with VInt x => Ok x | _ => Raise TypeError end
|}.

End ResoDemo.


(** ** python/pipeline/aodtrk.py *)

Module Aodtrk.
Import Py Dj.

(** The tables the two [_make_tuples] write to. *)
Inductive table : Type := TrackInfo | EyeFrame | Detection.

(** What the functions do besides writing rows: what they print, and the
    calls of the pupil tracker with the parameters given to its constructor,
    the video path and the region of interest. *)
Inductive event : Type :=
| EvPrintKey (key : row)
| EvPrint (msg : string)
| EvTrack (param : row) (video_path : val) (eye_roi : list val).

Record state : Type := {
  track_info : list row;
  eye_frame : list row;
  detection : list row;
  out : list event
}.

Definition rows_of (tbl : table) (s : state) : list row :=
  match tbl with
  | TrackInfo => track_info s
  | EyeFrame => eye_frame s
  | Detection => detection s
  end.

Definition add_row (tbl : table) (r : row) (s : state) : state :=
  match tbl with
  | TrackInfo => {| track_info := track_info s ++ [r]; eye_frame := eye_frame s;
                    detection := detection s; out := out s |}
  | EyeFrame => {| track_info := track_info s; eye_frame := eye_frame s ++ [r];
                   detection := detection s; out := out s |}
  | Detection => {| track_info := track_info s; eye_frame := eye_frame s;
                    detection := detection s ++ [r]; out := out s |}
  end.

Definition emit (e : event) : M state unit :=
  modify (λ s, {| track_info := track_info s; eye_frame := eye_frame s;
                  detection := detection s; out := out s ++ [e] |}).

(** What the functions call outside the repository: the file system, the
    date parser (a date as seconds), the checks the database makes when a
    row is inserted (duplicate keys, foreign keys, unknown attributes), and
    the pupil tracker, which returns the frame index and the measurements of
    every frame. *)
Class Env : Type := {
  glob : string → list string;
  parse_datetime : string → outcome Z;
  rejects : table → list row → row → option exn;
  track_without_svm : row → val → list val → outcome (list (val * row))
}.

(** [s.replace(a, b)] for one-character [a] and [b]. *)
Fixpoint replace_char (a b : ascii) (s : string) : string :=
  match s with
  | EmptyString => EmptyString
  | String c s' =>
      String (if Ascii.eqb c a then b else c) (replace_char a b s')
  end.

(** [path.replace(a, b)] on a fetched value: only strings have the method. *)
Definition val_replace (a b : ascii) (v : val) : outcome val :=
  match v with
  | VStr s => Ok (VStr (replace_char a b s))
  | _ => Raise AttributeError
  end.

(** [xs.index(x)] *)
Fixpoint index_of (x : string) (xs : list string) : outcome Z :=
  match xs with
  | [] => Raise ValueError
  | y :: ys =>
      if String.eqb y x then Ok 0
      else match index_of x ys with
           | Ok i => Ok (i + 1)
           | Raise e => Raise e
           end
  end.

(** [np.argmin]: the first position of the least element. *)
Fixpoint argmin_from (best_i best i : Z) (xs : list Z) : Z :=
  match xs with
  | [] => best_i
  | x :: xs' =>
      if x <? best then argmin_from i x (i + 1) xs'
      else argmin_from best_i best (i + 1) xs'
  end.

Definition argmin (xs : list Z) : outcome Z :=
  match xs with
  | [] => Raise ValueError
  | x :: xs' => Ok (argmin_from 0 x 1 xs')
  end.

Section MakeTuples.
Context `{EV : Env}.

(** [tbl.insert1(r)] *)
Definition insert1 (tbl : table) (r : row) : M state unit :=
  λ s, match rejects tbl (rows_of tbl s) r with
       | Some e => (Raise e, s)
       | None => (Ok tt, add_row tbl r s)
       end.

(** The date and time in a folder name ["<ymd>_<h-m-s>..."]. *)
Definition folder_time (name : string) : outcome Z :=
  match list_item (Str.split "_" name) 0, list_item (Str.split "_" name) 1 with
  | Ok ymd, Ok hms =>
      parse_datetime (ymd +:+ " " +:+ replace_char "-" ":" hms)
  | Raise e, _ | _, Raise e => Raise e
  end.

(** The body of the [for name in folders] loop: the distance in time of
    each folder to the scan file. *)
Fixpoint time_diffs (time_hdf5 : Z) (folders : list string)
  : outcome (list Z) :=
  match folders with
  | [] => Ok []
  | name :: rest =>
      match list_item (Str.split "/" name) 4 with
      | Raise e => Raise e
      | Ok folder =>
          match folder_time folder with
          | Raise e => Raise e
          | Ok time =>
              match time_diffs time_hdf5 rest with
              | Raise e => Raise e
              | Ok diffs => Ok (Z.abs (time_hdf5 - time) :: diffs)
              end
          end
      end
  end.

(** [TrackInfo._make_tuples(self, key)], with [scan] the contents of
    [aodpre.Scan()].  [words] is a local of the function (it is assigned
    further down), and the only assignment that preceded its first read is
    commented out in the source: its slot is empty at that read. *)
Definition TrackInfo_make_tuples (scan : list row) (key : row)
  : M state unit :=
  run emit (EvPrintKey key);
  do r <- lift (fetch1 (restrict_by scan key));
  do path <- lift (getitem r "hdf5_file");
  do _replaced <- lift (val_replace "\" "/" path);
  let words : option (list string) := None in
  do words_read <- load_local "words" words;
  do first <- lift (list_item words_read 0);
  let words := Str.split "/" first in
  do i <- lift (index_of "Mouse" words);
  do stamp <- lift (list_item words (i + 3));
  do time_hdf5 <- lift (folder_time stamp);
  do f1 <- lift (list_item words (i + 1));
  let folders := glob ("/m/Mouse/" +:+ f1 +:+ "/20*") in
  do time_diff <- lift (time_diffs time_hdf5 folders);
  do nearest <- lift (argmin (Z.abs <$> time_diff));
  do fo <- lift (list_item folders nearest);
  let avi_path := glob (fo +:+ "/*.avi") in
  if negb (length avi_path =? 1)%nat then raise AssertionError
  else
    do avi <- lift (list_item avi_path 0);
    let key := <["base_video_path" := VStr avi]> key in
    insert1 TrackInfo key.

(** [pd.notnull] on a fetched measurement. *)
Definition notnull (v : val) : bool :=
  match v with VNull => false | _ => true end.

(** The body of [for index, data in trace.iterrows()]. *)
Fixpoint insert_frames (key : row) (trace : list (val * row))
  : M state unit :=
  match trace with
  | [] => ret tt
  | (index, data) :: rest =>
      let key := <["frame" := index]> key in
      run insert1 EyeFrame key;
      do pupil_x <- lift (getitem data "pupil_x");
      run (if notnull pupil_x
           then let values := key ∪ data in insert1 Detection values
           else ret tt);
      insert_frames key rest
  end.

(** [EyeFrame._make_tuples(self, key)], with the contents of
    [ParamEyeFrame()], [TrackInfo()] and [Roi()]. *)
Definition EyeFrame_make_tuples (param_eye_frame track roi : list row)
    (key : row) : M state unit :=
  do param <- lift (list_item (restrict_eq param_eye_frame
                                 "pupil_tracker_param_id" 0) 0);
  do param_id <- lift (getitem param "pupil_tracker_param_id");
  let key := <["pupil_tracker_param_id" := param_id]> key in
  do track_row <- lift (fetch1 (restrict_by track key));
  do video_path <- lift (getitem track_row "base_video_path");
  do roi_row <- lift (fetch1 (restrict_by roi key));
  do x_min <- lift (getitem roi_row "x_roi_min");
  do y_min <- lift (getitem roi_row "y_roi_min");
  do x_max <- lift (getitem roi_row "x_roi_max");
  do y_max <- lift (getitem roi_row "y_roi_max");
  let eye_roi := [x_min; y_min; x_max; y_max] in
  let param := <["centre_dislocation_penalty" := VFloat (Decimal 1 (-3))]> param in
  let param := <["distance_sq_pow" := VInt 1]> param in
  run emit (EvTrack param video_path eye_roi);
  do trace <- lift (track_without_svm param video_path eye_roi);
  run emit (EvPrint "Tracking complete... Now inserting data to datajoint");
  insert_frames key trace.

(** A run of [EyeFrame._make_tuples] over one key after the other, with
    the tables it reads as they are at each call; the rows a failing call
    inserted before it failed are kept (a superset of what stays when the
    caller undoes a failed call). *)
Fixpoint make_all (calls : list (list row * list row * list row * row))
    (s : state) : state :=
  match calls with
  | [] => s
  | (param_eye_frame, track, roi, key) :: rest =>
      make_all rest (EyeFrame_make_tuples param_eye_frame track roi key s).2
  end.

(** The rows [ParamEyeFrame.contents] puts into the lookup table. *)
Definition ParamEyeFrame_contents : list row :=
  [ {[ "pupil_tracker_param_id" := VInt 0;
       "convex_weight_high" := VFloat (Decimal 5 (-1));
       "convex_weight_low" := VFloat (Decimal 5 (-1));
       "thres_perc_high" := VInt 99;
       "distance_sq_pow" := VInt 1;
       "thres_perc_low" := VInt 1;
       "pupil_left_limit" := VFloat (Decimal 2 (-1));
       "pupil_right_limit" := VFloat (Decimal 8 (-1));
       "min_radius" := VInt 5;
       "max_radius" := VInt 180;
       "centre_dislocation_penalty" := VFloat (Decimal 1 (-3)) ]};
    {[ "pupil_tracker_param_id" := VInt 1;
       "convex_weight_high" := VFloat (Decimal 75 (-2));
       "convex_weight_low" := VFloat (Decimal 25 (-2));
       "thres_perc_high" := VInt 97;
       "distance_sq_pow" := VFloat (Decimal 5 (-1));
       "thres_perc_low" := VInt 3;
       "pupil_left_limit" := VFloat (Decimal 2 (-1));
       "pupil_right_limit" := VFloat (Decimal 8 (-1));
       "min_radius" := VInt 5;
       "max_radius" := VInt 180;
       "centre_dislocation_penalty" := VFloat (Decimal 5 (-2)) ]} ].

End MakeTuples.

(** A row stored under the given parameter set. *)
Definition param_id_is (v : val) (r : row) : Prop :=
  r !! "pupil_tracker_param_id" = Some v.


(** The parameters a tracker is constructed with: row 0 of the lookup
    table with the two overrides. *)
Definition tracks_with_set_0 (param_eye_frame : list row) (e : event) : Prop :=
  ∀ param video_path eye_roi, e = EvTrack param video_path eye_roi →
    param !! "pupil_tracker_param_id" = Some (VInt 0) ∧
    param !! "centre_dislocation_penalty" = Some (VFloat (Decimal 1 (-3))) ∧
    param !! "distance_sq_pow" = Some (VInt 1) ∧
    ∃ row0, row0 ∈ param_eye_frame ∧
            row0 !! "pupil_tracker_param_id" = Some (VInt 0) ∧
            param = <["distance_sq_pow" := VInt 1]>
                      (<["centre_dislocation_penalty" := VFloat (Decimal 1 (-3))]>
                         row0).



(** What a call may have done to the state: rows added to EyeFrame and to
    EyeFrame.Detection, all of them satisfying [P], and events added to the
    output, all of them satisfying [Q]; TrackInfo untouched. *)
Definition grows (P : row → Prop) (Q : event → Prop) (s s' : state) : Prop :=
  ∃ frames dets evs,
    eye_frame s' = eye_frame s ++ frames ∧
    detection s' = detection s ++ dets ∧
    out s' = out s ++ evs ∧
    track_info s' = track_info s ∧
    Forall P frames ∧ Forall P dets ∧ Forall Q evs.

(** The rows that a pass over the whole trace inserts for a key: a row of
    EyeFrame for every frame, and a row of EyeFrame.Detection for the
    frames in which the tracker found the pupil. *)
Definition frame_rows (key : row) (trace : list (val * row)) : list row :=
  (λ p, <["frame" := p.1]> key) <$> trace.

Definition detection_rows (key : row) (trace : list (val * row)) : list row :=
  omap (λ p : val * row,
          match p.2 !! "pupil_x" with
          | Some v => if notnull v then Some (<["frame" := p.1]> key ∪ p.2)
                      else None
          | None => None
          end) trace.

(** Every detection extends a frame: it has the attributes of one of the
    frame rows, with the same values. *)
Definition detections_have_frames (frames dets : list row) : Prop :=
  ∀ d, d ∈ dets → ∃ f, f ∈ frames ∧ f ⊆ d.

(** *** [TrackInfo.get_frames] *)

(** OpenCV's video capture: [cv2.VideoCapture(path)], [cap.isOpened()] and
    [cap.read()], whose frame is [None] when nothing could be read. *)
Class Video : Type := {
  Capture : Type;
  Frame : Type;
  VideoCapture : val → Capture;
  isOpened : Capture → bool;
  read : Capture → option Frame * Capture
}.

Section GetFrames.
Context `{VD : Video}.

(** [while cap.isOpened(): fr_count += 1; ret, frame = cap.read();
    if fr_count == 1000: return frame], with the number of reads made.
    A loop that is left by its condition ends the function without a
    [return], that is with [None] for a frame.  The outer [None] is for
    fuel that did not suffice. *)
Fixpoint get_frames_loop (fuel : nat) (fr_count : Z) (cap : Capture)
    (reads : nat) : option (option Frame * nat) :=
  if isOpened cap then
    match fuel with
    | O => None
    | S fuel' =>
        let fr_count := fr_count + 1 in
        let '(frame, cap') := read cap in
        if fr_count =? 1000 then Some (frame, S reads)
        else get_frames_loop fuel' fr_count cap' (S reads)
    end
  else Some (None, reads).

(** [TrackInfo.get_frames(self, key)]; [self] is the relation the method
    is called on. *)
Definition get_frames (fuel : nat) (self : list row) (key : row)
  : option (outcome (option Frame) * nat) :=
  match r ← fetch1 (restrict_by self key); getitem r "base_video_path" with
  | Raise e => Some (Raise e, 0%nat)
  | Ok video_file =>
      match get_frames_loop fuel 0 (VideoCapture video_file) 0 with
      | Some (frame, reads) => Some (Ok frame, reads)
      | None => None
      end
  end.

End GetFrames.

End Aodtrk.


(** A concrete setting for the eye-tracking functions: one scan with its
    video and region of interest, a tracker that finds the pupil in the
    first of two frames, and a database that accepts every row. *)
Module AodtrkDemo.
Import Py Dj Aodtrk.

#[export] Instance demo_env : Env := {|
  glob := λ _, [];
  parse_datetime := λ _, Ok 0;
  rejects := λ _ _ _, None;
  track_without_svm := λ _ _ _,
    Ok [(VInt 0, {[ "pupil_x" := VInt 10; "pupil_y" := VInt 12 ]});
        (VInt 1, {[ "pupil_x" := VNull; "pupil_y" := VNull ]})]
|}.

Definition scan_key : row := {[ "mouse_id" := VInt 7; "scan_idx" := VInt 3 ]}.

Definition scan_table : list row :=
  [scan_key ∪ {[ "hdf5_file" := VStr "M:\Mouse\m7\2016-01-01_10-00-00\scan.h5" ]}].

Definition track_table : list row :=
  [scan_key ∪ {[ "base_video_path" := VStr "/m/Mouse/m7/eye.avi" ]}].

Definition roi_table : list row :=
  [scan_key ∪ {[ "x_roi_min" := VInt 1; "y_roi_min" := VInt 2;
                 "x_roi_max" := VInt 101; "y_roi_max" := VInt 102 ]}].

(** A candidate key that asks for parameter set 1. *)
Definition key_with_param_1 : row :=
  <["pupil_tracker_param_id" := VInt 1]> scan_key.

Definition empty : state :=
  {| track_info := []; eye_frame := []; detection := []; out := [] |}.

(** A video of three frames: the capture stays open after its end, and
    reading past the end gives no frame. *)
Definition short_video : Video := {|
  Capture := nat;
  Frame := nat;
  VideoCapture := λ _, 0%nat;
  isOpened := λ _, true;
  read := λ n, (if (n <? 3)%nat then Some n else None, S n)
|}.

(** A key for which no region of interest was drawn. *)
Definition other_key : row := {[ "mouse_id" := VInt 8; "scan_idx" := VInt 1 ]}.

Definition tracked : state :=
  (EyeFrame_make_tuples ParamEyeFrame_contents track_table roi_table
     scan_key empty).2.

End AodtrkDemo.


(** ** The Stage Registry and the Cascade Delete Manager

    [reso.py] overrides [delete] on a few tables and leaves the cascade
    itself to the framework's [delete], which the repository does not
    contain.  The cascade is therefore taken from the design document. *)

Module Cascade.
Import Dj.

(** Modelled from the spec: a Stage of the Stage Registry, which is missing
    from the sources (section 3: "Stage: id, key_schema, upstream ...;
    stages form a DAG").  Stages are registered one after the other and are
    referred to by their position in the registry; [upstream] holds the
    positions of the stages a stage depends on. *)
Record stage : Type := {
  name : string;
  key_schema : list string;
  upstream : list nat
}.

(** Modelled from the spec: the rule that makes the registry a DAG ("cycles
    are disallowed and must be rejected at registration"): a stage names as
    upstream only stages registered before it. *)
Definition well_registered (reg : list stage) : Prop :=
  Forall (λ p, Forall (λ T, (T < p.1)%nat) (upstream p.2))
         (zip (seq 0 (length reg)) reg).

#[global] Instance well_registered_dec reg : Decision (well_registered reg).
Proof. unfold well_registered. apply _. Defined.

(** Modelled from the spec: "stages reachable downstream" (section 4.4).
    [T] is reachable downstream of [S] when it is [S], or depends on a
    stage that is. *)
Inductive reaches (reg : list stage) (S : nat) : nat → Prop :=
| reaches_self : reaches reg S S
| reaches_down T U d :
    reaches reg S T → reg !! U = Some d → T ∈ upstream d → reaches reg S U.

(** Modelled from the spec: persisted state (section 6), one relation of
    rows per stage and the reservation records per stage, each record named
    by the key it reserves. *)
Record store : Type := {
  rows : nat → list row;
  jobs : nat → list row
}.

(** Modelled from the spec: a key that "restricts to" another (section
    4.4): on the attributes of [K] the key [k] has the values of [K]. *)
Definition restricts_to (k K : row) : Prop :=
  map_Forall (λ a v, k !! a = Some v) K.

#[global] Instance restricts_to_dec k K : Decision (restricts_to k K).
Proof. unfold restricts_to. apply _. Defined.

(** Modelled from the spec: the invariant deletion has to keep (section
    4.4: "no stage ever holds a row whose upstream key has been deleted"):
    every row restricts to a row of each stage upstream of its own. *)
Definition no_orphans (reg : list stage) (st : store) : Prop :=
  ∀ T d U t, reg !! T = Some d → U ∈ upstream d → t ∈ rows st T →
             ∃ u, u ∈ rows st U ∧ restricts_to t u.

(** Modelled from the spec: one pass over the registry in registration
    order, in which a stage joins the stages to delete from when one of its
    upstream stages is among them. *)
Definition join (reg : list stage) (acc : list nat) (T : nat) : list nat :=
  match reg !! T with
  | Some d =>
      if decide ((T ∉ acc) ∧ Exists (λ U, U ∈ acc) (upstream d))
      then acc ++ [T] else acc
  | None => acc
  end.

(** Modelled from the spec: "the topological order of stages reachable
    downstream from [stage]" (section 4.4), [S] first. *)
Definition affected (reg : list stage) (S : nat) : list nat :=
  foldl (join reg) [S] (seq 0 (length reg)).

(** Modelled from the spec: a list of stages in registration order, which
    is a topological order of a well-registered registry. *)
Definition ascending (l : list nat) : Prop :=
  ∀ i j x y, l !! i = Some x → l !! j = Some y → (i < j)%nat → (x < y)%nat.

(** Modelled from the spec: deleting from one stage the rows and the
    reservation records that satisfy [doomed] (section 4.4: "delete rows
    ... and their reservation records"). *)
Definition delete_where (doomed : row → Prop) `{∀ r, Decision (doomed r)}
    (T : nat) (st : store) : store :=
  {| rows := λ U, if decide (U = T)
                  then filter (λ r, ¬ doomed r) (rows st U) else rows st U;
     jobs := λ U, if decide (U = T)
                  then filter (λ r, ¬ doomed r) (jobs st U) else jobs st U |}.

(** Modelled from the spec: what goes from stage [T] when [deleted] are the
    rows deleted from [S]: in [S] the rows that satisfy the key predicate
    [K], in a descendant the
    rows "whose key restricts to a deleted upstream key". *)
Definition doomed_in (S : nat) (K : row) (deleted : list row) (T : nat)
    (r : row) : Prop :=
  if decide (T = S) then restricts_to r K
  else Exists (restricts_to r) deleted.

#[global] Instance doomed_in_dec S K deleted T r :
  Decision (doomed_in S K deleted T r).
Proof. unfold doomed_in. destruct (decide (T = S)); apply _. Defined.

(** Modelled from the spec: [delete(stage, key_predicate)] of the Cascade
    Delete Manager (section 4.4): the descendants are deleted from first,
    leaf-most first, then the stages closer to [S], and [S] itself last.
    The result is the store and the stages in the order they were deleted
    from. *)
Definition cascade_delete (reg : list stage) (S : nat) (K : row)
    (st : store) : store * list nat :=
  let deleted := filter (λ r, restricts_to r K) (rows st S) in
  let order := reverse (affected reg S) in
  (foldl (λ st T, delete_where (doomed_in S K deleted T) T st) st order,
   order).

End Cascade.

(** Stage A, stage B that depends on A, stage C that depends on B; scans 1
    and 2 are done in A, scan 1 also in B (for two slices) and in C. *)
Module CascadeDemo.
Import Dj Cascade.

Definition abc : list stage :=
  [ {| name := "A"; key_schema := ["scan"]; upstream := [] |};
    {| name := "B"; key_schema := ["scan"; "slice"]; upstream := [0%nat] |};
    {| name := "C"; key_schema := ["scan"; "slice"]; upstream := [1%nat] |} ].

Definition scan (n : Z) : row := {[ "scan" := VInt n ]}.

Definition scan_slice (n s : Z) : row :=
  {[ "scan" := VInt n; "slice" := VInt s ]}.

Definition abc_rows (T : nat) : list row :=
  match T with
  | 0%nat => [scan 1; scan 2]
  | 1%nat => [scan_slice 1 1; scan_slice 1 2]
  | 2%nat => [scan_slice 1 1]
  | _ => []
  end.

Definition abc_store : store := {| rows := abc_rows; jobs := abc_rows |}.

End CascadeDemo.

(** ** The Job Reservation Store and the Populate Executor

    The worker asks for reservation ([populate(reserve_jobs=True)]); the
    store of reservations and the executor that uses it are the
    framework's.  They are taken from the design document, and the workers
    of section 5 are run as interleavings of their atomic steps. *)

Module Reservation.

(** Modelled from the spec: the status of a Reservation Record, which is
    missing from the sources (section 3: "status ∈ {reserved, done, error}
    ... error_detail (if error)"). *)
Inductive status : Type :=
| Reserved
| Done
| Error (detail : string).

#[global] Instance status_eq_dec : EqDecision status.
Proof. solve_decision. Defined.

(** Modelled from the spec: the Reservation Record of a job, a (stage, key)
    pair, with the worker that owns it.  The timestamps of the record are
    left out: the window after which a stale reservation may be reclaimed is
    an open question of the design, and no step below reads them. *)
Record record : Type := { state_of : status; owner : nat }.

#[global] Instance record_eq_dec : EqDecision record.
Proof. solve_decision. Defined.

Section Workers.
Context {Job : Type} `{EqDecision Job}.
(** Modelled from the spec: the policy of a stage for a job whose last
    attempt failed (section 4.2: available when "in error state and
    retryable by policy"). *)
Variable retryable : Job → bool.

(** Modelled from the spec: where a worker is in the executor's treatment
    of a key (section 4.3): between keys;
    computing a key it has reserved; having committed the result, before
    [mark_done]. *)
Inductive activity : Type :=
| Idle
| Computing (j : Job)
| Committed (j : Job).

(** Modelled from the spec: what the workers share (section 5: "the
    reservation table and stage tables are the only shared mutable
    resources"), with every commit ever made in the order made, and what
    each worker is doing. *)
Record world : Type := {
  reservations : Job → option record;
  commits : list Job;
  doing : nat → activity
}.

(** Modelled from the spec: no reservation, no commit, every worker
    between keys. *)
Definition initial : world :=
  {| reservations := λ _, None; commits := []; doing := λ _, Idle |}.

(** Modelled from the spec: writing the record of one job. *)
Definition set_record (j : Job) (r : record) (f : Job → option record)
  : Job → option record :=
  λ j', if decide (j' = j) then Some r else f j'.

(** Modelled from the spec: moving one worker on. *)
Definition set_doing (w : nat) (a : activity) (f : nat → activity)
  : nat → activity :=
  λ w', if decide (w' = w) then a else f w'.

(** Modelled from the spec: a job can be reserved when it has no record, or
    an error record that the stage lets be tried again (section 4.2). *)
Definition available (s : world) (j : Job) : bool :=
  match reservations s j with
  | None => true
  | Some {| state_of := Error _ |} => retryable j
  | Some _ => false
  end.

(** Modelled from the spec: [try_reserve(stage, key, owner)] (section 4.2),
    one atomic conditional write: [true] is success, [false] is conflict,
    on which nothing is changed. *)
Definition try_reserve (w : nat) (j : Job) (s : world) : bool * world :=
  if available s j
  then (true, {| reservations := set_record j {| state_of := Reserved; owner := w |}
                                   (reservations s);
                 commits := commits s;
                 doing := set_doing w (Computing j) (doing s) |})
  else (false, s).

(** Modelled from the spec: the atomic steps of a worker (sections 4.2 and
    4.3). *)
Inductive action : Type :=
| TryReserve (w : nat) (j : Job)
| Commit (w : nat)
| MarkDone (w : nat)
| MarkError (w : nat) (detail : string).

(** Modelled from the spec: one step of the Populate Executor (section
    4.3) by one worker: reserve a key when between keys (on conflict, skip);
    after a successful compute, commit the result in one atomic operation,
    then [mark_done]; after a failed compute or a rejected commit,
    [mark_error].  A step the worker is not at does nothing. *)
Definition step (a : action) (s : world) : world :=
  match a with
  | TryReserve w j =>
      match doing s w with
      | Idle => (try_reserve w j s).2
      | _ => s
      end
  | Commit w =>
      match doing s w with
      | Computing j =>
          {| reservations := reservations s;
             commits := commits s ++ [j];
             doing := set_doing w (Committed j) (doing s) |}
      | _ => s
      end
  | MarkDone w =>
      match doing s w with
      | Committed j =>
          {| reservations := set_record j {| state_of := Done; owner := w |}
                               (reservations s);
             commits := commits s;
             doing := set_doing w Idle (doing s) |}
      | _ => s
      end
  | MarkError w detail =>
      match doing s w with
      | Computing j =>
          {| reservations := set_record j {| state_of := Error detail; owner := w |}
                               (reservations s);
             commits := commits s;
             doing := set_doing w Idle (doing s) |}
      | _ => s
      end
  end.

(** Modelled from the spec: any number of workers, their steps interleaved
    in any order (section 5). *)
Definition run_schedule (schedule : list action) (s : world) : world :=
  foldl (λ s a, step a s) s schedule.

(** Modelled from the spec: the number of commits ever made for a job. *)
Definition commits_of (j : Job) (s : world) : nat :=
  length (filter (λ j', j' = j) (commits s)).

(** Modelled from the spec: what the steps keep true: a worker that is
    busy with a job owns its
    reservation; a job that was committed was committed once, and is done
    or about to be marked done by its owner; a job that was not committed
    is not done. *)
Definition consistent (s : world) : Prop :=
  ∀ j,
    (∀ w, doing s w = Computing j ∨ doing s w = Committed j →
          reservations s j = Some {| state_of := Reserved; owner := w |}) ∧
    (commits_of j s ≤ 1)%nat ∧
    (commits_of j s = 1%nat →
       ∃ w, reservations s j = Some {| state_of := Done; owner := w |} ∨
            (reservations s j = Some {| state_of := Reserved; owner := w |} ∧
             doing s w = Committed j)) ∧
    (commits_of j s = 0%nat →
       ∀ w, reservations s j ≠ Some {| state_of := Done; owner := w |} ∧
            doing s w ≠ Committed j).

End Workers.

End Reservation.

(** Scenario 3 of the design document: two workers after the key of scan 1
    in stage B. *)
Module ReservationDemo.
Import Reservation.

Definition scan_1_of_B : string * Z := ("B", 1).

Definition never (_ : string * Z) : bool := false.

(** Both workers try to reserve; both then try to commit and to finish,
    and worker 2 tries again after worker 1 is done. *)
Definition race : list (action (Job := string * Z)) :=
  [ TryReserve 1 scan_1_of_B; TryReserve 2 scan_1_of_B;
    Commit 1; Commit 2; MarkDone 2; MarkDone 1;
    TryReserve 2 scan_1_of_B; Commit 2; MarkDone 2 ].

End ReservationDemo.

(** * Part II: statements and proofs *)

(** ** The worker *)

Module WorkerFacts.
Import Py Worker.

Section Resolution.
Context `{RT : Runtime}.

Lemma resolve_one_cases relname s :
  (∃ rel, resolve_one relname s = (Ok (inr rel), s) ∧ resolves relname) ∨
  (¬ resolves relname ∧
   ∃ o words, resolve_one relname s
              = (o, {| world := world s; log := log s ++ words |}) ∧
              (o = Ok (inl 1) ∨ raised o) ∧
              Forall (λ e, is_stage_call e = false) words).
Proof.
  unfold resolve_one, bind, lift, try_except, print, emit, modify, ret.
  destruct (unpack2 (Str.rsplit1 "." relname)) as [[p m]|e] eqn:Hsplit.
  - assert (Hpm : Str.rsplit1 "." relname = [p; m]).
    { unfold unpack2 in Hsplit.
      destruct (Str.rsplit1 "." relname) as [|a [|b [|c l]]]; congruence. }
    destruct (import_module p) as [mod_|e] eqn:Himp.
    + destruct (getattr mod_ m) as [rel|e] eqn:Hget.
      * left. exists rel. split; [done|]. by exists p, m, mod_, rel.
      * right. split.
        { intros (p' & m' & mod' & rel' & H1 & H2 & H3). congruence. }
        destruct (isinstance_AttributeError e).
        -- eexists _, _. split; [done|]. split; [by left|].
           by repeat constructor.
        -- exists (Raise e), []. rewrite app_nil_r. destruct s; simpl.
           split; [done|]. split; [by right|]. constructor.
    + right. split.
      { intros (p' & m' & mod' & rel' & H1 & H2 & H3). congruence. }
      destruct (isinstance_ImportError e).
      * eexists _, _. split; [done|]. split; [by left|].
        by repeat constructor.
      * exists (Raise e), []. rewrite app_nil_r. destruct s; simpl.
        split; [done|]. split; [by right|]. constructor.
  - right. split.
    { intros (p' & m' & mod' & rel' & H1 & H2 & H3).
      rewrite H1 in Hsplit. discriminate. }
    exists (Raise e), []. rewrite app_nil_r. destruct s; simpl.
    split; [done|]. split; [by right|]. constructor.
Qed.

(** A name that does not resolve ends the first loop: with [return 1] or
    with an exception, and with nothing but prints done. *)
Lemma resolve_unresolved ns d s :
  Exists (λ n, ¬ resolves n) ns →
  ∃ o words, resolve ns d s
             = (o, {| world := world s; log := log s ++ words |}) ∧
             (o = Ok (inl 1) ∨ raised o) ∧
             Forall (λ e, is_stage_call e = false) words.
Proof.
  revert d. induction ns as [|n ns IH]; intros d Hex.
  - inversion Hex.
  - simpl. unfold bind at 1.
    destruct (resolve_one_cases n s) as [(rel & -> & Hres)|(Hnres & o & w & -> & Ho & Hw)].
    + apply IH. inversion Hex; subst; [contradiction|done].
    + destruct Ho as [->|Hr].
      * exists (Ok (inl 1)), w. split; [done|]. split; [by left|done].
      * destruct o as [|e]; [destruct Hr|].
        exists (Raise e), w. split; [done|]. split; [by right|done].
Qed.

(** When every name resolves the first loop returns the dict and has
    done nothing observable. *)
Lemma resolve_resolved ns d s :
  Forall resolves ns → ∃ rels, resolve ns d s = (Ok (inr rels), s).
Proof.
  revert d. induction ns as [|n ns IH]; intros d Hall.
  - by exists d.
  - simpl. unfold bind at 1. inversion Hall as [|? ? Hn Hns]; subst.
    destruct (resolve_one_cases n s) as [(rel & -> & _)|(Hnres & _)].
    + by apply IH.
    + contradiction.
Qed.

End Resolution.

Section Polling.
Context `{RT : Runtime}.

(** Polling the stages never sleeps: it adds progress and populate calls. *)
Lemma poll_stages_adds rels populated s o s' :
  poll_stages rels populated s = (o, s') →
  ∃ evs, adds s s' evs ∧ Forall (λ e, is_sleep e = false) evs.
Proof.
  revert populated s. induction rels as [|[name rel] rels IH]; intros populated s.
  - simpl. intros [= <- <-]. exists []. split; [|constructor].
    unfold adds. by rewrite app_nil_r.
  - simpl. unfold bind, emit, modify, call, ret. simpl.
    destruct (progress rel (world s)) as [[[todo done_]|e] w] eqn:Hpr.
    + destruct (0 <? todo).
      * simpl. destruct (populate rel w) as [[[]|e] w'] eqn:Hpop.
        -- intros H. apply IH in H as (evs & Hevs & Hns). unfold adds in *. simpl in Hevs.
           exists (EvProgress name :: EvPopulate name :: evs). split.
           ++ rewrite Hevs. by rewrite <- !app_assoc.
           ++ by repeat constructor.
        -- intros [= <- <-]. exists [EvProgress name; EvPopulate name]. split.
           ++ unfold adds. simpl. by rewrite <- app_assoc.
           ++ by repeat constructor.
      * intros H. apply IH in H as (evs & Hevs & Hns). unfold adds in *. simpl in Hevs.
        exists (EvProgress name :: evs). split.
        -- rewrite Hevs. by rewrite <- app_assoc.
        -- by constructor.
    + intros [= <- <-]. exists [EvProgress name]. split; [done|by repeat constructor].
Qed.

(** What [randint] returns lies in the half-open range. *)
Lemma randint_range low high s d s' :
  randint low high s = (Ok d, s') →
  low ≤ d < high ∧ log s' = log s ∧ - 2 ^ 63 ≤ low ∧ high ≤ 2 ^ 63.
Proof.
  unfold randint.
  destruct ((low <? - 2 ^ 63) || (2 ^ 63 <? high) || (high <=? low)) eqn:Hb.
  - discriminate.
  - apply orb_false_elim in Hb as [Hb H3]. apply orb_false_elim in Hb as [H1 H2].
    apply Z.ltb_ge in H1, H2. apply Z.leb_gt in H3.
    unfold bind, call, ret. destruct (entropy (world s)) as [r w'] eqn:He.
    intros [= <- <-]. simpl.
    pose proof (Z.mod_pos_bound r (high - low) ltac:(lia)).
    repeat split; try done; lia.
Qed.

(** Every value of the half-open range is returned for some draw. *)
Lemma randint_onto low high s d :
  - 2 ^ 63 ≤ low → high ≤ 2 ^ 63 → low ≤ d < high →
  fst (entropy (world s)) = d - low →
  fst (randint low high s) = Ok d.
Proof.
  intros H1 H2 H3 He. unfold randint.
  destruct ((low <? - 2 ^ 63) || (2 ^ 63 <? high) || (high <=? low)) eqn:Hb.
  - apply orb_true_iff in Hb as [Hb|Hb]; [apply orb_true_iff in Hb as [Hb|Hb]|]; lia.
  - unfold bind, call, ret. destruct (entropy (world s)) as [r w'] eqn:Hent.
    simpl in *. subst r. f_equal. rewrite Z.mod_small; lia.
Qed.

(** An empty range draws nothing: [randint] raises. *)
Lemma randint_empty low high s :
  high ≤ low → randint low high s = (Raise ValueError, s).
Proof.
  intros H. unfold randint.
  replace (high <=? low) with true by (symmetry; by apply Z.leb_le).
  by rewrite orb_true_r.
Qed.

(** One pass of the loop body: whatever it does, a sleep it performs is
    [t_min ≤ d < t_max]. *)
Lemma cycle_adds args rels run_daemon s o s' :
  cycle args rels run_daemon s = (o, s') →
  ∃ evs, adds s s' evs ∧
         Forall (λ e, ∀ d, e = EvSleep d → t_min args ≤ d < t_max args) evs.
Proof.
  unfold cycle, bind.
  destruct (poll_stages rels false s) as [[populated|e] s1] eqn:Hpoll;
    apply poll_stages_adds in Hpoll as (evs & Hevs & Hns).
  - assert (Hevs' : Forall (λ e, ∀ d, e = EvSleep d → t_min args ≤ d < t_max args) evs).
    { eapply Forall_impl; [exact Hns|]. intros e He d ->. discriminate. }
    destruct (run_daemon && negb populated).
    + destruct (randint (t_min args) (t_max args) s1) as [[d|e] s2] eqn:Hr.
      * apply randint_range in Hr as (Hd & Hlog & _).
        unfold sleep. destruct (d <? 0); [|destruct (sleep_limit <? d)].
        -- intros [= <- <-]. exists evs. split; [|done]. unfold adds in *. congruence.
        -- intros [= <- <-]. exists evs. split; [|done]. unfold adds in *. congruence.
        -- unfold emit, modify. intros [= <- <-]. exists (evs ++ [EvSleep d]). split.
           ++ unfold adds in *. simpl. rewrite Hlog, Hevs. by rewrite app_assoc.
           ++ apply Forall_app. split; [done|]. constructor; [|constructor].
              by intros d' [= <-].
      * intros [= <- <-]. exists evs. split; [|done].
        unfold randint in Hr.
        destruct ((t_min args <? - 2 ^ 63) || (2 ^ 63 <? t_max args) || (t_max args <=? t_min args)).
        -- injection Hr as _ <-. done.
        -- unfold bind, call, ret in Hr. destruct (entropy (world s1)). discriminate.
    + intros [= <- <-]. by exists evs.
  - intros [= <- <-]. exists evs. split; [done|].
    eapply Forall_impl; [exact Hns|]. intros e' He d ->. discriminate.
Qed.

(** Every sleep of every run, of any length, is [t_min ≤ d < t_max]. *)
Lemma daemon_loop_sleeps fuel args rels run_daemon s o s' :
  daemon_loop fuel args rels run_daemon s = (o, s') →
  ∃ evs, adds s s' evs ∧
         Forall (λ e, ∀ d, e = EvSleep d → t_min args ≤ d < t_max args) evs.
Proof.
  revert run_daemon s. induction fuel as [|fuel IH]; intros run_daemon s.
  - simpl. destruct run_daemon; intros [= <- <-]; exists [];
      (split; [unfold adds; by rewrite app_nil_r|constructor]).
  - simpl. destruct run_daemon.
    + destruct (cycle args rels true s) as [[[]|e] s1] eqn:Hc;
        apply cycle_adds in Hc as (evs & Hevs & Hok).
      * intros H. apply IH in H as (evs' & Hevs' & Hok').
        exists (evs ++ evs'). split.
        -- unfold adds in *. rewrite Hevs', Hevs. by rewrite app_assoc.
        -- by apply Forall_app.
      * intros [= <- <-]. by exists evs.
    + intros [= <- <-]. exists [].
      split; [unfold adds; by rewrite app_nil_r|constructor].
Qed.

(** Without [--daemon] the loop body runs once. *)
Lemma single_pass_one_cycle fuel args rels s :
  daemon args = false →
  daemon_loop (S fuel) args rels true s
  = match cycle args rels true s with
    | (Ok _, s') => (Some (Ok 0), s')
    | (Raise e, s') => (Some (Raise e), s')
    end.
Proof.
  intros Hd. simpl. rewrite Hd.
  destruct (cycle args rels true s) as [[[]|e] s']; [|done].
  by destruct fuel.
Qed.

End Polling.

Section Claims.
Context `{RT : Runtime}.

(** A pass in which no stage had work ends in one sleep, of a duration
    drawn from the half-open range. *)
Lemma idle_cycle_sleeps args rels s s1 :
  poll_stages rels false s = (Ok false, s1) →
  0 ≤ t_min args → t_min args < t_max args →
  t_max args ≤ 2 ^ 63 → t_max args - 1 ≤ sleep_limit →
  ∃ d s', cycle args rels true s = (Ok tt, s') ∧
          log s' = log s1 ++ [EvSleep d] ∧
          t_min args ≤ d ≤ t_max args - 1.
Proof.
  intros Hpoll Hmin Hlt Hmax Hlim.
  unfold cycle, bind. rewrite Hpoll. simpl.
  destruct (randint (t_min args) (t_max args) s1) as [[d|e] s2] eqn:Hr.
  - apply randint_range in Hr as (Hd & Hlog & _).
    exists d. unfold sleep.
    replace (d <? 0) with false by (symmetry; apply Z.ltb_ge; lia).
    replace (sleep_limit <? d) with false by (symmetry; apply Z.ltb_ge; lia).
    eexists. split; [done|]. simpl. rewrite Hlog.
    split; [done|]. lia.
  - exfalso. unfold randint in Hr.
    replace (t_min args <? - 2 ^ 63) with false in Hr by (symmetry; apply Z.ltb_ge; lia).
    replace (2 ^ 63 <? t_max args) with false in Hr by (symmetry; apply Z.ltb_ge; lia).
    replace (t_max args <=? t_min args) with false in Hr by (symmetry; apply Z.leb_gt; lia).
    simpl in Hr. unfold bind, call, ret in Hr.
    destruct (entropy (world s1)). discriminate.
Qed.

(** Where the range is not empty ([0 ≤ t_min < t_max ≤ 2 ^ 63], and the
    clock accepts [t_max - 1] seconds), a pass of the loop in which no stage
    had work sleeps a whole number of seconds [d] with
    [t_min ≤ d ≤ t_max - 1]: [np.random.randint(t_min, t_max)] never draws
    [t_max] itself.  With [t_min = 5] and [t_max = 6] every sleep is
    5 seconds. *)
Theorem idle_cycle_sleeps_in_half_open_range args rels s s1 :
  poll_stages rels false s = (Ok false, s1) →
  0 ≤ t_min args → t_min args < t_max args →
  t_max args ≤ 2 ^ 63 → t_max args - 1 ≤ sleep_limit →
  ∃ d s', cycle args rels true s = (Ok tt, s') ∧
          log s' = log s1 ++ [EvSleep d] ∧
          t_min args ≤ d ≤ t_max args - 1 ∧
          (t_min args = 5 → t_max args = 6 → d = 5).
Proof.
  intros Hpoll Hmin Hlt Hmax Hlim.
  destruct (idle_cycle_sleeps args rels s s1) as (d & s' & Hc & Hlog & Hd);
    try done.
  exists d, s'. repeat split; try done; lia.
Qed.

(** C8.  A name that cannot be resolved (no dot in it, a module that
    cannot be imported, a class the module does not have) makes the script
    exit with status 1 before any stage is asked for its progress or
    populated; when every name resolves and [--daemon] is not given, a run
    that does not raise ends after one pass with status 0. *)
Theorem unresolved_name_exits_1_single_pass_exits_0 args fuel s :
  (Exists (λ n, ¬ resolves n) (names args) →
   ∃ o words,
     main fuel args s
     = (Some o, {| world := world s; log := log s ++ words |}) ∧
     exit_code o = 1 ∧ Forall (λ e, is_stage_call e = false) words) ∧
  (Forall resolves (names args) → daemon args = false →
   ∃ o s', main (S fuel) args s = (Some o, s') ∧
           (¬ raised o → o = Ok 0 ∧ exit_code o = 0)).
Proof.
  split.
  - intros Hex. unfold main.
    destruct (resolve_unresolved (names args) [] s Hex) as (o & words & -> & Ho & Hw).
    destruct Ho as [->|Hr].
    + by exists (Ok 1), words.
    + destruct o as [|e]; [destruct Hr|]. by exists (Raise e), words.
  - intros Hall Hd. unfold main.
    destruct (resolve_resolved (names args) [] s Hall) as (rels & ->).
    rewrite single_pass_one_cycle by done.
    destruct (cycle args rels true s) as [[[]|e] s'].
    + by exists (Ok 0), s'.
    + exists (Raise e), s'. split; [done|]. intros Hn. by destruct Hn.
Qed.

(** Without [--daemon], a pass in which no stage had work still sleeps
    before the worker returns 0: [run_daemon] is still [True] when the
    sleep is decided. *)
Lemma single_pass_idle_still_sleeps args fuel s rels s1 :
  daemon args = false →
  resolve (names args) [] s = (Ok (inr rels), s) →
  poll_stages rels false s = (Ok false, s1) →
  0 ≤ t_min args → t_min args < t_max args →
  t_max args ≤ 2 ^ 63 → t_max args - 1 ≤ sleep_limit →
  ∃ d s', main (S fuel) args s = (Some (Ok 0), s') ∧
          log s' = log s1 ++ [EvSleep d] ∧ t_min args ≤ d < t_max args.
Proof.
  intros Hd Hres Hpoll Hmin Hlt Hmax Hlim. unfold main. rewrite Hres.
  rewrite single_pass_one_cycle by done.
  destruct (idle_cycle_sleeps args rels s s1)
    as (d & s' & -> & Hlog & Hrange); try done.
  exists d, s'. split; [done|]. split; [done|lia].
Qed.

(** A failure of [populate] leaves [main]: the stages after the failing
    one are not polled in that pass, and no later pass takes place. *)
Lemma populate_failure_leaves_main fuel args name rel rest e s w w' todo done_ :
  progress rel (world s) = (Ok (todo, done_), w) → 0 < todo →
  populate rel w = (Raise e, w') →
  daemon_loop (S fuel) args ((name, rel) :: rest) true s
  = (Some (Raise e),
     {| world := w'; log := log s ++ [EvProgress name; EvPopulate name] |}).
Proof.
  intros Hpr Htodo Hpop. simpl. unfold cycle, bind. simpl.
  unfold bind, emit, modify, call. simpl. rewrite Hpr.
  replace (0 <? todo) with true by (symmetry; by apply Z.ltb_lt).
  simpl. rewrite Hpop. by rewrite <- app_assoc.
Qed.

End Claims.

Import WorkerDemo.

Lemma names_misspelt :
  names misspelt
  = ["pipeline.reso.ScanInfo"; "pipeline.reso.RasterCorection"].
Proof. vm_compute. reflexivity. Qed.

Lemma names_single_pass : names single_pass = ["pipeline.reso.ScanInfo"].
Proof. vm_compute. reflexivity. Qed.

Lemma misspelt_does_not_resolve :
  Exists (λ n, ¬ resolves n) (names misspelt).
Proof.
  rewrite names_misspelt. apply Exists_cons_tl, Exists_cons_hd.
  intros (p & m & mod_ & rel & H1 & H2 & H3).
  vm_compute in H1. injection H1 as <- <-.
  vm_compute in H2. injection H2 as <-.
  vm_compute in H3. discriminate.
Qed.

Lemma single_pass_resolves : Forall resolves (names single_pass).
Proof.
  rewrite names_single_pass. constructor; [|constructor].
  exists "pipeline.reso", "ScanInfo", "pipeline.reso", "ScanInfo".
  split; [vm_compute; reflexivity|]. split; vm_compute; reflexivity.
Qed.

Lemma unresolved_name_exits_1_single_pass_exits_0_witness :
  (∃ o words,
     main 3 misspelt (start 7 2)
     = (Some o, {| world := (7, 2); log := words |}) ∧
     exit_code o = 1 ∧ Forall (λ e, is_stage_call e = false) words) ∧
  (∃ o s', main 1 single_pass (start 7 2) = (Some o, s') ∧
           (¬ raised o → o = Ok 0 ∧ exit_code o = 0)).
Proof.
  split.
  - apply (proj1 (unresolved_name_exits_1_single_pass_exits_0 misspelt 3 (start 7 2))).
    exact misspelt_does_not_resolve.
  - apply (proj2 (unresolved_name_exits_1_single_pass_exits_0 single_pass 0 (start 7 2))).
    + exact single_pass_resolves.
    + reflexivity.
Defined.

Lemma idle_cycle_sleeps_in_half_open_range_witness :
  ∃ d s', cycle daemon_5_6
            [("pipeline.reso.ScanInfo", "ScanInfo");
             ("pipeline.reso.RasterCorrection", "RasterCorrection")]
            true (start 7 0) = (Ok tt, s') ∧
          log s' = [EvProgress "pipeline.reso.ScanInfo";
                    EvProgress "pipeline.reso.RasterCorrection"]
                   ++ [EvSleep d] ∧
          5 ≤ d ≤ 6 - 1 ∧ (5 = 5 → 6 = 6 → d = 5).
Proof.
  apply (idle_cycle_sleeps_in_half_open_range (RT:=demo_runtime)
           daemon_5_6 _ (start 7 0) (polled 7)).
  - reflexivity.
  - simpl; lia.
  - simpl; lia.
  - simpl; lia.
  - simpl; lia.
Defined.

(** C5 at a failing input: [--daemon --t_min 5 --t_max 5] and two stages
    with nothing to do.  The claim has the daemon sleep exactly 5 seconds
    between polls; in the code [np.random.randint(5, 5)] is asked to draw
    from the empty range [5, 5) and raises ValueError, which nothing
    catches: the worker ends in its first pass, having asked each stage for
    its progress once, and whatever the number of passes it is allowed it
    never sleeps. *)
Lemma daemon_5_5_never_sleeps :
  main 3 daemon_5_5 (start 7 0)
  = (Some (Raise ValueError),
     {| world := (7, 0);
        log := [EvProgress "pipeline.reso.ScanInfo";
                EvProgress "pipeline.reso.RasterCorrection"] |}) ∧
  (∀ fuel, ∃ s', main (S fuel) daemon_5_5 (start 7 0)
                 = (Some (Raise ValueError), s') ∧
                 Forall (λ e, is_sleep e = false) (log s')).
Proof.
  split; [reflexivity|].
  intros fuel. eexists. split; [reflexivity|]. by repeat constructor.
Qed.

(** C6 at a failing input: no [--daemon], one stage with nothing to do.
    The worker returns 0 after one pass, and has slept 307 seconds in it. *)
Lemma single_pass_idle_sleeps :
  main 1 single_pass (start 7 0)
  = (Some (Ok 0),
     {| world := (8, 0);
        log := [EvProgress "pipeline.reso.ScanInfo"; EvSleep 307] |}).
Proof. reflexivity. Qed.

End WorkerFacts.

(** ** More on the worker: names, passes, and how a run ends *)

Module WorkerMore.
Import Py Worker WorkerFacts.

(** *** Cutting a name at its last dot *)

Lemma rbreak_None sep cs : Str.rbreak sep cs = None → sep ∉ cs.
Proof.
  induction cs as [|c cs IH]; simpl.
  - intros _. apply not_elem_of_nil.
  - destruct (Str.rbreak sep cs) as [[a b]|]; [done|].
    destruct (Ascii.eqb c sep) eqn:Hc; [done|]. intros _.
    apply Ascii.eqb_neq in Hc. rewrite elem_of_cons. intros [->|H]; [done|].
    by apply IH.
Qed.

Lemma rbreak_Some sep cs a b :
  Str.rbreak sep cs = Some (a, b) → cs = a ++ sep :: b ∧ sep ∉ b.
Proof.
  revert a. induction cs as [|c cs IH]; simpl; intros a; [done|].
  destruct (Str.rbreak sep cs) as [[a' b']|] eqn:Hr.
  - intros [= <- <-]. destruct (IH a' eq_refl) as [-> Hb]. done.
  - destruct (Ascii.eqb c sep) eqn:Hc; [|done]. intros [= <- <-].
    apply Ascii.eqb_eq in Hc as ->. split; [done|]. by apply rbreak_None.
Qed.

Lemma rbreak_no_sep sep cs : sep ∉ cs → Str.rbreak sep cs = None.
Proof.
  intros H. destruct (Str.rbreak sep cs) as [[a b]|] eqn:Hr; [|done].
  apply rbreak_Some in Hr as [-> _]. exfalso. apply H.
  apply elem_of_app. right. apply elem_of_cons. by left.
Qed.

Lemma of_list_app a b : Str.of_list (a ++ b) = Str.of_list a +:+ Str.of_list b.
Proof. induction a as [|c a IH]; simpl; [done|]. by rewrite IH. Qed.

Lemma to_list_of_list cs : Str.to_list (Str.of_list cs) = cs.
Proof. induction cs as [|c cs IH]; simpl; [done|]. by rewrite IH. Qed.

Lemma of_list_to_list s : Str.of_list (Str.to_list s) = s.
Proof. induction s as [|c s IH]; simpl; [done|]. by rewrite IH. Qed.

Section Names.
Context `{RT : Runtime}.

(** X1.  A name that resolves is a module path, a dot and a class name
    without a dot: the name is cut at its last dot, the part before it is
    what is imported and the part after it is the attribute looked up in
    the module. *)
Theorem resolved_name_is_cut_at_last_dot relname :
  resolves relname →
  ∃ p m mod_ rel,
    relname = p +:+ "." +:+ m ∧ ("."%char ∉ Str.to_list m) ∧
    import_module p = Ok mod_ ∧ getattr mod_ m = Ok rel.
Proof.
  intros (p & m & mod_ & rel & Hsplit & Himp & Hget).
  exists p, m, mod_, rel. unfold Str.rsplit1 in Hsplit.
  destruct (Str.rbreak "." (Str.to_list relname)) as [[a b]|] eqn:Hr; [|done].
  injection Hsplit as <- <-. apply rbreak_Some in Hr as [Hcs Hb].
  split; [|split; [by rewrite to_list_of_list|done]].
  rewrite <- (of_list_to_list relname), Hcs, of_list_app. done.
Qed.

Lemma resolve_one_no_dot relname s :
  "."%char ∉ Str.to_list relname →
  resolve_one relname s = (Raise ValueError, s).
Proof.
  intros H. unfold resolve_one, Str.rsplit1. by rewrite rbreak_no_sep.
Qed.

Lemma resolve_app pre rest d s :
  Forall resolves pre →
  ∃ d', resolve (pre ++ rest) d s = resolve rest d' s.
Proof.
  revert d. induction pre as [|n pre IH]; intros d Hall; [by exists d|].
  inversion Hall as [|? ? Hn Hpre]; subst. simpl. unfold bind at 1.
  destruct (resolve_one_cases n s) as [(rel & -> & _)|(Hnres & _)]; [|done].
  by apply IH.
Qed.

(** X2.  A name without a dot (the empty name that a trailing comma
    leaves is one) ends the script with an uncaught ValueError from the
    unpacking of [rsplit]'s result: nothing is printed, no stage is
    polled, and the exit status is 1. *)
Theorem name_without_dot_raises_ValueError fuel args pre n rest s :
  names args = pre ++ n :: rest →
  Forall resolves pre →
  "."%char ∉ Str.to_list n →
  main fuel args s = (Some (Raise ValueError), s) ∧
  exit_code (Raise ValueError) = 1.
Proof.
  intros Hn Hpre Hdot. split; [|done]. unfold main. rewrite Hn.
  destruct (resolve_app pre (n :: rest) [] s Hpre) as [d' ->].
  simpl. unfold bind at 1. by rewrite resolve_one_no_dot.
Qed.

(** The keys of the dict after [rels_cls[k] = v]. *)
Lemma dict_set_keys {V} k (v : V) d :
  (dict_set k v d).*1 = if decide (k ∈ d.*1) then d.*1 else d.*1 ++ [k].
Proof.
  induction d as [|[k' v'] d IH].
  - simpl. destruct (decide (k ∈ [])) as [H|_]; [|done].
    by apply not_elem_of_nil in H.
  - cbn [dict_set]. destruct (String.eqb k' k) eqn:Hk.
    + apply String.eqb_eq in Hk as ->. cbn.
      destruct (decide (k ∈ k :: d.*1)) as [_|H]; [done|].
      exfalso. apply H, elem_of_cons. by left.
    + apply String.eqb_neq in Hk. cbn. rewrite IH.
      destruct (decide (k ∈ d.*1)) as [Hin|Hnin];
        destruct (decide (k ∈ k' :: d.*1)) as [Hin'|Hnin']; try done.
      * exfalso. apply Hnin', elem_of_cons. by right.
      * apply elem_of_cons in Hin' as [->|?]; done.
Qed.

Lemma resolve_keys ns d s rels s' :
  resolve ns d s = (Ok (inr rels), s') →
  (NoDup d.*1 → NoDup rels.*1) ∧
  (∀ n, n ∈ rels.*1 ↔ n ∈ d.*1 ∨ n ∈ ns) ∧
  rels.*1 = d.*1 ++ first_occurrences d.*1 ns.
Proof.
  revert d s. induction ns as [|n ns IH]; intros d s; simpl.
  - intros [= <- <-]. split; [done|]. split.
    + intros n. rewrite elem_of_nil. tauto.
    + by rewrite app_nil_r.
  - unfold bind at 1.
    destruct (resolve_one n s) as [[[code|rel]|e] s1]; [done| |done].
    intros H. apply IH in H as (Hnd & Hin & Hkeys).
    rewrite dict_set_keys in Hnd, Hin, Hkeys.
    destruct (decide (n ∈ d.*1)) as [Hd|Hd].
    + split; [done|]. split; [|done].
      intros x. rewrite Hin, elem_of_cons. split; [tauto|].
      intros [?|[->|?]]; tauto.
    + split.
      * intros Hnd'. apply Hnd. apply NoDup_app. split; [done|].
        split; [|apply NoDup_singleton].
        intros x Hx Hx'. apply list_elem_of_singleton in Hx' as ->. done.
      * split.
        -- intros x. rewrite Hin, elem_of_app, list_elem_of_singleton, elem_of_cons.
           tauto.
        -- by rewrite Hkeys, <- app_assoc.
Qed.

(** X3.  The classes are kept in a dict keyed by name: when the names
    resolve, a stage named several times is kept once, every name given
    is kept, and the stages stand in the order in which they were first
    named; these are the stages the loop polls. *)
Theorem stage_named_twice_is_kept_once fuel args s rels s' :
  resolve (names args) [] s = (Ok (inr rels), s') →
  NoDup rels.*1 ∧
  (∀ n, n ∈ rels.*1 ↔ n ∈ names args) ∧
  rels.*1 = first_occurrences [] (names args) ∧
  main fuel args s = daemon_loop fuel args rels true s'.
Proof.
  intros H. pose proof H as H'.
  apply resolve_keys in H as (Hnd & Hin & Hkeys).
  simpl in *. split; [apply Hnd, NoDup_nil_2|]. split.
  - intros n. rewrite Hin, elem_of_nil. tauto.
  - split; [done|]. unfold main. by rewrite H'.
Qed.

End Names.

Section Passes.
Context `{RT : Runtime}.

Lemma poll_stages_events rels populated s b s' :
  poll_stages rels populated s = (Ok b, s') →
  ∃ had_work, length had_work = length rels ∧
              pass_reports rels (world s) had_work (world s') ∧
              adds s s' (pass_events rels had_work) ∧
              b = populated || existsb id had_work.
Proof.
  revert populated s. induction rels as [|[name rel] rels IH]; intros populated s.
  - simpl. intros [= <- <-]. exists []. unfold adds. simpl.
    split; [done|]. split; [constructor|].
    by rewrite app_nil_r, orb_false_r.
  - simpl. unfold bind, emit, modify, call. simpl.
    destruct (progress rel (world s)) as [[[todo done_]|e] w] eqn:Hpr; [|done].
    destruct (0 <? todo) eqn:Htodo.
    + simpl. destruct (populate rel w) as [[[]|e] w'] eqn:Hpop; [|done].
      intros H. apply IH in H as (hw & Hlen & Hrep & Hadds & ->).
      exists (true :: hw). simpl. split; [by rewrite Hlen|].
      split.
      { eapply reports_work; [exact Hpr| |exact Hpop|exact Hrep].
        by apply Z.ltb_lt. }
      unfold adds in *. simpl in *. rewrite Hadds, <- !app_assoc. simpl.
      split; [done|]. by rewrite orb_true_r.
    + intros H. apply IH in H as (hw & Hlen & Hrep & Hadds & ->).
      exists (false :: hw). simpl. split; [by rewrite Hlen|].
      split.
      { eapply reports_idle; [exact Hpr| |exact Hrep]. by apply Z.ltb_ge. }
      unfold adds in *. simpl in *. rewrite Hadds, <- !app_assoc. simpl.
      done.
Qed.

(** What the stages reported is fixed by the stages and the world the pass
    starts in. *)
Lemma pass_reports_functional rels w hw1 w1 hw2 w2 :
  pass_reports rels w hw1 w1 → pass_reports rels w hw2 w2 →
  hw1 = hw2 ∧ w1 = w2.
Proof.
  intros H1. revert hw2 w2.
  induction H1 as [w|name rel rest w todo done_ wa hw w' Hpr Htodo _ IH
                    |name rel rest w todo done_ wa wb hw w' Hpr Htodo Hpop _ IH];
    intros hw2 w2 H2; inversion H2; subst.
  - done.
  - match goal with
    | [ H : progress rel w = (Ok _, ?x) |- _ ] =>
        rewrite Hpr in H; injection H as <- <- <-
    end.
    match goal with
    | [ H : pass_reports rest _ _ _ |- _ ] => apply IH in H as [-> ->]
    end. done.
  - match goal with
    | [ H : progress rel w = (Ok _, ?x) |- _ ] =>
        rewrite Hpr in H; injection H as <- <- <-
    end. lia.
  - match goal with
    | [ H : progress rel w = (Ok _, ?x) |- _ ] =>
        rewrite Hpr in H; injection H as <- <- <-
    end. lia.
  - match goal with
    | [ H : progress rel w = (Ok _, ?x) |- _ ] =>
        rewrite Hpr in H; injection H as <- <- <-
    end.
    match goal with
    | [ H : populate rel _ = (Ok tt, ?x) |- _ ] =>
        rewrite Hpop in H; injection H as <-
    end.
    match goal with
    | [ H : pass_reports rest _ _ _ |- _ ] => apply IH in H as [-> ->]
    end. done.
Qed.

(** The draw changes the world by one use of the generator. *)
Lemma randint_world low high s d s' :
  randint low high s = (Ok d, s') → world s' = (entropy (world s)).2.
Proof.
  unfold randint.
  destruct ((low <? - 2 ^ 63) || (2 ^ 63 <? high) || (high <=? low)); [done|].
  unfold bind, call, ret. destruct (entropy (world s)) as [r w'].
  by intros [= <- <-].
Qed.

(** X4.  A pass of the loop that ends normally asks every stage for its
    progress exactly once, in the order of the dict, and calls [populate]
    for a stage right after its own progress exactly when the [todo] that
    progress returned was positive: [had_work] is what the stages reported
    ([pass_reports], from the world the pass starts in), and the calls made
    are those [pass_events] lists for it.  Then the pass sleeps once when no
    stage had work (and [run_daemon] is set), for a duration in range and
    after one draw from the generator, and does not sleep, nor draw, when
    some stage had work. *)
Theorem pass_polls_each_stage_once args rels run_daemon s s' :
  cycle args rels run_daemon s = (Ok tt, s') →
  ∃ had_work w1, length had_work = length rels ∧
    pass_reports rels (world s) had_work w1 ∧
    if run_daemon && negb (existsb id had_work)
    then ∃ d, adds s s' (pass_events rels had_work ++ [EvSleep d]) ∧
              t_min args ≤ d < t_max args ∧ 0 ≤ d ∧
              world s' = (entropy w1).2
    else adds s s' (pass_events rels had_work) ∧ world s' = w1.
Proof.
  unfold cycle, bind.
  destruct (poll_stages rels false s) as [[populated|e] s1] eqn:Hpoll; [|done].
  apply poll_stages_events in Hpoll as (hw & Hlen & Hrep & Hadds & ->). simpl.
  intros H. exists hw, (world s1). split; [done|]. split; [done|].
  destruct (run_daemon && negb (existsb id hw)).
  - destruct (randint (t_min args) (t_max args) s1) as [[d|e] s2] eqn:Hr; [|done].
    pose proof (randint_world _ _ _ _ _ Hr) as Hw.
    apply randint_range in Hr as (Hd & Hlog & _).
    unfold sleep in H. destruct (d <? 0) eqn:Hneg; [done|].
    destruct (sleep_limit <? d); [done|].
    injection H as <-. exists d. unfold adds in *. simpl.
    rewrite Hlog, Hadds, app_assoc. split; [done|]. split; [done|].
    split; [by apply Z.ltb_ge|done].
  - by injection H as <-.
Qed.

(** In daemon mode the loop is left only by an exception. *)
Lemma daemon_loop_never_returns fuel args rels s o s' :
  daemon args = true →
  daemon_loop fuel args rels true s = (Some o, s') → raised o.
Proof.
  intros Hd. revert s. induction fuel as [|fuel IH]; intros s; simpl; [done|].
  destruct (cycle args rels true s) as [[[]|e] s1].
  - rewrite Hd. apply IH.
  - by intros [= <- <-].
Qed.

(** The first loop returns no other code than 1. *)
Lemma resolve_returns_1 ns d s code s' :
  resolve ns d s = (Ok (inl code), s') → code = 1.
Proof.
  revert d. induction ns as [|n ns IH]; intros d; simpl; [done|].
  unfold bind at 1.
  destruct (resolve_one_cases n s) as [(rel & -> & _)|(_ & o & w & -> & Ho & _)].
  - apply IH.
  - destruct Ho as [->|Hr]; [by intros [= <- <-]|].
    by destruct o.
Qed.

(** X5.  With [--daemon] the script never exits with status 0: however
    long it runs, it ends only by the [return 1] of a name that does not
    resolve or by an exception, and both give the status 1. *)
Theorem daemon_never_exits_0 fuel args s o s' :
  daemon args = true →
  main fuel args s = (Some o, s') →
  (o = Ok 1 ∨ raised o) ∧ exit_code o = 1.
Proof.
  intros Hd. unfold main.
  destruct (resolve (names args) [] s) as [[[code|rels]|e] s1] eqn:Hres.
  - apply resolve_returns_1 in Hres as ->. intros [= <- <-].
    split; [by left|done].
  - intros H. apply daemon_loop_never_returns in H; [|done].
    destruct o; [done|]. split; [by right|done].
  - intros [= <- <-]. split; [by right|done].
Qed.

(** X6.  When no stage had work and the range of durations is empty
    ([t_max ≤ t_min]) or has no duration that can be slept ([t_max ≤ 0]),
    the worker ends with ValueError, from [randint] or from [time.sleep]:
    it has polled the stages and it has not slept. *)
Theorem idle_pass_with_bad_range_raises fuel args rels s s1 :
  poll_stages rels false s = (Ok false, s1) →
  t_max args ≤ t_min args ∨ t_max args ≤ 0 →
  ∃ s2, daemon_loop (S fuel) args rels true s = (Some (Raise ValueError), s2) ∧
        log s2 = log s1.
Proof.
  intros Hpoll Hbad. simpl. unfold cycle, bind. rewrite Hpoll. simpl.
  destruct (randint (t_min args) (t_max args) s1) as [[d|e] s2] eqn:Hr.
  - apply randint_range in Hr as (Hd & Hlog & _).
    unfold sleep. replace (d <? 0) with true by (symmetry; apply Z.ltb_lt; lia).
    by exists s2.
  - exists s2. unfold randint in Hr.
    destruct ((t_min args <? - 2 ^ 63) || (2 ^ 63 <? t_max args)
              || (t_max args <=? t_min args)).
    + by injection Hr as <- <-.
    + unfold bind, call, ret in Hr. destruct (entropy (world s1)). discriminate.
Qed.

Lemma poll_stages_app pre rest populated s :
  poll_stages (pre ++ rest) populated s
  = bind (poll_stages pre populated) (poll_stages rest) s.
Proof.
  revert populated s. induction pre as [|[name rel] pre IH]; intros populated s.
  - done.
  - simpl. unfold bind, emit, modify, call. simpl.
    destruct (progress rel (world s)) as [[[todo done_]|e] w]; [|done].
    destruct (0 <? todo).
    + simpl. destruct (populate rel w) as [[[]|e] w']; [|done].
      rewrite IH. done.
    + rewrite IH. done.
Qed.

(** X7.  An exception that leaves [populate] is not caught: the worker
    ends with it at once.  The stages after the failing one are not polled
    in that pass, nothing is slept, and with [--daemon] no further pass is
    made. *)
Theorem populate_exception_ends_the_worker
    fuel args pre name rel rest e s b s1 w w' todo done_ :
  poll_stages pre false s = (Ok b, s1) →
  progress rel (world s1) = (Ok (todo, done_), w) → 0 < todo →
  populate rel w = (Raise e, w') →
  daemon_loop (S fuel) args (pre ++ (name, rel) :: rest) true s
  = (Some (Raise e),
     {| world := w'; log := log s1 ++ [EvProgress name; EvPopulate name] |}).
Proof.
  intros Hpre Hpr Htodo Hpop. simpl. unfold cycle. unfold bind at 1.
  rewrite poll_stages_app. unfold bind at 1. rewrite Hpre. simpl.
  unfold bind, emit, modify, call. simpl. rewrite Hpr.
  replace (0 <? todo) with true by (symmetry; by apply Z.ltb_lt).
  simpl. rewrite Hpop. by rewrite <- app_assoc.
Qed.

End Passes.

Import WorkerDemo.

Lemma resolved_name_is_cut_at_last_dot_witness :
  ∃ p m mod_ rel,
    "pipeline.reso.ScanInfo" = p +:+ "." +:+ m ∧
    ("."%char ∉ Str.to_list m) ∧
    demo_import p = Ok mod_ ∧ demo_getattr mod_ m = Ok rel.
Proof.
  apply (resolved_name_is_cut_at_last_dot (RT:=demo_runtime)
           "pipeline.reso.ScanInfo").
  exists "pipeline.reso", "ScanInfo", "pipeline.reso", "ScanInfo".
  split; [reflexivity|]. split; reflexivity.
Defined.

Lemma name_without_dot_raises_ValueError_witness :
  main 1 trailing_comma (start 7 2) = (Some (Raise ValueError), start 7 2) ∧
  exit_code (Raise (A:=Z) ValueError) = 1.
Proof.
  apply (name_without_dot_raises_ValueError (RT:=demo_runtime)
           1 trailing_comma ["pipeline.reso.ScanInfo"] "" [] (start 7 2)).
  - reflexivity.
  - constructor; [|constructor].
    exists "pipeline.reso", "ScanInfo", "pipeline.reso", "ScanInfo".
    split; [reflexivity|]. split; reflexivity.
  - apply not_elem_of_nil.
Defined.

Lemma stage_named_twice_is_kept_once_witness :
  NoDup [("pipeline.reso.ScanInfo", "ScanInfo");
         ("pipeline.reso.RasterCorrection", "RasterCorrection")].*1 ∧
  (∀ n, n ∈ [("pipeline.reso.ScanInfo", "ScanInfo");
             ("pipeline.reso.RasterCorrection", "RasterCorrection")].*1
        ↔ n ∈ names named_twice) ∧
  [("pipeline.reso.ScanInfo", "ScanInfo");
   ("pipeline.reso.RasterCorrection", "RasterCorrection")].*1
  = first_occurrences [] (names named_twice) ∧
  main 2 named_twice (start 7 0)
  = daemon_loop 2 named_twice
      [("pipeline.reso.ScanInfo", "ScanInfo");
       ("pipeline.reso.RasterCorrection", "RasterCorrection")]
      true (start 7 0).
Proof.
  apply (stage_named_twice_is_kept_once (RT:=demo_runtime)
           2 named_twice (start 7 0)).
  reflexivity.
Defined.

Lemma pass_polls_each_stage_once_witness :
  ∃ had_work w1,
    length had_work
    = length [("pipeline.reso.ScanInfo", "ScanInfo");
              ("pipeline.reso.RasterCorrection", "RasterCorrection")] ∧
    pass_reports
      [("pipeline.reso.ScanInfo", "ScanInfo");
       ("pipeline.reso.RasterCorrection", "RasterCorrection")]
      (world (start 7 2)) had_work w1 ∧
    if true && negb (existsb id had_work)
    then ∃ d, adds (start 7 2) (polled_busy 7)
                (pass_events
                   [("pipeline.reso.ScanInfo", "ScanInfo");
                    ("pipeline.reso.RasterCorrection", "RasterCorrection")]
                   had_work ++ [EvSleep d]) ∧
              t_min daemon_5_6 ≤ d < t_max daemon_5_6 ∧ 0 ≤ d ∧
              world (polled_busy 7) = (entropy w1).2
    else adds (start 7 2) (polled_busy 7)
           (pass_events
              [("pipeline.reso.ScanInfo", "ScanInfo");
               ("pipeline.reso.RasterCorrection", "RasterCorrection")]
              had_work) ∧
         world (polled_busy 7) = w1.
Proof.
  apply (pass_polls_each_stage_once (RT:=demo_runtime) daemon_5_6
           [("pipeline.reso.ScanInfo", "ScanInfo");
            ("pipeline.reso.RasterCorrection", "RasterCorrection")]
           true (start 7 2) (polled_busy 7)).
  reflexivity.
Defined.

(** In that pass ScanInfo reported work and RasterCorrection none, and an
    idle pass reports no work at all. *)
Lemma demo_pass_reports :
  pass_reports
    [("pipeline.reso.ScanInfo", "ScanInfo");
     ("pipeline.reso.RasterCorrection", "RasterCorrection")]
    (world (start 7 2)) [true; false] (world (polled_busy 7)) ∧
  pass_reports
    [("pipeline.reso.ScanInfo", "ScanInfo");
     ("pipeline.reso.RasterCorrection", "RasterCorrection")]
    (world (start 7 0)) [false; false] (world (polled 7)).
Proof.
  split.
  - apply (reports_work (RT:=demo_runtime) _ _ _ _ 2 0 (7, 2) (7, 0));
      [reflexivity|lia|reflexivity|].
    apply (reports_idle (RT:=demo_runtime) _ _ _ _ 0 0 (7, 0));
      [reflexivity|lia|].
    apply (reports_nil (RT:=demo_runtime)).
  - apply (reports_idle (RT:=demo_runtime) _ _ _ _ 0 0 (7, 0));
      [reflexivity|lia|].
    apply (reports_idle (RT:=demo_runtime) _ _ _ _ 0 0 (7, 0));
      [reflexivity|lia|].
    apply (reports_nil (RT:=demo_runtime)).
Qed.

Lemma daemon_never_exits_0_witness :
  (Raise (A:=Z) ValueError = Ok 1 ∨ raised (Raise (A:=Z) ValueError)) ∧
  exit_code (Raise (A:=Z) ValueError) = 1.
Proof.
  apply (daemon_never_exits_0 (RT:=demo_runtime) 3 daemon_5_5 (start 7 0)
           (Raise ValueError) (polled 7)).
  - reflexivity.
  - reflexivity.
Defined.

Lemma idle_pass_with_bad_range_raises_witness :
  ∃ s2, daemon_loop 1 daemon_negative
          [("pipeline.reso.ScanInfo", "ScanInfo")] true (start 7 0)
        = (Some (Raise ValueError), s2) ∧
        log s2 = [EvProgress "pipeline.reso.ScanInfo"].
Proof.
  apply (idle_pass_with_bad_range_raises (RT:=demo_runtime) 0 daemon_negative
           [("pipeline.reso.ScanInfo", "ScanInfo")] (start 7 0) (polled_one 7)).
  - reflexivity.
  - right. simpl. lia.
Defined.

Lemma populate_exception_ends_the_worker_witness :
  daemon_loop (RT:=failing_runtime) 5 named_twice
    ([("pipeline.reso.ScanInfo", "ScanInfo")]
     ++ ("pipeline.reso.RasterCorrection", "RasterCorrection")
        :: [("pipeline.reso.MotionCorrection", "MotionCorrection")])
    true failing_start
  = (Some (Raise (OtherError "IntegrityError")), failing_end).
Proof.
  apply (populate_exception_ends_the_worker (RT:=failing_runtime) 4 named_twice
           [("pipeline.reso.ScanInfo", "ScanInfo")]
           "pipeline.reso.RasterCorrection" "RasterCorrection"
           [("pipeline.reso.MotionCorrection", "MotionCorrection")]
           (OtherError "IntegrityError")
           failing_start true failing_polled failing_world failing_world 3 0).
  - reflexivity.
  - reflexivity.
  - lia.
  - reflexivity.
Defined.

End WorkerMore.

(** ** The stages of reso.py *)

Module DjFacts.
Import Py Dj.

Lemma lookup_heading heading (r : row) k :
  dom r = list_to_set (C := gset string) heading →
  is_Some (r !! k) ↔ k ∈ heading.
Proof. intros Hd. rewrite <- elem_of_dom, Hd. apply elem_of_list_to_set. Qed.

(** On rows that carry their headings, matching is equality on the
    attributes the two headings share. *)
Lemma matches_same_on h1 h2 (r1 r2 : row) :
  dom r1 = list_to_set (C := gset string) h1 →
  dom r2 = list_to_set (C := gset string) h2 →
  matches r1 r2 ↔ same_on (list_intersection h1 h2) r1 r2.
Proof.
  intros H1 H2. unfold matches, same_on.
  rewrite map_agree_spec, Forall_forall. split.
  - intros Hag k Hk. apply list_elem_of_intersection in Hk as [Hk1 Hk2].
    apply (lookup_heading _ _ _ H1) in Hk1 as [x Hx].
    apply (lookup_heading _ _ _ H2) in Hk2 as [y Hy].
    rewrite Hx, Hy. f_equal. by eapply Hag.
  - intros Hsame k x y Hx Hy.
    assert (Hk : k ∈ list_intersection h1 h2).
    { apply list_elem_of_intersection. split.
      - apply (lookup_heading _ _ _ H1). by eexists.
      - apply (lookup_heading _ _ _ H2). by eexists. }
    apply Hsame in Hk. congruence.
Qed.

Lemma same_on_sym attrs (r1 r2 : row) :
  same_on attrs r1 r2 → same_on attrs r2 r1.
Proof. unfold same_on. rewrite !Forall_forall. intros H k Hk. symmetry. auto. Qed.

Lemma proj_lookup attrs (r : row) k :
  k ∈ attrs → proj attrs r !! k = r !! k.
Proof.
  intros Hk. unfold proj. apply option_eq. intros v.
  rewrite map_lookup_filter_Some. simpl. split; [by intros [? _]|by intros ?].
Qed.

Lemma same_on_proj attrs (r1 r2 : row) :
  same_on attrs r1 (proj attrs r2) ↔ same_on attrs r1 r2.
Proof.
  unfold same_on. rewrite !Forall_forall.
  split; intros H k Hk; specialize (H k Hk).
  - by rewrite proj_lookup in H.
  - by rewrite proj_lookup.
Qed.

Lemma elem_of_restrict (a b : list row) r :
  r ∈ restrict a b ↔ r ∈ a ∧ ∃ x, x ∈ b ∧ matches r x.
Proof.
  unfold restrict. rewrite list_elem_of_filter, Exists_exists. tauto.
Qed.

Lemma elem_of_antijoin (a b : list row) r :
  r ∈ antijoin a b ↔ r ∈ a ∧ ∀ x, x ∈ b → ¬ matches r x.
Proof.
  unfold antijoin. rewrite list_elem_of_filter, Exists_exists. split.
  - intros [Hn Ha]. split; [done|]. intros x Hx Hm. apply Hn. eauto.
  - intros [Ha Hn]. split; [|done]. intros (x & Hx & Hm). by eapply Hn.
Qed.

End DjFacts.

Module ResoFacts.
Import Py Dj Reso DjFacts.

Section KeySource.
Variable t : tables.
Hypothesis Hwf : well_formed t.

Lemma ScanInfo_dom r :
  r ∈ ScanInfo t → dom r = list_to_set (C := gset string) ScanInfo_heading.
Proof. destruct Hwf as (H & _). intros Hr. by eapply Forall_forall in H. Qed.

Lemma Slice_dom r :
  r ∈ ScanInfo_Slice t → dom r = list_to_set (C := gset string) Slice_heading.
Proof. destruct Hwf as (_ & H & _). intros Hr. by eapply Forall_forall in H. Qed.

Lemma CorrectionChannel_dom r :
  r ∈ CorrectionChannel t →
  dom r = list_to_set (C := gset string) CorrectionChannel_heading.
Proof. destruct Hwf as (_ & _ & H & _). intros Hr. by eapply Forall_forall in H. Qed.

Lemma RasterCorrection_dom r :
  r ∈ RasterCorrection t →
  dom r = list_to_set (C := gset string) RasterCorrection_heading.
Proof. destruct Hwf as (_ & _ & _ & H). intros Hr. by eapply Forall_forall in H. Qed.

(** The attributes on which the operands of the key source are compared. *)
Lemma scan_info_matches_channel r c :
  r ∈ ScanInfo t → c ∈ CorrectionChannel t →
  matches r c ↔ same_on scan_pk r c.
Proof.
  intros Hr Hc.
  by rewrite (matches_same_on _ _ _ _ (ScanInfo_dom r Hr) (CorrectionChannel_dom c Hc)).
Qed.

Lemma slice_matches_channel sl c :
  sl ∈ ScanInfo_Slice t → c ∈ CorrectionChannel t →
  matches sl c ↔ same_on (scan_pk ++ ["slice"]) sl c.
Proof.
  intros Hs Hc.
  by rewrite (matches_same_on _ _ _ _ (Slice_dom sl Hs) (CorrectionChannel_dom c Hc)).
Qed.

Lemma scan_info_matches_slice r sl :
  r ∈ ScanInfo t → sl ∈ ScanInfo_Slice t →
  matches r sl ↔ same_on scan_pk r sl.
Proof.
  intros Hr Hs.
  by rewrite (matches_same_on _ _ _ _ (ScanInfo_dom r Hr) (Slice_dom sl Hs)).
Qed.

Lemma scan_info_matches_done r d :
  r ∈ ScanInfo t → d ∈ RasterCorrection t →
  matches r d ↔ same_on scan_pk r d.
Proof.
  intros Hr Hd.
  by rewrite (matches_same_on _ _ _ _ (ScanInfo_dom r Hr) (RasterCorrection_dom d Hd)).
Qed.

(** The rows of the key source. *)
Lemma elem_of_key_source r :
  r ∈ key_source t ↔
  r ∈ ScanInfo t ∧
  (∃ c, c ∈ CorrectionChannel t ∧ same_on scan_pk c r) ∧
  (∀ sl, sl ∈ ScanInfo_Slice t → same_on scan_pk sl r →
         ∃ c, c ∈ CorrectionChannel t ∧ same_on (scan_pk ++ ["slice"]) c sl).
Proof.
  unfold key_source. rewrite elem_of_antijoin, elem_of_restrict. split.
  - intros [[Hr (c & Hc & Hm)] Hno]. split; [done|]. split.
    + exists c. split; [done|].
      apply same_on_sym. by apply scan_info_matches_channel.
    + intros sl Hsl Hsame.
      destruct (decide (Exists (matches sl) (CorrectionChannel t))) as [Hex|Hnex].
      * apply Exists_exists in Hex as (c' & Hc' & Hm').
        exists c'. split; [done|].
        apply same_on_sym. by apply slice_matches_channel.
      * exfalso. apply (Hno sl).
        -- apply elem_of_antijoin. split; [done|].
           intros x Hx Hmx. apply Hnex, Exists_exists. eauto.
        -- apply scan_info_matches_slice; [done..|]. by apply same_on_sym.
  - intros (Hr & (c & Hc & Hsame) & Hall). split.
    + split; [done|]. exists c. split; [done|].
      apply scan_info_matches_channel; [done..|]. by apply same_on_sym.
    + intros sl Hsl Hm. apply elem_of_antijoin in Hsl as [Hsl Hnone].
      destruct (Hall sl Hsl) as (c' & Hc' & Hsame').
      { apply same_on_sym. by apply scan_info_matches_slice. }
      apply (Hnone c' Hc').
      apply slice_matches_channel; [done..|]. by apply same_on_sym.
Qed.

End KeySource.

(** What the key source computes, whatever slice rows there are: on tables
    whose rows carry their headings, a scan key is pending for raster
    correction exactly when its ScanInfo row exists, at least one
    CorrectionChannel row is recorded for the scan, no slice of the scan
    lacks a CorrectionChannel row, and the key is not done. *)
Lemma raster_correction_pending_iff t k :
  well_formed t →
  k ∈ pending t ↔ pending_as_computed t k.
Proof.
  intros Hwf. unfold pending, pending_as_computed.
  rewrite list_elem_of_fmap. split.
  - intros (r & -> & Hr). apply elem_of_antijoin in Hr as [Hks Hdone].
    apply (elem_of_key_source t Hwf) in Hks as (Hr & (c & Hc & Hsame) & Hall).
    split; [by exists r|]. split; [|split].
    + exists c. split; [done|]. by apply (proj2 (same_on_proj _ _ _)).
    + intros sl Hsl Hsl_k. apply Hall; [done|].
      by apply (proj1 (same_on_proj _ _ _)).
    + intros (d & Hd & Hd_k). apply (Hdone d Hd).
      apply (scan_info_matches_done t Hwf); [done..|].
      apply same_on_sym. by apply (proj1 (same_on_proj _ _ _)).
  - intros ((r & Hr & <-) & (c & Hc & Hsame) & Hall & Hdone).
    exists r. split; [done|]. apply elem_of_antijoin. split.
    + apply (elem_of_key_source t Hwf). split; [done|]. split.
      * exists c. split; [done|]. by apply (proj1 (same_on_proj _ _ _)).
      * intros sl Hsl Hsl_r. apply Hall; [done|].
        by apply (proj2 (same_on_proj _ _ _)).
    + intros d Hd Hm. apply Hdone. exists d. split; [done|].
      apply (proj2 (same_on_proj _ _ _)), same_on_sym.
      by apply (scan_info_matches_done t Hwf).
Qed.

(** Where every ScanInfo row has a slice row, the condition computed is the
    condition as the specification words it. *)
Lemma pending_as_stated_with_slices t k :
  well_formed t →
  (∀ r, r ∈ ScanInfo t → ∃ sl, sl ∈ ScanInfo_Slice t ∧ same_on scan_pk sl r) →
  pending_as_stated t k ↔ pending_as_computed t k.
Proof.
  intros Hwf Hslices. unfold pending_as_stated, pending_as_computed. split.
  - intros ((r & Hr & <-) & Hall & Hdone).
    split; [by exists r|]. split; [|done].
    destruct (Hslices r Hr) as (sl & Hsl & Hsame).
    destruct (Hall sl Hsl) as (c & Hc & Hc_sl).
    { by apply (proj2 (same_on_proj _ _ _)). }
    exists c. split; [done|]. apply (proj2 (same_on_proj _ _ _)).
    unfold same_on in *. rewrite Forall_forall in *.
    intros a Ha. rewrite <- (Hsame a Ha). apply Hc_sl.
    apply elem_of_app. by left.
  - intros (Hr & _ & Hall & Hdone). done.
Qed.

(** C4.  [ScanInfo._make_tuples] stores the slice rows of a scan together
    with its ScanInfo row, so every ScanInfo row has a slice row.  On such
    tables (their rows carrying their headings), a scan key is pending for
    the raster-correction stage if and only if its ScanInfo row exists, no
    slice of the scan lacks a CorrectionChannel row, and the key is not
    already done for the stage. *)
Theorem raster_correction_pending_as_stated t k :
  well_formed t →
  (∀ r, r ∈ ScanInfo t → ∃ sl, sl ∈ ScanInfo_Slice t ∧ same_on scan_pk sl r) →
  k ∈ pending t ↔ pending_as_stated t k.
Proof.
  intros Hwf Hslices.
  rewrite (raster_correction_pending_iff t k Hwf).
  symmetry. by apply pending_as_stated_with_slices.
Qed.

Section Estimate.
Context `{AR : Arith}.

(** C7.  Called on a task whose compartment is neither 'soma' nor 'axon',
    [estimate_num_components] constructs a PipelineException and drops it:
    the exception is neither raised nor returned, nothing else is done in
    that branch, and control goes on to the return statement after it.
    (There the read of [num_components], which no branch taken has
    assigned, raises UnboundLocalError: the call ends with that error
    and not with the PipelineException.) *)
Theorem unrecognized_compartment_is_not_raised
    scan_info self r task c h w wh vol evs :
  restrict scan_info self = [r] →
  r !! "um_height" = Some h → r !! "um_width" = Some w →
  py_mul w h = Ok wh → py_mul wh (VInt 10) = Ok vol →
  self = [task] → task !! "compartment" = Some (VStr c) →
  c ≠ "soma" → c ≠ "axon" →
  estimate_num_components scan_info self evs
  = (Raise (UnboundLocalError "num_components"),
     evs ++ [EvConstruct (PipelineException (not_recognized (VStr c)))]).
Proof.
  intros Hr Hh Hw Hwh Hvol -> Hc Hsoma Haxon.
  unfold estimate_num_components, bind, lift, getitem.
  rewrite Hr. simpl. rewrite Hh, Hw, Hwh, Hvol, Hc.
  destruct (decide (VStr c = VStr "soma")) as [[= ->]|_]; [done|].
  destruct (decide (VStr c = VStr "axon")) as [[= ->]|_]; [done|].
  reflexivity.
Qed.

(** In the two recognized cases nothing is constructed and the local is
    assigned before it is read. *)
Lemma soma_compartment_returns scan_info self r task h w wh vol n rounded k evs :
  restrict scan_info self = [r] →
  r !! "um_height" = Some h → r !! "um_width" = Some w →
  py_mul w h = Ok wh → py_mul wh (VInt 10) = Ok vol →
  self = [task] → task !! "compartment" = Some (VStr "soma") →
  py_mul vol (VFloat (Decimal 1 (-4))) = Ok n →
  py_round n = Ok rounded → py_int rounded = Ok k →
  estimate_num_components scan_info self evs = (Ok k, evs).
Proof.
  intros Hr Hh Hw Hwh Hvol -> Hc Hn Hround Hint.
  unfold estimate_num_components, bind, lift, getitem.
  rewrite Hr. simpl. rewrite Hh, Hw, Hwh, Hvol, Hc. simpl.
  rewrite Hn. simpl. by rewrite Hround, Hint.
Qed.

End Estimate.

Section Delete.
Context `{FW : Framework}.

Lemma if_nonempty_delete tbl rel s :
  (if_nonempty rel (framework_delete tbl rel) s).1 = Ok tt ∧
  ∃ ds, deletes (if_nonempty rel (framework_delete tbl rel) s).2
        = deletes s ++ ds ∧ at_most_one tbl ds.
Proof.
  unfold if_nonempty, framework_delete, modify.
  destruct (rel (seg_rows s)) as [|r rest] eqn:Hrel; simpl.
  - split; [done|]. exists []. rewrite app_nil_r. split; [done|].
    unfold at_most_one. by left.
  - split; [done|]. exists [(tbl, r :: rest)]. split; [done|].
    unfold at_most_one. right. by exists (r :: rest).
Qed.

(** [Segmentation.delete] asks the framework to delete from
    ManualSegmentation, then from NMF, and from Segmentation itself last. *)
Lemma Segmentation_delete_own_rows_last self s :
  ∃ manual nmf own,
    deletes (Segmentation_delete self s).2 = deletes s ++ manual ++ nmf ++ own ∧
    at_most_one ManualSegmentation manual ∧ at_most_one NMF nmf ∧
    at_most_one Segmentation own.
Proof.
  unfold Segmentation_delete, bind.
  match goal with |- context [if_nonempty ?r (framework_delete ?t ?r) s] =>
    destruct (if_nonempty_delete t r s) as (H1 & d1 & Hd1 & Ha1);
    destruct (if_nonempty r (framework_delete t r) s) as [o1 s1] end.
  simpl in H1, Hd1. subst o1.
  match goal with |- context [if_nonempty ?r (framework_delete ?t ?r) s1] =>
    destruct (if_nonempty_delete t r s1) as (H2 & d2 & Hd2 & Ha2);
    destruct (if_nonempty r (framework_delete t r) s1) as [o2 s2] end.
  simpl in H2, Hd2. subst o2.
  destruct (if_nonempty_delete Segmentation self s2) as (_ & d3 & Hd3 & Ha3).
  exists d1, d2, d3. rewrite Hd3, Hd2, Hd1, <- !app_assoc. done.
Qed.

(** [NMF.delete] asks the framework to delete the rows of Segmentation
    that belong to its rows first, and its own rows last. *)
Lemma NMF_delete_own_rows_last self s :
  ∃ segmentation own,
    deletes (NMF_delete self s).2 = deletes s ++ segmentation ++ own ∧
    at_most_one Segmentation segmentation ∧ at_most_one NMF own.
Proof.
  unfold NMF_delete, bind.
  match goal with |- context [if_nonempty ?r (framework_delete ?t ?r) s] =>
    destruct (if_nonempty_delete t r s) as (H1 & d1 & Hd1 & Ha1);
    destruct (if_nonempty r (framework_delete t r) s) as [o1 s1] end.
  simpl in H1, Hd1. subst o1.
  destruct (if_nonempty_delete NMF self s1) as (_ & d2 & Hd2 & Ha2).
  exists d1, d2. rewrite Hd2, Hd1, <- !app_assoc. done.
Qed.

End Delete.

Import ResoDemo.

Lemma unrecognized_compartment_is_not_raised_witness :
  estimate_num_components [scan_info_row 1 1 1]
    [task_row 1 1 1 1 1 "dendrite"] []
  = (Raise (UnboundLocalError "num_components"),
     [] ++ [EvConstruct
              (PipelineException (not_recognized (VStr "dendrite")))]).
Proof.
  apply (unrecognized_compartment_is_not_raised (AR := int_arith)
           [scan_info_row 1 1 1] [task_row 1 1 1 1 1 "dendrite"]
           (scan_info_row 1 1 1) (task_row 1 1 1 1 1 "dendrite")
           "dendrite" (VInt 400) (VInt 400) (VInt 160000) (VInt 1600000) []).
  - by_evaluation.
  - by_evaluation.
  - by_evaluation.
  - reflexivity.
  - reflexivity.
  - reflexivity.
  - by_evaluation.
  - discriminate.
  - discriminate.
Defined.

Lemma two_scans_well_formed : well_formed two_scans.
Proof. by_evaluation. Qed.

Lemma raster_correction_pending_iff_witness :
  scan_key 1 1 1 ∈ pending two_scans
  ↔ pending_as_computed two_scans (scan_key 1 1 1).
Proof.
  apply (raster_correction_pending_iff two_scans (scan_key 1 1 1)).
  exact two_scans_well_formed.
Defined.

Lemma two_scans_have_slices r :
  r ∈ ScanInfo two_scans →
  ∃ sl, sl ∈ ScanInfo_Slice two_scans ∧ same_on scan_pk sl r.
Proof.
  intros Hr. apply (proj1 (Exists_exists _ _)). revert r Hr.
  apply (proj1 (Forall_forall _ _)). by_evaluation.
Qed.

Lemma raster_correction_pending_as_stated_witness :
  scan_key 1 1 1 ∈ pending two_scans
  ↔ pending_as_stated two_scans (scan_key 1 1 1).
Proof.
  apply (raster_correction_pending_as_stated two_scans (scan_key 1 1 1)).
  - exact two_scans_well_formed.
  - exact two_scans_have_slices.
Defined.

(** In [two_scans] the scan with a channel for both slices is pending, the
    one with a channel for the first slice only is not. *)
Lemma two_scans_pending : pending two_scans = [scan_key 1 1 1].
Proof. by_evaluation. Qed.

(** Why the slice rows are asked for: on tables in which a ScanInfo row has
    no slice row at all (a state [ScanInfo._make_tuples] does not leave) and
    no channel was chosen, every one of the scan's (no) slices has a
    channel and the key is not done, yet the key source is empty. *)
Lemma no_slices_not_pending :
  well_formed no_slices ∧
  pending_as_stated no_slices (scan_key 1 1 1) ∧
  scan_key 1 1 1 ∉ pending no_slices.
Proof.
  split; [by_evaluation|]. split.
  - split; [|split].
    + exists (scan_info_row 1 1 1). split; [by left|]. by_evaluation.
    + intros sl Hsl. inversion Hsl.
    + intros (d & Hd & _). inversion Hd.
  - replace (pending no_slices) with (@nil row) by (symmetry; by_evaluation).
    apply not_elem_of_nil.
Qed.

End ResoFacts.

(** ** Raster correction: what is stored and how it is looked up *)

Module RasterFacts.
Import Py Dj Reso DjFacts ResoFacts.

Lemma filter_ext_elem {A} (P Q : A → Prop)
    `{∀ x, Decision (P x)} `{∀ x, Decision (Q x)} (l : list A) :
  (∀ x, x ∈ l → P x ↔ Q x) → filter P l = filter Q l.
Proof.
  induction l as [|x l IH]; intros Hext; [done|].
  rewrite !filter_cons. rewrite IH.
  - destruct (decide (P x)) as [HP|HP]; destruct (decide (Q x)) as [HQ|HQ];
      try done; exfalso.
    + apply HQ, Hext; [apply elem_of_cons; by left|done].
    + apply HP, Hext; [apply elem_of_cons; by left|done].
  - intros y Hy. apply Hext, elem_of_cons. by right.
Qed.

Lemma filter_none {A} (P : A → Prop) `{∀ x, Decision (P x)} (l : list A) :
  (∀ x, x ∈ l → ¬ P x) → filter P l = [].
Proof.
  induction l as [|x l IH]; intros Hno; [done|].
  rewrite filter_cons_False by (apply Hno, elem_of_cons; by left).
  apply IH. intros y Hy. apply Hno, elem_of_cons. by right.
Qed.

(** A key restricted to the scan attributes selects the rows of the scan. *)
Lemma matches_proj_scan_pk heading (r key : row) :
  dom r = list_to_set (C := gset string) heading →
  (∀ a, a ∈ scan_pk → a ∈ heading) →
  Forall (λ a, is_Some (key !! a)) scan_pk →
  matches r (proj scan_pk key) ↔ same_on scan_pk r key.
Proof.
  intros Hdom Hsub Hkey. unfold matches, same_on.
  rewrite map_agree_spec, Forall_forall. rewrite Forall_forall in Hkey. split.
  - intros Hag a Ha.
    destruct (proj2 (lookup_heading _ _ a Hdom) (Hsub a Ha)) as [x Hx].
    destruct (Hkey a Ha) as [y Hy]. rewrite Hx, Hy. f_equal.
    apply (Hag a x y Hx). by rewrite proj_lookup.
  - intros Hsame k x y Hx Hy. unfold proj in Hy.
    apply map_lookup_filter_Some in Hy as [Hy Hk]. simpl in Hk.
    rewrite (Hsame k Hk) in Hx. congruence.
Qed.

Lemma scan_pk_in_RasterCorrection a :
  a ∈ scan_pk → a ∈ RasterCorrection_heading.
Proof. intros H. apply elem_of_app. by left. Qed.

Lemma scan_pk_in_ScanInfo a : a ∈ scan_pk → a ∈ ScanInfo_heading.
Proof. intros H. apply elem_of_app. by left. Qed.

(** The lookup, for a scan with one row in each table. *)
Lemma get_correct_raster_by_scan t key r i phase fill :
  well_formed t →
  Forall (λ a, is_Some (key !! a)) scan_pk →
  filter (λ x, same_on scan_pk x key) (RasterCorrection t) = [r] →
  filter (λ x, same_on scan_pk x key) (ScanInfo t) = [i] →
  r !! "raster_phase" = Some phase →
  i !! "fill_fraction" = Some fill →
  get_correct_raster t key
  = Ok (if eq_zero phase then astype_float32 else correct_raster phase fill).
Proof.
  intros Hwf Hkey Hr Hi Hphase Hfill. unfold get_correct_raster.
  unfold restrict_by, RasterCorrection_primary_key.
  rewrite (filter_ext_elem _ (λ x, same_on scan_pk x key) (RasterCorrection t)).
  2:{ intros x Hx. apply (matches_proj_scan_pk RasterCorrection_heading);
        [by apply (RasterCorrection_dom t Hwf)|apply scan_pk_in_RasterCorrection|done]. }
  rewrite Hr. unfold mbind, outcome_bind. simpl.
  unfold getitem at 1. rewrite Hphase. simpl.
  rewrite (filter_ext_elem _ (λ x, same_on scan_pk x key) (ScanInfo t)).
  2:{ intros x Hx. apply (matches_proj_scan_pk ScanInfo_heading);
        [by apply (ScanInfo_dom t Hwf)|apply scan_pk_in_ScanInfo|done]. }
  rewrite Hi. simpl. unfold getitem. rewrite Hfill. simpl.
  by destruct (eq_zero phase).
Qed.

(** X8.  [get_correct_raster] looks the correction up by the scan alone:
    whatever else the key holds (the slice, the channel or the mask that
    the caller is working on), when the scan has one RasterCorrection row
    and one ScanInfo row the call returns the plain cast to float32 for a
    raster phase equal to zero, and the correction with the stored phase
    and the scan's fill fraction otherwise. *)
Theorem get_correct_raster_looks_up_by_scan t key r i phase fill :
  well_formed t →
  Forall (λ a, is_Some (key !! a)) scan_pk →
  filter (λ x, same_on scan_pk x key) (RasterCorrection t) = [r] →
  filter (λ x, same_on scan_pk x key) (ScanInfo t) = [i] →
  r !! "raster_phase" = Some phase →
  i !! "fill_fraction" = Some fill →
  get_correct_raster t key
  = Ok (if eq_zero phase then astype_float32 else correct_raster phase fill).
Proof. apply get_correct_raster_by_scan. Qed.

Section MakeTuples.
Context `{SC : Scanner}.

Lemma stored_row_key key slice channel template phase a :
  a ∈ scan_pk → stored_row key slice channel template phase !! a = key !! a.
Proof.
  intros Ha. unfold stored_row.
  rewrite !lookup_insert_ne; [done|..];
    intros <-; by repeat (apply elem_of_cons in Ha as [Ha|Ha]; [done|]);
    apply not_elem_of_nil in Ha.
Qed.

(** A call that returns has read the scan, found the channel of its middle
    slice, stored one row and sent one notification. *)
Lemma RasterCorrection_make_tuples_Ok key s s' :
  RasterCorrection_make_tuples key s = (Ok tt, s') →
  ∃ scan c n template phase,
    read_scan key = Ok scan ∧
    restrict_by (restrict_by (CorrectionChannel (tabs s)) key)
      {[ "slice" := VInt (num_fields scan / 2 + 1) ]} = [c] ∧
    c !! "channel" = Some (VInt n) ∧
    (is_bidirectional scan = false → phase = VInt 0) ∧
    RasterCorrection (tabs s')
    = RasterCorrection (tabs s)
      ++ [stored_row key (num_fields scan / 2 + 1) n template phase] ∧
    ScanInfo (tabs s') = ScanInfo (tabs s) ∧
    ScanInfo_Slice (tabs s') = ScanInfo_Slice (tabs s) ∧
    CorrectionChannel (tabs s') = CorrectionChannel (tabs s).
Proof.
  unfold RasterCorrection_make_tuples, bind, lift.
  destruct (read_scan key) as [scan|e] eqn:Hscan; [|done].
  destruct (restrict_by (restrict_by (CorrectionChannel (tabs s)) key)
              {[ "slice" := VInt (num_fields scan / 2 + 1) ]})
    as [|c [|c' l]] eqn:Hc; [done| |done].
  simpl. unfold getitem at 1.
  destruct (c !! "channel") as [ch|] eqn:Hch; [|done]. simpl.
  destruct ch as [n| | |]; try done. simpl.
  destruct (mean_frame scan (num_fields scan / 2) (n - 1)
              (Z.max (num_frames scan / 2 - 1000) 0)
              (num_frames scan / 2 + 1000)) as [template|e] eqn:Hmean; [|done].
  destruct (is_bidirectional scan) eqn:Hbi.
  all: [> destruct (compute_raster_phase template (temporal_fill_fraction scan))
            as [phase|e] eqn:Hcomp; [|done] | pose (phase := VInt 0) ].
  all: simpl.
  all: replace (n - 1 + 1) with n by lia.
  all: unfold RasterCorrection_insert1 at 1.
  all: destruct (raster_rejects (RasterCorrection (tabs s)) _) as [e|]; [done|].
  all: unfold RasterCorrection_notify; simpl.
  all: match goal with
       | |- context [fetch1 ?l] => destruct (fetch1 l) as [r|e]; [|done]
       end.
  all: unfold mbind, outcome_bind; simpl.
  all: destruct (getitem r "raster_phase") as [p|e]; [|done]; simpl.
  all: destruct (slack_notify key p) as [[]|e]; [|done]; simpl.
  all: intros [= <-]; simpl.
  - exists scan, c, n, template, phase.
    repeat split; try done. intros Hf. rewrite Hbi in Hf. discriminate.
  - exists scan, c, n, template, (VInt 0). repeat split; done.
Qed.

Lemma stored_row_dom key slice channel template phase :
  dom key = list_to_set (C := gset string) scan_pk →
  dom (stored_row key slice channel template phase)
  = list_to_set (C := gset string) RasterCorrection_heading.
Proof.
  intros Hdom. unfold stored_row. rewrite !dom_insert_L, Hdom.
  unfold RasterCorrection_heading, scan_pk. simpl. set_solver.
Qed.

(** X9.  For a scan that is not bidirectional the correction stored is the
    identity: after a call of [RasterCorrection._make_tuples] that
    returned, [get_correct_raster] gives the plain cast to float32 for
    every key of the scan. *)
Theorem unidirectional_scan_is_only_cast key key' scan i s s' :
  well_formed (tabs s) →
  dom key = list_to_set (C := gset string) scan_pk →
  read_scan key = Ok scan → is_bidirectional scan = false →
  (∀ d, d ∈ RasterCorrection (tabs s) → ¬ same_on scan_pk d key) →
  filter (λ x, same_on scan_pk x key) (ScanInfo (tabs s)) = [i] →
  RasterCorrection_make_tuples key s = (Ok tt, s') →
  same_on scan_pk key' key →
  get_correct_raster (tabs s') key' = Ok astype_float32.
Proof.
  intros Hwf Hdom Hscan Huni Hnew Hi Hok Hkey'.
  apply RasterCorrection_make_tuples_Ok in Hok
    as (scan' & c & n & template & phase & Hscan' & _ & _ & Hzero & HRC & HSI & HSl & HCC).
  rewrite Hscan in Hscan'. injection Hscan' as <-.
  specialize (Hzero Huni). subst phase.
  assert (Hwf' : well_formed (tabs s')).
  { destruct Hwf as (H1 & H2 & H3 & H4). unfold well_formed.
    rewrite HRC, HSI, HSl, HCC. repeat split; try done.
    apply Forall_app. split; [done|]. constructor; [|constructor].
    by apply stored_row_dom. }
  assert (Hkeys : ∀ x : row, same_on scan_pk x key' ↔ same_on scan_pk x key).
  { intros x. unfold same_on in *. rewrite !Forall_forall in *.
    split; intros H a Ha; specialize (H a Ha); specialize (Hkey' a Ha); congruence. }
  assert (Hi_wf : dom i = list_to_set (C := gset string) ScanInfo_heading).
  { apply (ScanInfo_dom _ Hwf). apply (list_elem_of_filter (λ x, same_on scan_pk x key)).
    rewrite Hi. apply elem_of_cons. by left. }
  destruct (proj2 (lookup_heading ScanInfo_heading i "fill_fraction" Hi_wf))
    as [fill Hfill].
  { unfold ScanInfo_heading. apply elem_of_app. right.
    repeat (apply elem_of_cons; first [by left|right]). }
  rewrite (get_correct_raster_by_scan (tabs s') key'
             (stored_row key (num_fields scan / 2 + 1) n template (VInt 0))
             i (VInt 0) fill); try done.
  - rewrite Forall_forall. intros a Ha.
    unfold same_on in Hkey'. rewrite Forall_forall in Hkey'.
    rewrite (Hkey' a Ha).
    apply (lookup_heading scan_pk key a); [done|done].
  - rewrite (list_filter_iff _ (λ x, same_on scan_pk x key)) by apply Hkeys.
    rewrite HRC, filter_app.
    replace (filter (λ x, same_on scan_pk x key) (RasterCorrection (tabs s)))
      with (@nil row).
    + rewrite app_nil_l, filter_cons_True; [by rewrite filter_nil|].
      unfold same_on. rewrite Forall_forall. intros a Ha.
      by apply stored_row_key.
    + symmetry. by apply filter_none.
  - rewrite (list_filter_iff _ (λ x, same_on scan_pk x key)) by apply Hkeys.
    by rewrite HSI.
  - unfold stored_row. by rewrite lookup_insert_eq.
Qed.

(** X10.  A call of [RasterCorrection._make_tuples] that returned leaves
    the scan done: the key source of the stage is as it was, and a row of
    it has a matching row in RasterCorrection exactly when it had one
    before or is of the scan of the key.  (So the key source without the
    rows that have a match, which is what is left to do, has lost the rows
    of that scan and no other.) *)
Theorem populated_scan_is_no_longer_pending key s s' :
  well_formed (tabs s) →
  dom key = list_to_set (C := gset string) scan_pk →
  RasterCorrection_make_tuples key s = (Ok tt, s') →
  key_source (tabs s') = key_source (tabs s) ∧
  ∀ r, r ∈ key_source (tabs s) →
       Exists (matches r) (RasterCorrection (tabs s'))
       ↔ Exists (matches r) (RasterCorrection (tabs s)) ∨ same_on scan_pk r key.
Proof.
  intros Hwf Hdom Hok.
  apply RasterCorrection_make_tuples_Ok in Hok
    as (scan & c & n & template & phase & _ & _ & _ & _ & HRC & HSI & HSl & HCC).
  split.
  - unfold key_source. by rewrite HSI, HSl, HCC.
  - intros r Hr. apply (elem_of_key_source _ Hwf) in Hr as (Hr & _).
    rewrite HRC, Exists_app, Exists_cons, Exists_nil.
    rewrite (matches_same_on _ _ _ _ (ScanInfo_dom _ Hwf r Hr)
               (stored_row_dom key _ n template phase Hdom)).
    change (list_intersection ScanInfo_heading RasterCorrection_heading)
      with scan_pk.
    assert (Hsame : same_on scan_pk r
                      (stored_row key (num_fields scan / 2 + 1) n template phase)
                    ↔ same_on scan_pk r key).
    { unfold same_on. rewrite !Forall_forall.
      split; intros H a Ha; specialize (H a Ha);
        rewrite stored_row_key in *; done. }
    rewrite Hsame. tauto.
Qed.

End MakeTuples.

Import ResoDemo.

Lemma raster_done_well_formed : well_formed (tabs raster_done).
Proof. by_evaluation. Qed.

Lemma raster_start_well_formed : well_formed (tabs raster_start).
Proof. by_evaluation. Qed.

Lemma raster_make_tuples_demo :
  RasterCorrection_make_tuples (SC:=demo_scanner) (scan_key 1 1 1) raster_start
  = (Ok tt, raster_done).
Proof. by_evaluation. Qed.

Lemma get_correct_raster_looks_up_by_scan_witness :
  get_correct_raster (tabs raster_done) nmf_key
  = Ok (if eq_zero (VInt 0) then astype_float32
        else correct_raster (VInt 0) (flt 7 (-1))).
Proof.
  apply (get_correct_raster_looks_up_by_scan (tabs raster_done) nmf_key
           raster_row (scan_info_row 1 1 1) (VInt 0) (flt 7 (-1))).
  - exact raster_done_well_formed.
  - by_evaluation.
  - by_evaluation.
  - by_evaluation.
  - by_evaluation.
  - by_evaluation.
Defined.

Lemma unidirectional_scan_is_only_cast_witness :
  get_correct_raster (tabs raster_done) nmf_key = Ok astype_float32.
Proof.
  apply (unidirectional_scan_is_only_cast (SC:=demo_scanner)
           (scan_key 1 1 1) nmf_key tt (scan_info_row 1 1 1)
           raster_start raster_done).
  - exact raster_start_well_formed.
  - by_evaluation.
  - reflexivity.
  - reflexivity.
  - intros d Hd. by apply not_elem_of_nil in Hd.
  - by_evaluation.
  - exact raster_make_tuples_demo.
  - by_evaluation.
Defined.

Lemma populated_scan_is_no_longer_pending_witness :
  key_source (tabs raster_done) = key_source (tabs raster_start) ∧
  ∀ r, r ∈ key_source (tabs raster_start) →
       Exists (matches r) (RasterCorrection (tabs raster_done))
       ↔ Exists (matches r) (RasterCorrection (tabs raster_start))
         ∨ same_on scan_pk r (scan_key 1 1 1).
Proof.
  apply (populated_scan_is_no_longer_pending (SC:=demo_scanner)
           (scan_key 1 1 1) raster_start raster_done).
  - exact raster_start_well_formed.
  - by_evaluation.
  - exact raster_make_tuples_demo.
Defined.

End RasterFacts.

(** ** Masks: storing them and reading them back *)

Module MaskFacts.
Import Py Dj Reso.

Lemma normalize_index_in_range n (p : nat) :
  (p < n)%nat → normalize_index n (Z.of_nat p + 1 - 1) = Ok p.
Proof.
  intros Hp. unfold normalize_index.
  replace (Z.of_nat p + 1 - 1) with (Z.of_nat p) by lia.
  replace (Z.of_nat p <? - Z.of_nat n) with false by (symmetry; apply Z.ltb_ge; lia).
  replace (Z.of_nat n <=? Z.of_nat p) with false by (symmetry; apply Z.leb_gt; lia).
  replace (Z.of_nat p <? 0) with false by (symmetry; apply Z.ltb_ge; lia).
  simpl. by rewrite Nat2Z.id.
Qed.

Section Masks.
Context {W : Type}.
Variable zero : W.
Variable is_zero : W → bool.

Lemma np_where_bound i (mask : list W) p :
  p ∈ np_where is_zero i mask → (i ≤ p < i + length mask)%nat.
Proof.
  revert i. induction mask as [|x mask IH]; intros i; simpl.
  - intros H. by apply not_elem_of_nil in H.
  - destruct (is_zero x).
    + intros H. apply IH in H. lia.
    + rewrite elem_of_cons. intros [->|H]; [lia|]. apply IH in H. lia.
Qed.

Lemma normalize_indices_in_range n (ps : list nat) :
  Forall (λ p, (p < n)%nat) ps →
  normalize_indices n ((λ p, p - 1) <$> ((λ p, Z.of_nat p + 1) <$> ps))
  = Ok ps.
Proof.
  induction 1 as [|p ps Hp Hps IH]; [done|].
  cbn [fmap list_fmap normalize_indices] in *.
  rewrite normalize_index_in_range by done.
  unfold mbind, outcome_bind in *. by rewrite IH.
Qed.

Lemma normalize_stored n i (mask : list W) :
  (i + length mask ≤ n)%nat →
  normalize_indices n
    ((λ p, p - 1) <$> ((λ p, Z.of_nat p + 1) <$> np_where is_zero i mask))
  = Ok (np_where is_zero i mask).
Proof.
  intros Hn. apply normalize_indices_in_range.
  apply Forall_forall. intros p Hp. apply np_where_bound in Hp. lia.
Qed.

Lemma take_positions_where (pre mask : list W) :
  take_positions (pre ++ mask) (np_where is_zero (length pre) mask)
  = filter (λ x, is_zero x = false) mask.
Proof.
  revert pre. induction mask as [|x mask IH]; intros pre; [done|].
  simpl. rewrite filter_cons.
  replace (pre ++ x :: mask) with ((pre ++ [x]) ++ mask) by by rewrite <- app_assoc.
  specialize (IH (pre ++ [x])). rewrite length_app in IH. simpl in IH.
  replace (length pre + 1)%nat with (S (length pre)) in IH by lia.
  destruct (is_zero x) eqn:Hx.
  - rewrite decide_False by done. done.
  - rewrite decide_True by done. unfold take_positions in *.
    cbn [omap list_omap]. fold (@omap list _ nat W) in *.
    rewrite <- app_assoc at 1. cbn [app].
    rewrite list_lookup_middle by done.
    change (list_omap nat W) with (@omap list _ nat W). by rewrite IH.
Qed.

(** Writing the nonzero weights of a mask back at their positions, into
    zeros. *)
Lemma write_back (pre mask : list W) :
  foldl (λ acc pv, <[pv.1 := pv.2]> acc)
    (pre ++ replicate (length mask) zero)
    (zip (np_where is_zero (length pre) mask)
         (filter (λ x, is_zero x = false) mask))
  = pre ++ restored_mask zero is_zero mask.
Proof.
  unfold restored_mask.
  revert pre. induction mask as [|x mask IH]; intros pre; [done|].
  simpl. rewrite filter_cons. unfold restored at 1.
  specialize (IH (pre ++ [if is_zero x then zero else x])).
  rewrite length_app in IH. simpl in IH.
  replace (length pre + 1)%nat with (S (length pre)) in IH by lia.
  rewrite <- app_assoc in IH. simpl in IH.
  destruct (is_zero x) eqn:Hx.
  - rewrite decide_False by done. by rewrite IH, <- app_assoc.
  - rewrite decide_True by done. cbn [zip zip_with foldl fst snd].
    rewrite insert_app_r_alt by done. rewrite Nat.sub_diag. cbn [insert list_insert].
    by rewrite IH, <- app_assoc.
Qed.

Lemma length_where i (mask : list W) :
  length (filter (λ x, is_zero x = false) mask)
  = length (np_where is_zero i mask).
Proof.
  revert i. induction mask as [|x mask IH]; intros i; [done|].
  simpl. rewrite filter_cons. destruct (is_zero x) eqn:Hx.
  - rewrite decide_False by done. apply IH.
  - rewrite decide_True by done. simpl. by rewrite (IH (S i)).
Qed.

(** One mask, stored and read back. *)
Lemma assign_at_stored (mask : list W) :
  assign_at (replicate (length mask) zero)
    ((λ p, p - 1) <$> stored_pixels is_zero mask)
    (stored_weights is_zero mask)
  = Ok (restored_mask zero is_zero mask).
Proof.
  unfold assign_at, stored_pixels, stored_weights.
  pose proof (take_positions_where [] mask) as Htake. simpl in Htake.
  rewrite Htake.
  pose proof (length_where 0 mask) as Hlen.
  rewrite !length_fmap, Hlen, Nat.eqb_refl. unfold mbind, outcome_bind.
  rewrite length_replicate.
  pose proof (normalize_stored (length mask) 0 mask ltac:(lia)) as Hn.
  unfold mbind, outcome_bind in Hn. rewrite Hn.
  f_equal. apply (write_back [] mask).
Qed.

Lemma reshape_each_stored n (masks : list (list W)) :
  Forall (λ mask, length mask = n) masks →
  reshape_each zero n (stored_pixels is_zero <$> masks)
    (stored_weights is_zero <$> masks)
  = Ok (restored_mask zero is_zero <$> masks).
Proof.
  induction 1 as [|mask masks Hlen Hall IH]; [done|].
  cbn [fmap list_fmap reshape_each]. rewrite <- Hlen at 1.
  rewrite assign_at_stored.
  change (list_fmap (list W) (list Z) (stored_pixels is_zero) masks)
    with (stored_pixels is_zero <$> masks).
  change (list_fmap (list W) (list W) (stored_weights is_zero) masks)
    with (stored_weights is_zero <$> masks).
  unfold mbind, outcome_bind in *. by rewrite IH.
Qed.

(** X11.  [reshape_masks] undoes the encoding of [NMF._make_tuples]: from
    the pixels and weights stored for the masks of a location matrix it
    builds that matrix again, every weight where it was.  (A weight that
    tests as zero is not stored and comes back as the zero of [np.zeros].) *)
Theorem reshape_masks_restores_stored_masks (m : stack W) :
  Forall (λ mask, length mask = (height m * width m)%nat) (layers m) →
  reshape_masks zero (stored_pixels is_zero <$> layers m)
    (stored_weights is_zero <$> layers m)
    (Z.of_nat (height m)) (Z.of_nat (width m))
  = Ok {| height := height m; width := width m;
          layers := restored_mask zero is_zero <$> layers m |}.
Proof.
  intros Hshape. unfold reshape_masks.
  replace (Z.of_nat (height m) <? 0) with false by (symmetry; apply Z.ltb_ge; lia).
  replace (Z.of_nat (width m) <? 0) with false by (symmetry; apply Z.ltb_ge; lia).
  simpl. rewrite <- Nat2Z.inj_mul, !Nat2Z.id.
  rewrite reshape_each_stored by done. unfold mbind, outcome_bind.
  rewrite !length_fmap, Nat.sub_diag. simpl.
  by rewrite app_nil_r.
Qed.

(** A single weight written into zeros. *)
Lemma reshape_one_pixel (p : Z) (w0 : W) (h w : nat) :
  reshape_masks zero [[p]] [[w0]] (Z.of_nat h) (Z.of_nat w)
  = if (1 - Z.of_nat (h * w) <=? p) && (p <=? Z.of_nat (h * w))
    then Ok {| height := h; width := w;
               layers := [<[Z.to_nat (if p <=? 0 then Z.of_nat (h * w) + p - 1
                                      else p - 1) := w0]>
                            (replicate (h * w) zero)] |}
    else Raise IndexError.
Proof.
  unfold reshape_masks.
  replace (Z.of_nat h <? 0) with false by (symmetry; apply Z.ltb_ge; lia).
  replace (Z.of_nat w <? 0) with false by (symmetry; apply Z.ltb_ge; lia).
  simpl. rewrite <- Nat2Z.inj_mul, !Nat2Z.id.
  unfold assign_at. simpl. unfold mbind, outcome_bind.
  rewrite length_replicate. unfold normalize_index.
  destruct ((1 - Z.of_nat (h * w) <=? p) && (p <=? Z.of_nat (h * w))) eqn:Hin.
  - apply andb_true_iff in Hin as [H1 H2].
    apply Z.leb_le in H1. apply Z.leb_le in H2.
    replace (p - 1 <? - Z.of_nat (h * w)) with false by (symmetry; apply Z.ltb_ge; lia).
    replace (Z.of_nat (h * w) <=? p - 1) with false by (symmetry; apply Z.leb_gt; lia).
    simpl. do 3 f_equal.
    destruct (p <=? 0) eqn:Hp.
    + apply Z.leb_le in Hp.
      replace (p - 1 <? 0) with true by (symmetry; apply Z.ltb_lt; lia).
      f_equal. f_equal. lia.
    + apply Z.leb_gt in Hp.
      replace (p - 1 <? 0) with false by (symmetry; apply Z.ltb_ge; lia).
      done.
  - apply andb_false_iff in Hin as [H|H].
    + apply Z.leb_gt in H.
      replace (p - 1 <? - Z.of_nat (h * w)) with true by (symmetry; apply Z.ltb_lt; lia).
      done.
    + apply Z.leb_gt in H.
      replace (Z.of_nat (h * w) <=? p - 1) with true by (symmetry; apply Z.leb_le; lia).
      by rewrite orb_true_r.
Qed.

(** X12.  The stored pixel indices address the image in column-major
    order, starting at 1: the index [y + x * height + 1] is the pixel in
    row [y] and column [x].  A mask stored as that one index with a weight
    comes back with the weight at [(y, x)] and zero at every other
    pixel. *)
Theorem stored_index_is_column_major (w0 : W) (h w y x : nat) :
  (y < h)%nat → (x < w)%nat →
  ∃ m, reshape_masks zero [[Z.of_nat (y + x * h) + 1]] [[w0]]
         (Z.of_nat h) (Z.of_nat w) = Ok m ∧
       height m = h ∧ width m = w ∧
       pixel m y x 0 = Some w0 ∧
       ∀ y' x', (y' < h)%nat → (x' < w)%nat → (y', x') ≠ (y, x) →
                pixel m y' x' 0 = Some zero.
Proof.
  intros Hy Hx. rewrite reshape_one_pixel.
  assert (Hlt : (y + x * h < h * w)%nat) by nia.
  replace (1 - Z.of_nat (h * w) <=? Z.of_nat (y + x * h) + 1) with true
    by (symmetry; apply Z.leb_le; lia).
  replace (Z.of_nat (y + x * h) + 1 <=? Z.of_nat (h * w)) with true
    by (symmetry; apply Z.leb_le; lia).
  replace (Z.of_nat (y + x * h) + 1 <=? 0) with false
    by (symmetry; apply Z.leb_gt; lia).
  replace (Z.to_nat (Z.of_nat (y + x * h) + 1 - 1)) with (y + x * h)%nat by lia.
  eexists. split; [done|]. simpl. split; [done|]. split; [done|]. split.
  - unfold pixel. simpl. rewrite decide_True by done.
    apply list_lookup_insert_eq. by rewrite length_replicate.
  - intros y' x' Hy' Hx' Hne. unfold pixel. simpl. rewrite decide_True by done.
    assert (Hlt' : (y' + x' * h < h * w)%nat) by nia.
    rewrite list_lookup_insert_ne.
    + by apply lookup_replicate_2.
    + intros Heq. apply Hne.
      assert (x = x') by nia. subst x'. f_equal. lia.
Qed.

(** X13.  A stored pixel index is not checked to be a position of the
    image: zero and the negative indices down to [1 - height * width] are
    taken, as numpy takes them, to count from the end (the stored index 0
    writes the last pixel); only an index above [height * width] or below
    that range is refused, with IndexError. *)
Theorem stored_index_below_1_counts_from_the_end (p : Z) (w0 : W) (h w : nat) :
  reshape_masks zero [[p]] [[w0]] (Z.of_nat h) (Z.of_nat w)
  = if (1 - Z.of_nat (h * w) <=? p) && (p <=? Z.of_nat (h * w))
    then Ok {| height := h; width := w;
               layers := [<[Z.to_nat (if p <=? 0 then Z.of_nat (h * w) + p - 1
                                      else p - 1) := w0]>
                            (replicate (h * w) zero)] |}
    else Raise IndexError.
Proof. apply reshape_one_pixel. Qed.

Lemma assign_at_length (vec : list W) idx vals out :
  assign_at vec idx vals = Ok out → length out = length vec.
Proof.
  unfold assign_at, mbind, outcome_bind.
  destruct (if (length vals =? length idx)%nat then _ else _) as [vals'|]; [|done].
  destruct (normalize_indices (length vec) idx) as [ps|]; [|done].
  intros [= <-]. generalize (zip ps vals'). intros l. revert vec.
  induction l as [|[q v] l IH]; intros vec; [done|].
  simpl. rewrite IH. by rewrite length_insert.
Qed.

Lemma reshape_each_layers n pixels weights written :
  reshape_each zero n pixels weights = Ok written →
  length written = (length pixels `min` length weights)%nat ∧
  Forall (λ layer, length layer = n) written.
Proof.
  revert weights written. induction pixels as [|mp pixels IH];
    intros [|mw weights] written; simpl; try by intros [= <-].
  unfold mbind, outcome_bind.
  destruct (assign_at (replicate n zero) ((λ p, p - 1) <$> mp) mw) as [v|] eqn:Hv; [|done].
  destruct (reshape_each zero n pixels weights) as [rest|] eqn:Hrest; [|done].
  intros [= <-]. destruct (IH _ _ Hrest) as [Hlen Hall]. split.
  - simpl. by rewrite Hlen.
  - constructor; [|done]. apply assign_at_length in Hv.
    by rewrite Hv, length_replicate.
Qed.

(** X14.  The stack [reshape_masks] returns has one layer for every mask
    in [mask_pixels], each of [image_height * image_width] pixels; when
    there are fewer weight arrays than pixel arrays the loop stops at the
    last weight array, and the masks after it come out all zero. *)
Theorem reshape_masks_has_a_layer_per_mask mask_pixels mask_weights h w m :
  reshape_masks zero mask_pixels mask_weights h w = Ok m →
  length (layers m) = length mask_pixels ∧
  Forall (λ layer, length layer = Z.to_nat (h * w)) (layers m) ∧
  ∀ i, (length mask_weights ≤ i < length mask_pixels)%nat →
       layers m !! i = Some (replicate (Z.to_nat (h * w)) zero).
Proof.
  unfold reshape_masks. destruct ((h <? 0) || (w <? 0)); [done|].
  unfold mbind, outcome_bind.
  destruct (reshape_each zero (Z.to_nat (h * w)) mask_pixels mask_weights)
    as [written|] eqn:Hw; [|done].
  intros [= <-]. simpl. apply reshape_each_layers in Hw as [Hlen Hall].
  split; [|split].
  - rewrite length_app, length_replicate. lia.
  - apply Forall_app. split; [done|]. apply Forall_replicate.
    by rewrite length_replicate.
  - intros i Hi. rewrite lookup_app_r by lia.
    apply lookup_replicate_2. lia.
Qed.

End Masks.

Import ResoDemo.

Lemma reshape_masks_restores_stored_masks_witness :
  reshape_masks 0 (stored_pixels int_is_zero <$> layers two_masks)
    (stored_weights int_is_zero <$> layers two_masks)
    (Z.of_nat (height two_masks)) (Z.of_nat (width two_masks))
  = Ok {| height := height two_masks; width := width two_masks;
          layers := restored_mask 0 int_is_zero <$> layers two_masks |}.
Proof.
  apply (reshape_masks_restores_stored_masks 0 int_is_zero two_masks).
  repeat constructor.
Defined.

Lemma stored_index_is_column_major_witness :
  ∃ m, reshape_masks 0 [[Z.of_nat (1 + 2 * 2) + 1]] [[7]]
         (Z.of_nat 2) (Z.of_nat 3) = Ok m ∧
       height m = 2%nat ∧ width m = 3%nat ∧
       pixel m 1 2 0 = Some 7 ∧
       ∀ y' x', (y' < 2)%nat → (x' < 3)%nat → (y', x') ≠ (1%nat, 2%nat) →
                pixel m y' x' 0 = Some 0.
Proof.
  apply (stored_index_is_column_major 0 7 2 3 1 2); lia.
Defined.

Lemma reshape_masks_has_a_layer_per_mask_witness :
  length (layers second_mask_lost) = length [[1]; [2]] ∧
  Forall (λ layer, length layer = Z.to_nat (1 * 2)) (layers second_mask_lost) ∧
  ∀ i, (length [[5]] ≤ i < length [[1]; [2]])%nat →
       layers second_mask_lost !! i = Some (replicate (Z.to_nat (1 * 2)) 0).
Proof.
  apply (reshape_masks_has_a_layer_per_mask 0 [[1]; [2]] [[5]] 1 2
           second_mask_lost).
  reflexivity.
Defined.

End MaskFacts.

(** ** ScanSet and Activity: the rows they store *)

Module StageFacts.
Import Py Dj Reso DjFacts.

(** A key restricted to some attributes selects the rows that have its
    values of them. *)
Lemma matches_proj attrs heading (r key : row) :
  dom r = list_to_set (C := gset string) heading →
  (∀ a, a ∈ attrs → a ∈ heading) →
  Forall (λ a, is_Some (key !! a)) attrs →
  matches r (proj attrs key) ↔ same_on attrs r key.
Proof.
  intros Hdom Hsub Hkey. unfold matches, same_on.
  rewrite map_agree_spec, Forall_forall. rewrite Forall_forall in Hkey. split.
  - intros Hag a Ha.
    destruct (proj2 (lookup_heading _ _ a Hdom) (Hsub a Ha)) as [x Hx].
    destruct (Hkey a Ha) as [y Hy]. rewrite Hx, Hy. f_equal.
    apply (Hag a x y Hx). by rewrite proj_lookup.
  - intros Hsame k x y Hx Hy. unfold proj in Hy.
    apply map_lookup_filter_Some in Hy as [Hy Hk]. simpl in Hk.
    rewrite (Hsame k Hk) in Hx. congruence.
Qed.

Lemma fetch_attr_Ok attr rel vs :
  fetch_attr attr rel = Ok vs → Forall2 (λ (r : row) v, r !! attr = Some v) rel vs.
Proof.
  revert vs. induction rel as [|r rel IH]; intros vs; simpl.
  - intros [= <-]. constructor.
  - destruct (r !! attr) as [v|] eqn:Hv; [|done].
    destruct (fetch_attr attr rel) as [vs'|]; [|done].
    intros [= <-]. constructor; [done|]. by apply IH.
Qed.

Lemma as_ints_Ok vs ns : as_ints vs = Ok ns → vs = VInt <$> ns.
Proof.
  revert ns. induction vs as [|v vs IH]; intros ns; simpl.
  - by intros [= <-].
  - destruct v as [n| | |]; try done. simpl. unfold mbind, outcome_bind.
    destruct (as_ints vs) as [ns'|]; [|done]. intros [= <-].
    simpl. by rewrite (IH ns').
Qed.

Lemma foldl_max_ge n rest : n ≤ foldl Z.max n rest.
Proof.
  revert n. induction rest as [|x rest IH]; intros n; simpl; [lia|].
  specialize (IH (Z.max n x)). lia.
Qed.

Lemma foldl_max_bound n rest x : x ∈ rest → x ≤ foldl Z.max n rest.
Proof.
  revert n. induction rest as [|y rest IH]; intros n; simpl.
  - intros H. by apply not_elem_of_nil in H.
  - rewrite elem_of_cons. intros [->|H].
    + pose proof (foldl_max_ge (Z.max n y) rest). lia.
    + by apply IH.
Qed.

(** The first unit id of a call is above every unit id it has read. *)
Lemma next_unit_id_fresh unit_rel first :
  next_unit_id unit_rel = Ok first →
  (unit_rel = [] → first = 1) ∧
  ∀ r, r ∈ unit_rel → ∃ n, r !! "unit_id" = Some (VInt n) ∧ n < first.
Proof.
  unfold next_unit_id. destruct unit_rel as [|r0 rel]; simpl.
  - intros [= <-]. split; [done|]. intros r H. by apply not_elem_of_nil in H.
  - unfold mbind, outcome_bind.
    destruct (r0 !! "unit_id") as [v0|] eqn:Hv0; [|done].
    destruct (fetch_attr "unit_id" rel) as [vs|] eqn:Hvs; [|done].
    destruct v0 as [n0| | |]; try done. simpl.
    destruct (as_ints vs) as [ns|] eqn:Hns; [|done]. simpl.
    intros [= <-]. split; [done|].
    apply fetch_attr_Ok in Hvs. apply as_ints_Ok in Hns. subst vs.
    intros r Hr. apply elem_of_cons in Hr as [->|Hr].
    + exists n0. split; [done|]. pose proof (foldl_max_ge n0 ns). lia.
    + apply list_elem_of_lookup in Hr as [i Hi].
      destruct (Forall2_lookup_l _ _ _ _ _ Hvs Hi) as (v & Hv & Hrv).
      rewrite list_lookup_fmap in Hv.
      destruct (ns !! i) as [n|] eqn:Hn; [|done]. injection Hv as <-.
      exists n. split; [done|].
      assert (n ∈ ns) by (by eapply list_elem_of_lookup_2).
      pose proof (foldl_max_bound n0 ns n H). lia.
Qed.

Section ScanSet.
Context `{LB : Lab}.

Lemma numbered_units_cons key first mask_id rest :
  numbered_units key first (mask_id :: rest)
  = <["unit_id" := VInt first]> (<["mask_id" := mask_id]> key)
    :: numbered_units key (first + 1) rest.
Proof.
  unfold numbered_units. rewrite imap_cons. f_equal.
  - by rewrite Z.add_0_r.
  - apply imap_ext. intros j x _. simpl.
    by replace (first + Z.of_nat (S j)) with (first + 1 + Z.of_nat j) by lia.
Qed.

(** What the loop over the masks leaves, whether it ends or fails: the
    units of the masks it reached. *)
Lemma insert_units_rows key mask_ids first s o s' :
  insert_units key mask_ids first s = (o, s') →
  ∃ k, (k ≤ length mask_ids)%nat ∧
    (o = Ok tt → k = length mask_ids) ∧
    stored s' T_ScanSet_Unit
    = stored s T_ScanSet_Unit ++ numbered_units key first (take k mask_ids) ∧
    (∀ t, t ≠ T_ScanSet_Unit → stored s' t = stored s t) ∧
    shown s' = shown s.
Proof.
  revert first s. induction mask_ids as [|mask_id rest IH]; intros first s.
  - simpl. intros [= <- <-]. exists 0%nat. simpl. rewrite app_nil_r. done.
  - simpl. unfold bind at 1. unfold stage_insert1 at 1.
    destruct (stage_rejects T_ScanSet_Unit (stored s T_ScanSet_Unit) _) as [e|].
    + intros [= <- <-]. exists 0%nat. simpl. rewrite app_nil_r.
      repeat split; try done. lia.
    + intros H. apply IH in H as (k & Hk & Hok & Hrows & Hother & Hshown).
      simpl in *. exists (S k). split; [lia|]. split; [|split; [|split]].
      * intros H. by rewrite (Hok H).
      * rewrite Hrows. cbn [take]. by rewrite numbered_units_cons, <- app_assoc.
      * intros t Ht. rewrite (Hother t Ht). by rewrite decide_False.
      * done.
Qed.

(** X15.  [ScanSet._make_tuples], when it returns, has stored the key in
    ScanSet and one unit for every mask of the key, in the order the mask
    ids were fetched, with consecutive unit ids.  The first of them is 1
    when the scan and segmentation method had no unit, and otherwise lies
    above every unit id they had. *)
Theorem ScanSet_numbers_units_consecutively key s s' :
  ScanSet_make_tuples key s = (Ok tt, s') →
  ∃ first mask_ids,
    fetch_attr "mask_id" (restrict_by (stored s T_Segmentation_Mask) key)
    = Ok mask_ids ∧
    stored s' T_ScanSet = stored s T_ScanSet ++ [key] ∧
    stored s' T_ScanSet_Unit
    = stored s T_ScanSet_Unit ++ numbered_units key first mask_ids ∧
    (restrict_by (stored s T_ScanSet_Unit) (proj ScanSet_scan_key key) = [] →
     first = 1) ∧
    ∀ r, r ∈ restrict_by (stored s T_ScanSet_Unit) (proj ScanSet_scan_key key) →
         ∃ n, r !! "unit_id" = Some (VInt n) ∧ n < first.
Proof.
  unfold ScanSet_make_tuples. unfold bind at 1. unfold stage_insert1 at 1.
  destruct (stage_rejects T_ScanSet (stored s T_ScanSet) key) as [e|]; [done|].
  unfold bind at 1. unfold query at 1. simpl.
  destruct (next_unit_id _) as [first|e] eqn:Hfirst; [|done].
  unfold bind at 1. unfold query at 1. simpl.
  destruct (fetch_attr "mask_id" _) as [mask_ids|e] eqn:Hmasks; [|done].
  intros Hloop. apply insert_units_rows in Hloop
    as (k & Hk & Hok & Hrows & Hother & Hshown).
  simpl in *. rewrite (Hok eq_refl), firstn_all in Hrows.
  apply next_unit_id_fresh in Hfirst as [Hone Hfresh].
  exists first, mask_ids. split; [done|]. split.
  - by rewrite (Hother T_ScanSet).
  - split; [|split; done]. by rewrite Hrows.
Qed.

Lemma numbered_units_lookup key first mask_ids j r :
  numbered_units key first mask_ids !! j = Some r →
  r !! "unit_id" = Some (VInt (first + Z.of_nat j)) ∧
  ∀ a, a ∈ ScanSet_scan_key → r !! a = key !! a.
Proof.
  unfold numbered_units. rewrite list_lookup_imap.
  destruct (mask_ids !! j) as [m|]; [|done]. simpl. intros [= <-].
  split; [by rewrite lookup_insert_eq|].
  intros a Ha. rewrite !lookup_insert_ne; [done|..];
    intros <-; by repeat (apply elem_of_cons in Ha as [Ha|Ha]; [done|]);
    apply not_elem_of_nil in Ha.
Qed.

(** Units numbered from above every unit id of their scan and method do
    not repeat a primary key. *)
Lemma unit_key_unique_app units key first mask_ids :
  unit_key_unique units →
  (∀ r, r ∈ units → same_on ScanSet_scan_key r key →
        ∃ n, r !! "unit_id" = Some (VInt n) ∧ n < first) →
  unit_key_unique (units ++ numbered_units key first mask_ids).
Proof.
  intros Hu Hfresh i j r1 r2 Hi Hj Hsame.
  assert (Hold_new : ∀ i' j' (o n : row),
            units !! i' = Some o →
            numbered_units key first mask_ids !! j' = Some n →
            same_on Unit_primary_key o n → False).
  { intros i' j' o n Ho Hn Hs.
    apply numbered_units_lookup in Hn as [Hid Hkey].
    unfold same_on in Hs. rewrite Forall_forall in Hs.
    destruct (Hfresh o) as (u & Hu1 & Hu2).
    - by eapply list_elem_of_lookup_2.
    - unfold same_on. rewrite Forall_forall. intros a Ha.
      rewrite <- (Hkey a Ha). apply Hs.
      unfold Unit_primary_key, scan_pk. unfold ScanSet_scan_key in Ha.
      repeat (apply elem_of_cons in Ha as [->|Ha];
              [repeat (apply elem_of_cons; first [by left|right])|]).
      by apply not_elem_of_nil in Ha.
    - assert (Hpk : "unit_id" ∈ Unit_primary_key).
      { unfold Unit_primary_key, scan_pk.
        repeat (apply elem_of_cons; first [by left|right]). }
      specialize (Hs _ Hpk). rewrite Hu1, Hid in Hs. injection Hs as ->. lia. }
  apply lookup_app_Some in Hi as [Hi|[Hilen Hi]];
    apply lookup_app_Some in Hj as [Hj|[Hjlen Hj]].
  - by eapply Hu.
  - exfalso. by eapply Hold_new.
  - exfalso. eapply Hold_new; [done..|]. by apply same_on_sym.
  - apply numbered_units_lookup in Hi as [Hi _].
    apply numbered_units_lookup in Hj as [Hj _].
    unfold same_on in Hsame. rewrite Forall_forall in Hsame.
    assert (Hpk : "unit_id" ∈ Unit_primary_key).
    { unfold Unit_primary_key, scan_pk.
      repeat (apply elem_of_cons; first [by left|right]). }
    specialize (Hsame _ Hpk). rewrite Hi, Hj in Hsame. injection Hsame as H.
    lia.
Qed.

(** X16.  [ScanSet._make_tuples] never repeats a primary key of
    ScanSet.Unit: in a table whose rows have the heading of the table and in
    which no two rows have the same scan, segmentation method and unit id,
    that is so again after a call for any key of a scan and method,
    whether the call returned or failed on the way. *)
Theorem ScanSet_keeps_unit_keys_unique key s :
  has_heading Unit_heading (stored s T_ScanSet_Unit) →
  Forall (λ a, is_Some (key !! a)) ScanSet_scan_key →
  unit_key_unique (stored s T_ScanSet_Unit) →
  unit_key_unique (stored (ScanSet_make_tuples key s).2 T_ScanSet_Unit).
Proof.
  intros Hhead Hkey Hunique.
  unfold ScanSet_make_tuples. unfold bind at 1. unfold stage_insert1 at 1.
  destruct (stage_rejects T_ScanSet (stored s T_ScanSet) key) as [e|]; [done|].
  unfold bind at 1. unfold query at 1. simpl.
  destruct (next_unit_id _) as [first|e] eqn:Hfirst; [|done].
  unfold bind at 1. unfold query at 1. simpl.
  destruct (fetch_attr "mask_id" _) as [mask_ids|e] eqn:Hmasks; [|done].
  match goal with
  | |- context [insert_units key mask_ids first ?s1] =>
      destruct (insert_units key mask_ids first s1) as [o s2] eqn:Hloop
  end.
  apply insert_units_rows in Hloop as (k & _ & _ & Hrows & _ & _).
  simpl in *. rewrite Hrows. apply unit_key_unique_app; [done|].
  apply next_unit_id_fresh in Hfirst as [_ Hfresh].
  intros r Hr Hsame. apply Hfresh. unfold restrict_by.
  apply list_elem_of_filter. split; [|done].
  apply (matches_proj ScanSet_scan_key Unit_heading); [|by intros a Ha;
    unfold Unit_heading, Unit_primary_key, scan_pk; unfold ScanSet_scan_key in Ha;
    repeat (apply elem_of_cons in Ha as [->|Ha];
            [repeat (apply elem_of_cons; first [by left|right])|]);
    apply not_elem_of_nil in Ha|done|done].
  by eapply Forall_forall in Hhead.
Qed.

End ScanSet.

Section Activity.
Context `{LB : Lab}.

(** X17.  For a spike method other than 'oopsi' and 'stm'
    [Activity._make_tuples] never returns: whatever else happens, the call
    ends with an exception, it has stored no row in Activity.Trace, and it
    has sent no notification. *)
Theorem Activity_other_methods_store_no_trace key s name :
  Activity_method_name key (stored s) = Ok name →
  name ≠ VStr "oopsi" → name ≠ VStr "stm" →
  ∃ e s', Activity_make_tuples key s = (Raise e, s') ∧
          stored s' T_Activity_Trace = stored s T_Activity_Trace ∧
          shown s' = shown s ++ [EvPrintActivity key].
Proof.
  intros Hname Hoopsi Hstm. unfold Activity_make_tuples.
  unfold bind at 1. unfold show at 1, modify at 1.
  unfold bind at 1. unfold query at 1. simpl.
  destruct (Activity_fps key (stored s)) as [fps|e]; [|by eexists _, _].
  unfold bind at 1. unfold query at 1. simpl.
  destruct (Activity_units key (stored s)) as [units|e]; [|by eexists _, _].
  unfold bind at 1. unfold stage_insert1 at 1. simpl.
  destruct (stage_rejects T_Activity (stored s T_Activity) key) as [e|];
    [by eexists _, _|].
  unfold bind at 1. unfold query at 1. simpl.
  assert (Hsame : Activity_method_name key
            (λ t, if decide (t = T_Activity) then stored s t ++ [key]
                  else stored s t) = Ok name) by done.
  rewrite Hsame. unfold bind at 1.
  rewrite decide_False by done. rewrite decide_False by done.
  destruct (decide (name = VStr "nmf")) as [Hnmf|Hnmf].
  - unfold bind at 1, lift at 1.
    destruct import_caiman_interface as [[]|e']; by eexists _, _.
  - by eexists _, _.
Qed.

(** X18.  When the reads succeed and the database accepts the row,
    [Activity._make_tuples] has stored the key in Activity by the time it
    looks at the spike method: for the method 'nmf' (its module imported)
    and for a method it does not know, the call ends with
    NotImplementedError and leaves the row of the key in Activity, without
    a trace. *)
Theorem Activity_row_is_stored_before_method_is_checked
    key s fps units name :
  Activity_fps key (stored s) = Ok fps →
  Activity_units key (stored s) = Ok units →
  stage_rejects T_Activity (stored s T_Activity) key = None →
  Activity_method_name key (stored s) = Ok name →
  name ≠ VStr "oopsi" → name ≠ VStr "stm" →
  (name = VStr "nmf" → import_caiman_interface = Ok tt) →
  ∃ s', Activity_make_tuples key s
        = (Raise (NotImplementedError
                    (if decide (name = VStr "nmf")
                     then "NMF not yet implemented"
                     else method_not_implemented name)), s') ∧
        stored s' T_Activity = stored s T_Activity ++ [key] ∧
        stored s' T_Activity_Trace = stored s T_Activity_Trace.
Proof.
  intros Hfps Hunits Hacc Hname Hoopsi Hstm Himport.
  unfold Activity_make_tuples.
  unfold bind at 1. unfold show at 1, modify at 1.
  unfold bind at 1. unfold query at 1. simpl. rewrite Hfps.
  unfold bind at 1. unfold query at 1. simpl. rewrite Hunits.
  unfold bind at 1. unfold stage_insert1 at 1. simpl. rewrite Hacc.
  unfold bind at 1. unfold query at 1. simpl.
  assert (Hsame : Activity_method_name key
            (λ t, if decide (t = T_Activity) then stored s t ++ [key]
                  else stored s t) = Ok name) by done.
  rewrite Hsame. unfold bind at 1.
  rewrite decide_False by done. rewrite decide_False by done.
  destruct (decide (name = VStr "nmf")) as [Hnmf|Hnmf].
  - unfold bind at 1, lift at 1. rewrite (Himport Hnmf).
    eexists. split; [done|]. done.
  - eexists. split; [done|]. done.
Qed.

End Activity.

Import ResoDemo.

Lemma scanset_demo :
  ScanSet_make_tuples (LB:=demo_lab) (seg_key 2) scanset_start
  = (Ok tt, scanset_done).
Proof.
  unfold scanset_done.
  assert (H : (ScanSet_make_tuples (LB:=demo_lab) (seg_key 2) scanset_start).1
              = Ok tt) by by_evaluation.
  destruct (ScanSet_make_tuples (LB:=demo_lab) (seg_key 2) scanset_start).
  simpl in *. by subst.
Qed.

Lemma ScanSet_numbers_units_consecutively_witness :
  ∃ first mask_ids,
    fetch_attr "mask_id"
      (restrict_by (stored scanset_start T_Segmentation_Mask) (seg_key 2))
    = Ok mask_ids ∧
    stored scanset_done T_ScanSet = stored scanset_start T_ScanSet ++ [seg_key 2] ∧
    stored scanset_done T_ScanSet_Unit
    = stored scanset_start T_ScanSet_Unit
      ++ numbered_units (seg_key 2) first mask_ids ∧
    (restrict_by (stored scanset_start T_ScanSet_Unit)
       (proj ScanSet_scan_key (seg_key 2)) = [] → first = 1) ∧
    ∀ r, r ∈ restrict_by (stored scanset_start T_ScanSet_Unit)
               (proj ScanSet_scan_key (seg_key 2)) →
         ∃ n, r !! "unit_id" = Some (VInt n) ∧ n < first.
Proof.
  apply (ScanSet_numbers_units_consecutively (LB:=demo_lab)
           (seg_key 2) scanset_start scanset_done).
  exact scanset_demo.
Defined.

(** In the example the two masks of the second slice become the units 2
    and 3. *)
Lemma scanset_demo_units :
  stored scanset_done T_ScanSet_Unit
  = [unit_row 1 1 1; unit_row 2 1 2; unit_row 2 2 3].
Proof. by_evaluation. Qed.

Lemma ScanSet_keeps_unit_keys_unique_witness :
  unit_key_unique
    (stored (ScanSet_make_tuples (LB:=demo_lab) (seg_key 2) scanset_start).2
       T_ScanSet_Unit).
Proof.
  apply (ScanSet_keeps_unit_keys_unique (LB:=demo_lab) (seg_key 2) scanset_start).
  - by_evaluation.
  - by_evaluation.
  - intros [|i] [|j] r1 r2 Hi Hj _; try done;
      simpl in Hi, Hj; by try apply lookup_nil_Some in Hi.
Defined.

Lemma Activity_other_methods_store_no_trace_witness :
  ∃ e s', Activity_make_tuples (LB:=demo_lab) activity_key activity_start
          = (Raise e, s') ∧
          stored s' T_Activity_Trace = stored activity_start T_Activity_Trace ∧
          shown s' = shown activity_start ++ [EvPrintActivity activity_key].
Proof.
  apply (Activity_other_methods_store_no_trace (LB:=demo_lab)
           activity_key activity_start (VStr "nmf")).
  - by_evaluation.
  - done.
  - done.
Defined.

Lemma Activity_row_is_stored_before_method_is_checked_witness :
  ∃ s', Activity_make_tuples (LB:=demo_lab) activity_key activity_start
        = (Raise (NotImplementedError
                    (if decide (VStr "nmf" = VStr "nmf")
                     then "NMF not yet implemented"
                     else method_not_implemented (VStr "nmf"))), s') ∧
        stored s' T_Activity = stored activity_start T_Activity ++ [activity_key] ∧
        stored s' T_Activity_Trace = stored activity_start T_Activity_Trace.
Proof.
  apply (Activity_row_is_stored_before_method_is_checked (LB:=demo_lab)
           activity_key activity_start (flt 30 0)
           [(VInt 2, VStr "<trace 1>"); (VInt 3, VStr "<trace 2>")]
           (VStr "nmf")).
  - by_evaluation.
  - by_evaluation.
  - reflexivity.
  - by_evaluation.
  - done.
  - done.
  - reflexivity.
Defined.

End StageFacts.

(** ** The overridden deletes of the segmentation tables *)

Module DeleteFacts.
Import Py Dj Reso DjFacts ResoFacts.

Lemma restrict_nil (a : list row) : restrict a [] = [].
Proof.
  unfold restrict. induction a as [|r a IH]; [done|].
  rewrite filter_cons_False; [done|]. intros H. by apply Exists_nil in H.
Qed.

Section Delete.
Context `{FW : Framework}.

Lemma if_nonempty_requested tbl rel s :
  if_nonempty rel (framework_delete tbl rel) s
  = (Ok tt, {| seg_rows := after_request tbl rel (seg_rows s);
               deletes := deletes s ++ requested tbl rel (seg_rows s) |}).
Proof.
  unfold if_nonempty, framework_delete, modify, requested, after_request.
  destruct (nonempty (rel (seg_rows s))); [done|].
  rewrite app_nil_r. by destruct s.
Qed.

(** X24.  The three overridden deletes reach into the other tables before
    they delete their own rows, and return normally.
    [Segmentation.delete] makes exactly these requests to the framework, in
    this order: a delete of [ManualSegmentation() & self] when that has
    rows, a delete of [NMF() & self] when that has rows, a delete of
    [self] when that has rows; [NMF.delete] and
    [ManualSegmentation.delete] a delete of [Segmentation() & self] when
    that has rows, then a delete of [self] when that has rows.  Each
    relation is evaluated on the tables as the requests before it left
    them, and the tables at the end are those the last request left. *)
Theorem overridden_deletes_take_own_rows_last self s :
  Segmentation_delete self s
  = (Ok tt,
     {| seg_rows :=
          after_requests
            [(ManualSegmentation, rows_of_self ManualSegmentation self);
             (NMF, rows_of_self NMF self);
             (Segmentation, self)] (seg_rows s);
        deletes :=
          deletes s ++
          requests
            [(ManualSegmentation, rows_of_self ManualSegmentation self);
             (NMF, rows_of_self NMF self);
             (Segmentation, self)] (seg_rows s) |}) ∧
  NMF_delete self s
  = (Ok tt,
     {| seg_rows :=
          after_requests
            [(Segmentation, rows_of_self Segmentation self); (NMF, self)]
            (seg_rows s);
        deletes :=
          deletes s ++
          requests
            [(Segmentation, rows_of_self Segmentation self); (NMF, self)]
            (seg_rows s) |}) ∧
  ManualSegmentation_delete self s
  = (Ok tt,
     {| seg_rows :=
          after_requests
            [(Segmentation, rows_of_self Segmentation self);
             (ManualSegmentation, self)] (seg_rows s);
        deletes :=
          deletes s ++
          requests
            [(Segmentation, rows_of_self Segmentation self);
             (ManualSegmentation, self)] (seg_rows s) |}).
Proof.
  unfold Segmentation_delete, NMF_delete, ManualSegmentation_delete, bind.
  fold (rows_of_self ManualSegmentation self) (rows_of_self NMF self)
    (rows_of_self Segmentation self).
  repeat split; repeat (rewrite if_nonempty_requested; simpl);
    by rewrite ?app_nil_r, <- ?app_assoc.
Qed.

(** X25.  Called on a relation without rows, each of the three overridden
    deletes returns without asking the framework for anything: no table
    is touched. *)
Theorem delete_of_no_rows_does_nothing self s :
  self (seg_rows s) = [] →
  Segmentation_delete self s = (Ok tt, s) ∧
  NMF_delete self s = (Ok tt, s) ∧
  ManualSegmentation_delete self s = (Ok tt, s).
Proof.
  intros Hself.
  unfold Segmentation_delete, NMF_delete, ManualSegmentation_delete,
    bind, if_nonempty.
  repeat split; repeat first [rewrite Hself | rewrite restrict_nil | progress simpl];
    done.
Qed.

End Delete.

Import ResoDemo.

Lemma delete_of_no_rows_does_nothing_witness :
  Segmentation_delete (FW:=demo_framework) (λ db, db Segmentation)
    no_segmentation = (Ok tt, no_segmentation) ∧
  NMF_delete (FW:=demo_framework) (λ db, db Segmentation)
    no_segmentation = (Ok tt, no_segmentation) ∧
  ManualSegmentation_delete (FW:=demo_framework) (λ db, db Segmentation)
    no_segmentation = (Ok tt, no_segmentation).
Proof.
  apply (delete_of_no_rows_does_nothing (FW:=demo_framework)
           (λ db, db Segmentation) no_segmentation).
  reflexivity.
Defined.

(** Deleting the segmentation of slice 1, which has a manual and an NMF
    segmentation, asks for three deletes, the one of Segmentation last;
    deleting the NMF segmentation of slice 2 asks for the delete of its
    Segmentation row first. *)
Lemma deletes_of_two_segmentations :
  deletes (Segmentation_delete (FW:=demo_framework) (segmentation_of_slice 1)
             two_segmentations).2
  = [(ManualSegmentation, [seg_key 1]); (NMF, [seg_key 1]);
     (Segmentation, [seg_key 1])] ∧
  deletes (NMF_delete (FW:=demo_framework) (nmf_of_slice 2)
             two_segmentations).2
  = [(Segmentation, [seg_key 2]); (NMF, [seg_key 2])] ∧
  (∀ t, seg_rows (NMF_delete (FW:=demo_framework) (nmf_of_slice 2)
                    two_segmentations).2 t
        = match t with
          | ManualSegmentation => [seg_key 1]
          | NMF => [seg_key 1]
          | Segmentation => [seg_key 1]
          end).
Proof.
  split; [by_evaluation|]. split; [by_evaluation|].
  intros []; by_evaluation.
Qed.

End DeleteFacts.

(** ** The estimate of the number of components, where it is made *)

Module EstimateFacts.
Import Py Dj Reso.

Section Estimate.
Context `{AR : Arith}.

(** X26.  For the compartments 'soma' and 'axon'
    [estimate_num_components] returns [int(round(n))], where [n] is the
    volume of the slice (its width times its height times the assumed
    thickness of 10) times 0.0001 for a soma and times 0.001, ten times as
    much, for an axon; nothing is constructed on the way. *)
Theorem recognized_compartments_are_estimated
    scan_info self r task c h w wh vol n rounded k evs :
  restrict scan_info self = [r] →
  r !! "um_height" = Some h → r !! "um_width" = Some w →
  py_mul w h = Ok wh → py_mul wh (VInt 10) = Ok vol →
  self = [task] → task !! "compartment" = Some (VStr c) →
  c = "soma" ∨ c = "axon" →
  py_mul vol (VFloat (Decimal 1 (if decide (c = "soma") then -4 else -3)))
  = Ok n →
  py_round n = Ok rounded → py_int rounded = Ok k →
  estimate_num_components scan_info self evs = (Ok k, evs).
Proof.
  intros Hr Hh Hw Hwh Hvol -> Hc Hcase Hn Hround Hint.
  unfold estimate_num_components, bind, lift, getitem.
  rewrite Hr. simpl. rewrite Hh, Hw, Hwh, Hvol, Hc. simpl.
  destruct Hcase as [->| ->].
  - rewrite decide_True in Hn by done. rewrite decide_True by done.
    rewrite Hn. simpl. by rewrite Hround, Hint.
  - rewrite decide_False in Hn by done. rewrite decide_False by done.
    rewrite decide_True by done.
    rewrite Hn. simpl. by rewrite Hround, Hint.
Qed.

(** X27.  [estimate_num_components] is for a single task: called on a
    relation that does not hold exactly one task it ends with the
    framework's error for [fetch1], even when the tasks are of one scan
    and the dimensions of the slice were found. *)
Theorem estimate_needs_exactly_one_task scan_info self r h w wh vol evs :
  restrict scan_info self = [r] →
  r !! "um_height" = Some h → r !! "um_width" = Some w →
  py_mul w h = Ok wh → py_mul wh (VInt 10) = Ok vol →
  length self ≠ 1%nat →
  estimate_num_components scan_info self evs = (Raise DataJointError, evs).
Proof.
  intros Hr Hh Hw Hwh Hvol Hlen.
  unfold estimate_num_components, bind, lift, getitem.
  rewrite Hr. simpl. rewrite Hh, Hw, Hwh, Hvol.
  by destruct self as [|t1 [|t2 l]].
Qed.

End Estimate.

Import ResoDemo.

Lemma recognized_compartments_are_estimated_witness :
  estimate_num_components (AR:=decimal_arith) [scan_info_row 1 1 1]
    [task_row 1 1 1 1 1 "axon"] []
  = (Ok 1600, []).
Proof.
  apply (recognized_compartments_are_estimated (AR:=decimal_arith)
           [scan_info_row 1 1 1] [task_row 1 1 1 1 1 "axon"]
           (scan_info_row 1 1 1) (task_row 1 1 1 1 1 "axon") "axon"
           (VInt 400) (VInt 400) (VInt 160000) (VInt 1600000)
           (VFloat (Decimal 1600000 (-3))) (VInt 1600) 1600 []).
  - by_evaluation.
  - by_evaluation.
  - by_evaluation.
  - reflexivity.
  - reflexivity.
  - reflexivity.
  - by_evaluation.
  - by right.
  - reflexivity.
  - reflexivity.
  - reflexivity.
Defined.

Lemma estimate_needs_exactly_one_task_witness :
  estimate_num_components (AR:=decimal_arith) [scan_info_row 1 1 1]
    [task_row 1 1 1 1 1 "soma"; task_row 1 1 1 2 1 "soma"] []
  = (Raise DataJointError, []).
Proof.
  apply (estimate_needs_exactly_one_task (AR:=decimal_arith)
           [scan_info_row 1 1 1]
           [task_row 1 1 1 1 1 "soma"; task_row 1 1 1 2 1 "soma"]
           (scan_info_row 1 1 1)
           (VInt 400) (VInt 400) (VInt 160000) (VInt 1600000) []).
  - by_evaluation.
  - by_evaluation.
  - by_evaluation.
  - reflexivity.
  - reflexivity.
  - simpl. lia.
Defined.

End EstimateFacts.

(** ** Eye tracking (aodtrk.py) *)

Module AodtrkFacts.
Import Py Dj Aodtrk.

Section TrackInfo.
Context `{EV : Env}.

(** C9.  Whatever the key, [TrackInfo._make_tuples] raises and inserts
    nothing; for a key that selects one scan with a file name (the keys
    [populate] passes), the exception is the UnboundLocalError of reading
    [words] before any assignment to it. *)
Theorem TrackInfo_make_tuples_reads_unbound_words scan key s :
  raised (TrackInfo_make_tuples scan key s).1 ∧
  track_info (TrackInfo_make_tuples scan key s).2 = track_info s ∧
  eye_frame (TrackInfo_make_tuples scan key s).2 = eye_frame s ∧
  detection (TrackInfo_make_tuples scan key s).2 = detection s ∧
  (∀ r p, restrict_by scan key = [r] → r !! "hdf5_file" = Some (VStr p) →
          (TrackInfo_make_tuples scan key s).1
          = Raise (UnboundLocalError "words")).
Proof.
  unfold TrackInfo_make_tuples, bind, emit, modify, lift, load_local, raise.
  simpl.
  destruct (fetch1 (restrict_by scan key)) as [r|e] eqn:Hf; simpl;
    [destruct (getitem r "hdf5_file") as [path|e] eqn:Hg; simpl;
     [destruct (val_replace "\" "/" path) as [v|e] eqn:Hv; simpl|]|];
    repeat split; try done;
    intros r' p Hr' Hp; rewrite Hr' in Hf; try discriminate;
    injection Hf as ->; unfold getitem in Hg; rewrite Hp in Hg;
    try discriminate; injection Hg as <-; discriminate.
Qed.

End TrackInfo.

Section EyeFrame.
Context `{EV : Env}.

Variable P : row → Prop.
Variable Q : event → Prop.

Lemma grows_refl s : grows P Q s s.
Proof.
  exists [], [], []. rewrite !app_nil_r. repeat split; try done; by constructor.
Qed.

Lemma grows_trans s1 s2 s3 : grows P Q s1 s2 → grows P Q s2 s3 → grows P Q s1 s3.
Proof.
  intros (f1 & d1 & e1 & H1 & H2 & H3 & H4 & H5 & H6 & H7)
         (f2 & d2 & e2 & G1 & G2 & G3 & G4 & G5 & G6 & G7).
  exists (f1 ++ f2), (d1 ++ d2), (e1 ++ e2).
  rewrite G1, G2, G3, G4, H1, H2, H3, H4, !app_assoc.
  repeat split; try done; by apply Forall_app.
Qed.

(** Sequencing keeps the property. *)
Lemma grows_bind {A B} (c : M state A) (k : A → M state B) s :
  grows P Q s (c s).2 →
  (∀ a s', grows P Q s' (k a s').2) →
  grows P Q s (bind c k s).2.
Proof.
  intros Hc Hk. unfold bind. destruct (c s) as [[a|e] s']; simpl in *.
  - eapply grows_trans; [exact Hc|apply Hk].
  - exact Hc.
Qed.

Lemma grows_lift {A} (o : outcome A) s : grows P Q s (lift o s).2.
Proof. apply grows_refl. Qed.

Lemma grows_ret {A} (a : A) s : grows P Q s (ret a s).2.
Proof. apply grows_refl. Qed.

Lemma grows_emit e s : Q e → grows P Q s (emit e s).2.
Proof.
  intros He. exists [], [], [e]. simpl. rewrite !app_nil_r.
  repeat split; try done; by repeat constructor.
Qed.

Lemma grows_insert1_EyeFrame r s : P r → grows P Q s (insert1 EyeFrame r s).2.
Proof.
  intros Hr. unfold insert1. destruct (rejects _ _ _); [apply grows_refl|].
  exists [r], [], []. simpl. rewrite !app_nil_r.
  repeat split; try done; by repeat constructor.
Qed.

Lemma grows_insert1_Detection r s : P r → grows P Q s (insert1 Detection r s).2.
Proof.
  intros Hr. unfold insert1. destruct (rejects _ _ _); [apply grows_refl|].
  exists [], [r], []. simpl. rewrite !app_nil_r.
  repeat split; try done; by repeat constructor.
Qed.

End EyeFrame.

Section EyeFrameRows.
Context `{EV : Env}.

(** The loop inserts rows that carry the parameter id of the key, and
    prints nothing. *)
Lemma insert_frames_grows Q v trace : ∀ key s,
  param_id_is v key →
  grows (param_id_is v) Q s (insert_frames key trace s).2.
Proof.
  induction trace as [|[index data] rest IH]; intros key s Hkey.
  - apply grows_refl.
  - assert (Hkey' : param_id_is v (<["frame" := index]> key)).
    { unfold param_id_is. by rewrite lookup_insert_ne. }
    simpl. apply grows_bind; [by apply grows_insert1_EyeFrame|].
    intros _ s1. apply grows_bind; [apply grows_lift|].
    intros pupil_x s2. apply grows_bind.
    + destruct (notnull pupil_x); [|apply grows_ret].
      apply grows_insert1_Detection. unfold param_id_is in *.
      by apply lookup_union_Some_l.
    + intros _ s3. by apply IH.
Qed.

(** A call adds rows of parameter set 0, and tracker calls with set 0
    and the overrides, whether it returns or raises. *)
Lemma EyeFrame_make_tuples_grows param_eye_frame track roi key s :
  grows (param_id_is (VInt 0)) (tracks_with_set_0 param_eye_frame) s
        (EyeFrame_make_tuples param_eye_frame track roi key s).2.
Proof.
  unfold EyeFrame_make_tuples.
  unfold bind at 1. unfold lift at 1.
  destruct (list_item _ 0) as [param|e] eqn:Hparam; [|apply grows_refl].
  assert (Hin : param ∈ restrict_eq param_eye_frame "pupil_tracker_param_id" 0).
  { unfold list_item in Hparam. simpl in Hparam.
    destruct (restrict_eq param_eye_frame "pupil_tracker_param_id" 0)
      as [|p0 l]; [discriminate|].
    injection Hparam as ->. by left. }
  apply list_elem_of_filter in Hin as [Hid Hin].
  unfold bind at 1. unfold lift at 1. unfold getitem at 1. rewrite Hid.
  do 7 (apply grows_bind; [apply grows_lift|]; intros ? ?).
  apply grows_bind.
  { apply grows_emit. intros p v r [= <- <- <-].
    split; [by rewrite !lookup_insert_ne|].
    split; [by rewrite lookup_insert_ne, lookup_insert_eq|].
    split; [by rewrite lookup_insert_eq|].
    by exists param. }
  intros _ ?. apply grows_bind; [apply grows_lift|]. intros trace ?.
  apply grows_bind; [apply grows_emit; by intros p v r [=]|]. intros _ ?.
  apply insert_frames_grows. unfold param_id_is. by rewrite lookup_insert_eq.
Qed.

(** C10.  Whatever the candidate key (and whether the call succeeds or
    fails on the way), every row [EyeFrame._make_tuples] inserts into
    EyeFrame and into EyeFrame.Detection has [pupil_tracker_param_id = 0],
    and the tracker is only ever constructed with parameter set 0 in which
    [centre_dislocation_penalty] is 0.001 and [distance_sq_pow] is 1. *)
Theorem EyeFrame_rows_have_param_id_0 param_eye_frame track roi key s :
  ∃ frames dets evs,
    eye_frame (EyeFrame_make_tuples param_eye_frame track roi key s).2
    = eye_frame s ++ frames ∧
    detection (EyeFrame_make_tuples param_eye_frame track roi key s).2
    = detection s ++ dets ∧
    out (EyeFrame_make_tuples param_eye_frame track roi key s).2
    = out s ++ evs ∧
    track_info (EyeFrame_make_tuples param_eye_frame track roi key s).2
    = track_info s ∧
    Forall (param_id_is (VInt 0)) frames ∧
    Forall (param_id_is (VInt 0)) dets ∧
    Forall (tracks_with_set_0 param_eye_frame) evs.
Proof. exact (EyeFrame_make_tuples_grows param_eye_frame track roi key s). Qed.

(** Every EyeFrame row there ever is has [pupil_tracker_param_id = 0], over
    any sequence of calls on any keys, from a table that has only such
    rows (the empty one, to begin with). *)
Lemma EyeFrame_param_id_0_invariant calls : ∀ s,
  Forall (param_id_is (VInt 0)) (eye_frame s) →
  Forall (param_id_is (VInt 0)) (eye_frame (make_all calls s)).
Proof.
  induction calls as [|[[[pef track] roi] key] rest IH]; intros s Hs; [done|].
  simpl. apply IH.
  destruct (EyeFrame_make_tuples_grows pef track roi key s)
    as (frames & _ & _ & -> & _ & _ & _ & Hf & _).
  by apply Forall_app.
Qed.

End EyeFrameRows.

Import AodtrkDemo.

(** The candidate key asks for parameter set 1; the rows are stored under
    set 0, and the tracker was run with set 0 and the two overrides. *)
Lemma key_with_param_1_is_stored_under_0 :
  (EyeFrame_make_tuples ParamEyeFrame_contents track_table roi_table
     key_with_param_1 empty).1 = Ok tt ∧
  eye_frame (EyeFrame_make_tuples ParamEyeFrame_contents track_table
               roi_table key_with_param_1 empty).2
  = [ <["frame" := VInt 0]> (<["pupil_tracker_param_id" := VInt 0]> scan_key);
      <["frame" := VInt 1]> (<["pupil_tracker_param_id" := VInt 0]> scan_key) ].
Proof. split; by_evaluation. Qed.

(** On the scan of the demonstration the first loop ends in the
    UnboundLocalError and the table stays empty. *)
Lemma TrackInfo_make_tuples_reads_unbound_words_witness :
  (TrackInfo_make_tuples scan_table scan_key empty).1
  = Raise (UnboundLocalError "words") ∧
  track_info (TrackInfo_make_tuples scan_table scan_key empty).2 = [].
Proof.
  destruct (TrackInfo_make_tuples_reads_unbound_words scan_table scan_key empty)
    as (_ & Hrows & _ & _ & Hexn).
  split; [|exact Hrows].
  apply (Hexn (scan_key ∪ {[ "hdf5_file" := VStr "M:\Mouse\m7\2016-01-01_10-00-00\scan.h5" ]})
              "M:\Mouse\m7\2016-01-01_10-00-00\scan.h5").
  - by_evaluation.
  - by_evaluation.
Defined.

End AodtrkFacts.

(** ** More on eye tracking: what a call stores, and the frame reader *)

Module AodtrkMore.
Import Py Dj Aodtrk AodtrkFacts.

Section EyeFrame.
Context `{EV : Env}.

(** A pass over a trace, complete or not: the detections it stored extend
    frames it stored. *)
Lemma insert_frames_have_frames trace : ∀ key s o s',
  insert_frames key trace s = (o, s') →
  ∃ frames dets,
    eye_frame s' = eye_frame s ++ frames ∧
    detection s' = detection s ++ dets ∧
    track_info s' = track_info s ∧
    out s' = out s ∧
    detections_have_frames frames dets.
Proof.
  assert (Hnone : ∀ frames, detections_have_frames frames []).
  { intros frames d Hd. by apply not_elem_of_nil in Hd. }
  induction trace as [|[index data] rest IH]; intros key s o s'.
  - simpl. intros [= <- <-]. exists [], []. by rewrite !app_nil_r.
  - simpl. unfold bind at 1. unfold insert1 at 1. simpl.
    destruct (rejects EyeFrame (eye_frame s) (<["frame":=index]> key)) as [e|].
    { intros [= <- <-]. exists [], []. by rewrite !app_nil_r. }
    unfold bind at 1. unfold lift at 1.
    destruct (getitem data "pupil_x") as [pupil_x|e].
    2:{ intros [= <- <-]. exists [<["frame":=index]> key], []. simpl.
        by rewrite !app_nil_r. }
    unfold bind at 1. destruct (notnull pupil_x).
    + unfold insert1 at 1. simpl.
      destruct (rejects Detection (detection s) _) as [e|].
      { intros [= <- <-]. exists [<["frame":=index]> key], []. simpl.
        by rewrite !app_nil_r. }
      intros H. apply IH in H as (frames & dets & Hf & Hd & Ht & Ho & Hhave).
      simpl in *.
      exists (<["frame":=index]> key :: frames),
             ((<["frame":=index]> key ∪ data) :: dets).
      rewrite Hf, Hd, Ht, Ho, <- !app_assoc. repeat split; try done.
      intros d Hin. apply elem_of_cons in Hin as [->|Hin].
      * exists (<["frame":=index]> key). split; [apply elem_of_cons; by left|].
        apply map_union_subseteq_l.
      * destruct (Hhave d Hin) as (f & Hfin & Hsub).
        exists f. split; [apply elem_of_cons; by right|done].
    + unfold ret at 1.
      intros H. apply IH in H as (frames & dets & Hf & Hd & Ht & Ho & Hhave).
      simpl in *.
      exists (<["frame":=index]> key :: frames), dets.
      rewrite Hf, Hd, Ht, Ho, <- !app_assoc. repeat split; try done.
      intros d Hin. destruct (Hhave d Hin) as (f & Hfin & Hsub).
      exists f. split; [apply elem_of_cons; by right|done].
Qed.

(** Up to the loop a call writes no row: it ends there, or goes into the
    loop with the tables as they were. *)
Lemma EyeFrame_make_tuples_reaches param_eye_frame track roi key s :
  ∃ key' trace s1,
    eye_frame s1 = eye_frame s ∧ detection s1 = detection s ∧
    track_info s1 = track_info s ∧
    (EyeFrame_make_tuples param_eye_frame track roi key s).2
    = (insert_frames key' trace s1).2.
Proof.
  unfold EyeFrame_make_tuples.
  repeat (unfold bind at 1; unfold lift at 1;
          match goal with
          | |- context [match ?o with Ok _ => _ | Raise _ => _ end] =>
              destruct o; [|by exists key, [], s]
          end).
  unfold bind at 1. unfold emit at 1, modify at 1.
  unfold bind at 1. unfold lift at 1.
  destruct (track_without_svm _ _ _) as [trace|e].
  - unfold bind at 1. unfold emit at 1, modify at 1. simpl.
    eexists _, trace, _. split; [|split; [|split]]; [| | |reflexivity]; done.
  - simpl. eexists key, [], _. split; [|split; [|split]]; [| | |reflexivity]; done.
Qed.

(** X19.  Whether a call of [EyeFrame._make_tuples] returns or fails on
    the way, every row it has stored in EyeFrame.Detection extends a row
    it has stored in EyeFrame: a detection is only stored for a frame that
    was stored in the same call, right before it. *)
Theorem EyeFrame_detections_have_frames param_eye_frame track roi key s :
  ∃ frames dets,
    eye_frame (EyeFrame_make_tuples param_eye_frame track roi key s).2
    = eye_frame s ++ frames ∧
    detection (EyeFrame_make_tuples param_eye_frame track roi key s).2
    = detection s ++ dets ∧
    detections_have_frames frames dets.
Proof.
  destruct (EyeFrame_make_tuples_reaches param_eye_frame track roi key s)
    as (key' & trace & s1 & Hf1 & Hd1 & _ & ->).
  destruct (insert_frames key' trace s1) as [o s'] eqn:Hloop.
  apply insert_frames_have_frames in Hloop
    as (frames & dets & Hf & Hd & _ & _ & Hhave). simpl.
  exists frames, dets. by rewrite Hf, Hd, Hf1, Hd1.
Qed.

(** X20.  Without exactly one TrackInfo row, or without exactly one Roi
    row, for the key, [EyeFrame._make_tuples] ends with the framework's
    error for [fetch1] before anything else is done: the tracker is not
    run, nothing is printed and no row is stored. *)
Theorem EyeFrame_without_video_or_roi_changes_nothing
    param_eye_frame track roi key s :
  restrict_eq param_eye_frame "pupil_tracker_param_id" 0 ≠ [] →
  length (restrict_by track (<["pupil_tracker_param_id" := VInt 0]> key)) ≠ 1%nat ∨
  (∃ r v, restrict_by track (<["pupil_tracker_param_id" := VInt 0]> key) = [r] ∧
          r !! "base_video_path" = Some v ∧
          length (restrict_by roi (<["pupil_tracker_param_id" := VInt 0]> key))
          ≠ 1%nat) →
  EyeFrame_make_tuples param_eye_frame track roi key s
  = (Raise DataJointError, s).
Proof.
  intros Hparam Hmissing. unfold EyeFrame_make_tuples.
  unfold bind at 1. unfold lift at 1.
  destruct (restrict_eq param_eye_frame "pupil_tracker_param_id" 0)
    as [|param l] eqn:Hsel; [done|].
  assert (Hid : param !! "pupil_tracker_param_id" = Some (VInt 0)).
  { assert (Hin : param ∈ restrict_eq param_eye_frame "pupil_tracker_param_id" 0)
      by (rewrite Hsel; apply elem_of_cons; by left).
    by apply list_elem_of_filter in Hin as [Hin _]. }
  simpl. unfold bind at 1. unfold lift at 1. unfold getitem at 1. rewrite Hid.
  unfold bind at 1. unfold lift at 1.
  assert (Hfetch : ∀ l : list row, length l ≠ 1%nat → fetch1 l = Raise DataJointError).
  { intros [|x [|y l']] Hl; done. }
  destruct Hmissing as [Htrack|(r & v & Htrack & Hv & Hroi)].
  - by rewrite (Hfetch _ Htrack).
  - rewrite Htrack. simpl. unfold bind at 1. unfold lift at 1.
    unfold getitem at 1. rewrite Hv.
    unfold bind at 1. unfold lift at 1. by rewrite (Hfetch _ Hroi).
Qed.

Lemma frame_rows_insert key index trace :
  frame_rows (<["frame" := index]> key) trace = frame_rows key trace.
Proof.
  unfold frame_rows. apply list_fmap_ext. intros _ p _. simpl.
  apply insert_insert_eq.
Qed.

Lemma detection_rows_insert key index trace :
  detection_rows (<["frame" := index]> key) trace = detection_rows key trace.
Proof.
  unfold detection_rows. apply list_omap_ext.
  apply Forall2_same_length_lookup. split; [done|].
  intros i p q Hp Hq. rewrite Hp in Hq. injection Hq as <-.
  by rewrite insert_insert_eq.
Qed.

(** A pass over the whole trace. *)
Lemma insert_frames_Ok trace : ∀ key s s',
  insert_frames key trace s = (Ok tt, s') →
  eye_frame s' = eye_frame s ++ frame_rows key trace ∧
  detection s' = detection s ++ detection_rows key trace ∧
  Forall (λ p : val * row, is_Some (p.2 !! "pupil_x")) trace.
Proof.
  induction trace as [|[index data] rest IH]; intros key s s'.
  - simpl. intros [= <-]. by rewrite !app_nil_r.
  - simpl. unfold bind at 1. unfold insert1 at 1. simpl.
    destruct (rejects EyeFrame (eye_frame s) (<["frame":=index]> key)) as [e|];
      [done|].
    unfold bind at 1. unfold lift at 1. unfold getitem.
    destruct (data !! "pupil_x") as [pupil_x|] eqn:Hx; [|done].
    unfold bind at 1. destruct (notnull pupil_x).
    + unfold insert1 at 1. simpl.
      destruct (rejects Detection (detection s) _) as [e|]; [done|].
      intros H. apply IH in H as (Hf & Hd & Hall). simpl in *.
      rewrite frame_rows_insert in Hf. rewrite detection_rows_insert in Hd.
      rewrite Hf, Hd, <- !app_assoc. repeat split; try done.
      constructor; [by eexists|done].
    + unfold ret at 1.
      intros H. apply IH in H as (Hf & Hd & Hall). simpl in *.
      rewrite frame_rows_insert in Hf. rewrite detection_rows_insert in Hd.
      rewrite Hf, Hd, <- !app_assoc. repeat split; try done.
      constructor; [by eexists|done].
Qed.

(** X21.  A call of [EyeFrame._make_tuples] that returns has run the
    tracker once and has stored, under parameter set 0, a row of EyeFrame
    for every frame of the trace, in the order of the trace, and a row of
    EyeFrame.Detection, with the frame's measurements, for exactly the
    frames whose [pupil_x] is not null. *)
Theorem EyeFrame_stores_a_row_per_frame param_eye_frame track roi key s s' :
  EyeFrame_make_tuples param_eye_frame track roi key s = (Ok tt, s') →
  ∃ param video_path eye_roi trace,
    track_without_svm param video_path eye_roi = Ok trace ∧
    eye_frame s'
    = eye_frame s
      ++ frame_rows (<["pupil_tracker_param_id" := VInt 0]> key) trace ∧
    detection s'
    = detection s
      ++ detection_rows (<["pupil_tracker_param_id" := VInt 0]> key) trace ∧
    Forall (λ p : val * row, is_Some (p.2 !! "pupil_x")) trace.
Proof.
  unfold EyeFrame_make_tuples.
  unfold bind at 1. unfold lift at 1.
  destruct (list_item _ 0) as [param|e] eqn:Hparam; [|done].
  assert (Hin : param ∈ restrict_eq param_eye_frame "pupil_tracker_param_id" 0).
  { unfold list_item in Hparam. simpl in Hparam.
    destruct (restrict_eq param_eye_frame "pupil_tracker_param_id" 0)
      as [|p0 l]; [discriminate|].
    injection Hparam as ->. by left. }
  apply list_elem_of_filter in Hin as [Hid Hin].
  unfold bind at 1. unfold lift at 1. unfold getitem at 1. rewrite Hid.
  repeat (unfold bind at 1; unfold lift at 1;
          match goal with
          | |- context [match ?o with Ok _ => _ | Raise _ => _ end] =>
              destruct o; [|done]
          end).
  unfold bind at 1. unfold emit at 1, modify at 1.
  unfold bind at 1. unfold lift at 1.
  destruct (track_without_svm _ _ _) as [trace|e] eqn:Htrack; [|done].
  unfold bind at 1. unfold emit at 1, modify at 1. simpl.
  intros H. apply insert_frames_Ok in H as (Hf & Hd & Hall). simpl in *.
  by eexists _, _, _, trace.
Qed.

(** X23.  With the rows that [ParamEyeFrame.contents] ships, the two
    values that [EyeFrame._make_tuples] sets in the parameters change
    nothing: whatever the key and the tables, the tracker is constructed
    with the first row of the contents as it stands. *)
Theorem shipped_parameters_are_used_as_they_are track roi key s :
  ∃ evs,
    out (EyeFrame_make_tuples ParamEyeFrame_contents track roi key s).2
    = out s ++ evs ∧
    Forall (λ e, ∀ param video_path eye_roi,
                   e = EvTrack param video_path eye_roi →
                   Some param = head ParamEyeFrame_contents) evs.
Proof.
  destruct (EyeFrame_make_tuples_grows ParamEyeFrame_contents track roi key s)
    as (_ & _ & evs & _ & _ & Hout & _ & _ & _ & Hevs).
  exists evs. split; [done|]. eapply Forall_impl; [exact Hevs|].
  intros e He param video_path eye_roi ->.
  destruct (He _ _ _ eq_refl) as (_ & _ & _ & row0 & Hin & Hid & ->).
  unfold ParamEyeFrame_contents in Hin.
  apply elem_of_cons in Hin as [->|Hin].
  - by_evaluation.
  - apply list_elem_of_singleton in Hin as ->. exfalso.
    revert Hid. by_evaluation.
Qed.

End EyeFrame.

Section GetFrames.
Context `{VD : Video}.

Lemma get_frames_loop_ends fuel : ∀ fr_count cap,
  0 ≤ fr_count < 1000 → (Z.to_nat (1000 - fr_count) ≤ fuel)%nat →
  ∃ frame reads,
    get_frames_loop fuel fr_count cap (Z.to_nat fr_count) = Some (frame, reads) ∧
    (reads ≤ 1000)%nat ∧ (is_Some frame → reads = 1000%nat).
Proof.
  induction fuel as [|fuel IH]; intros fr_count cap Hc Hfuel; [lia|].
  simpl. destruct (isOpened cap).
  - destruct (read cap) as [frame cap'].
    destruct (fr_count + 1 =? 1000) eqn:Hlast.
    + apply Z.eqb_eq in Hlast. exists frame, (S (Z.to_nat fr_count)).
      split; [done|]. split; lia.
    + apply Z.eqb_neq in Hlast.
      replace (S (Z.to_nat fr_count)) with (Z.to_nat (fr_count + 1)) by lia.
      apply IH; lia.
  - exists None, (Z.to_nat fr_count). split; [done|]. split; [lia|].
    by intros [? ?].
Qed.

(** X22.  [TrackInfo.get_frames] always ends, after at most 1000 reads of
    the video: it returns a frame only as the result of the 1000th read,
    and when the capture is closed before that, or the 1000th read gives
    nothing, it returns [None]. *)
Theorem get_frames_reads_at_most_1000_frames fuel self key :
  (1000 ≤ fuel)%nat →
  ∃ o reads, get_frames fuel self key = Some (o, reads) ∧
             (reads ≤ 1000)%nat ∧
             ∀ frame, o = Ok (Some frame) → reads = 1000%nat.
Proof.
  intros Hfuel. unfold get_frames.
  destruct (_ ≫= _) as [video_file|e].
  - destruct (get_frames_loop_ends fuel 0 (VideoCapture video_file))
      as (frame & reads & Hloop & Hle & Hlast); [lia|lia|].
    change (Z.to_nat 0) with 0%nat in Hloop. rewrite Hloop. exists (Ok frame), reads.
    split; [done|]. split; [done|]. intros f [= ->]. by apply Hlast.
  - exists (Raise e), 0%nat. split; [done|]. split; [lia|]. done.
Qed.

End GetFrames.

Import AodtrkDemo.

Lemma EyeFrame_without_video_or_roi_changes_nothing_witness :
  EyeFrame_make_tuples ParamEyeFrame_contents track_table roi_table
    other_key empty
  = (Raise DataJointError, empty).
Proof.
  apply (EyeFrame_without_video_or_roi_changes_nothing (EV:=demo_env)).
  - by_evaluation.
  - left. by_evaluation.
Defined.

Lemma tracked_demo :
  EyeFrame_make_tuples ParamEyeFrame_contents track_table roi_table
    scan_key empty
  = (Ok tt, tracked).
Proof.
  unfold tracked.
  assert (H : (EyeFrame_make_tuples ParamEyeFrame_contents track_table
                 roi_table scan_key empty).1 = Ok tt) by by_evaluation.
  destruct (EyeFrame_make_tuples ParamEyeFrame_contents track_table roi_table
              scan_key empty).
  simpl in *. by subst.
Qed.

Lemma EyeFrame_stores_a_row_per_frame_witness :
  ∃ param video_path eye_roi trace,
    track_without_svm param video_path eye_roi = Ok trace ∧
    eye_frame tracked
    = eye_frame empty
      ++ frame_rows (<["pupil_tracker_param_id" := VInt 0]> scan_key) trace ∧
    detection tracked
    = detection empty
      ++ detection_rows (<["pupil_tracker_param_id" := VInt 0]> scan_key) trace ∧
    Forall (λ p : val * row, is_Some (p.2 !! "pupil_x")) trace.
Proof.
  apply (EyeFrame_stores_a_row_per_frame (EV:=demo_env)
           ParamEyeFrame_contents track_table roi_table scan_key empty tracked).
  exact tracked_demo.
Defined.

Lemma get_frames_reads_at_most_1000_frames_witness :
  ∃ o reads, get_frames (VD:=short_video) 1000 track_table scan_key
             = Some (o, reads) ∧
             (reads ≤ 1000)%nat ∧
             ∀ frame, o = Ok (Some frame) → reads = 1000%nat.
Proof.
  apply (get_frames_reads_at_most_1000_frames (VD:=short_video)
           1000 track_table scan_key).
  lia.
Defined.

(** The video of three frames is read 1000 times, and nothing comes
    back. *)
Lemma short_video_gives_no_frame :
  get_frames (VD:=short_video) 1000 track_table scan_key
  = Some (Ok None, 1000%nat).
Proof. vm_compute. reflexivity. Qed.

End AodtrkMore.

(** ** Cascading deletion *)

Module CascadeFacts.
Import Dj Cascade.

Section Registry.
Variable reg : list stage.
Hypothesis Hreg : well_registered reg.

Lemma upstream_earlier U d T :
  reg !! U = Some d → T ∈ upstream d → (T < U)%nat.
Proof.
  intros Hd HT. unfold well_registered in Hreg.
  rewrite Forall_forall in Hreg.
  assert (Hin : (U, d) ∈ zip (seq 0 (length reg)) reg).
  { apply list_elem_of_lookup. exists U. apply lookup_zip_Some. split; [|done].
    apply lookup_seq. split; [done|]. by eapply lookup_lt_Some. }
  specialize (Hreg _ Hin). simpl in Hreg. rewrite Forall_forall in Hreg. auto.
Qed.

(** A stage is registered before the stages downstream of it. *)
Lemma reaches_le S T : reaches reg S T → (S ≤ T)%nat.
Proof.
  induction 1 as [|T U d _ IH Hd HT]; [done|].
  pose proof (upstream_earlier U d T Hd HT). lia.
Qed.

Lemma reaches_registered S T :
  reaches reg S T → T = S ∨ (T < length reg)%nat.
Proof.
  destruct 1 as [|T U d _ Hd _]; [by left|]. right. by eapply lookup_lt_Some.
Qed.

Lemma reaches_trans S T U : reaches reg S T → reaches reg T U → reaches reg S U.
Proof.
  intros HST HTU. induction HTU as [|V W d _ IH Hd HV]; [done|].
  by eapply reaches_down.
Qed.

(** The last edge of a path to a stage other than the start. *)
Lemma reaches_inv S U :
  reaches reg S U → U ≠ S →
  ∃ T d, reaches reg S T ∧ reg !! U = Some d ∧ T ∈ upstream d.
Proof. destruct 1 as [|T U d H Hd HT]; [done|]. intros _. by exists T, d. Qed.

Lemma ascending_snoc l k :
  ascending l → (∀ x, x ∈ l → (x < k)%nat) → ascending (l ++ [k]).
Proof.
  intros Hl Hk i j x y Hi Hj Hij.
  apply lookup_snoc_Some in Hi as [[Hi1 Hi2]|[Hi1 Hi2]];
    apply lookup_snoc_Some in Hj as [[Hj1 Hj2]|[Hj1 Hj2]]; subst; try lia.
  - by eapply Hl.
  - apply Hk. by eapply list_elem_of_lookup_2.
Qed.

(** The pass over the first [k] stages has found exactly the stages
    reachable from [S] among them, in registration order after [S]. *)
Lemma scan_invariant S k :
  (k ≤ length reg)%nat →
  (∀ T, T ∈ foldl (join reg) [S] (seq 0 k)
        ↔ reaches reg S T ∧ (T = S ∨ (T < k)%nat)) ∧
  ascending (foldl (join reg) [S] (seq 0 k)) ∧
  head (foldl (join reg) [S] (seq 0 k)) = Some S.
Proof.
  induction k as [|k IH]; intros Hk.
  - simpl. split; [|split; [|done]].
    + intros T. rewrite list_elem_of_singleton. split.
      * intros ->. split; [constructor|by left].
      * intros [_ [->|?]]; [done|lia].
    + intros i j x y Hi Hj Hij.
      apply list_lookup_singleton_Some in Hi as [-> _].
      apply list_lookup_singleton_Some in Hj as [-> _]. lia.
  - destruct IH as (Hmem & Hasc & Hhead); [lia|].
    rewrite seq_S, foldl_snoc. simpl.
    set (acc := foldl (join reg) [S] (seq 0 k)) in *.
    destruct (lookup_lt_is_Some_2 reg k ltac:(lia)) as [d Hd].
    unfold join. rewrite Hd.
    destruct (decide ((k ∉ acc) ∧ Exists (λ U, U ∈ acc) (upstream d)))
      as [[Hfresh Hex]|Hno].
    + apply Exists_exists in Hex as (U & HU & HUacc).
      assert (Hreach : reaches reg S k).
      { apply Hmem in HUacc as [HSU _]. by eapply reaches_down. }
      assert (HSk : (S < k)%nat).
      { pose proof (reaches_le S k Hreach).
        assert (k ≠ S); [|lia]. intros ->. apply Hfresh, Hmem.
        split; [constructor|by left]. }
      split; [|split].
      * intros T. rewrite elem_of_app, list_elem_of_singleton, Hmem. split.
        -- intros [[HT [->|HTk]]| ->].
           ++ split; [done|by left].
           ++ split; [done|right; lia].
           ++ split; [done|right; lia].
        -- intros [HT [->|HTk]].
           ++ left. split; [done|by left].
           ++ destruct (decide (T = k)) as [->|]; [by right|].
              left. split; [done|right; lia].
      * apply ascending_snoc; [done|].
        intros x Hx. apply Hmem in Hx as [_ [->|?]]; lia.
      * destruct acc; [done|]. done.
    + split; [|split; [done|done]].
      intros T. rewrite Hmem. split.
      * intros [HT [->|HTk]]; (split; [done|]); [by left|right; lia].
      * intros [HT [->|HTk]]; [split; [done|by left]|].
        split; [done|].
        destruct (decide (T = S)) as [->|HTS]; [by left|]. right.
        destruct (decide (T = k)) as [->|]; [|lia]. exfalso.
        destruct (reaches_inv S k HT HTS) as (T0 & d0 & HT0 & Hd0 & HT0up).
        assert (d0 = d) as -> by congruence.
        pose proof (upstream_earlier k d T0 Hd HT0up).
        apply Hno. split.
        -- intros Hin. apply Hmem in Hin as [_ [?|?]]; [done|lia].
        -- apply Exists_exists. exists T0. split; [done|].
           apply Hmem. split; [done|right; done].
Qed.

(** The stages deleted from are the stages reachable downstream. *)
Lemma elem_of_affected S T : T ∈ affected reg S ↔ reaches reg S T.
Proof.
  unfold affected.
  destruct (scan_invariant S (length reg)) as (Hmem & _); [done|].
  rewrite Hmem. split; [by intros [? _]|].
  intros HT. split; [done|]. destruct (reaches_registered S T HT); auto.
Qed.

Lemma affected_ascending S : ascending (affected reg S).
Proof. by destruct (scan_invariant S (length reg)) as (_ & ? & _). Qed.

Lemma affected_head S : head (affected reg S) = Some S.
Proof. by destruct (scan_invariant S (length reg)) as (_ & _ & ?). Qed.

End Registry.

Section Deletion.
Variable reg : list stage.
Hypothesis Hreg : well_registered reg.

Lemma restricts_to_refl k : restricts_to k k.
Proof. by intros a v Ha. Qed.

Lemma restricts_to_trans a b c :
  restricts_to a b → restricts_to b c → restricts_to a c.
Proof. intros Hab Hbc k v Hk. apply Hab. by apply Hbc. Qed.

(** A key [r] that carries the attributes of [K] restricts to [K] as soon
    as a key restricting to [r] does. *)
Lemma restricts_to_down (t r K : row) :
  restricts_to t r → restricts_to t K → dom K ⊆ dom r → restricts_to r K.
Proof.
  intros Htr HtK Hdom a v Ha.
  assert (Har : a ∈ dom r) by (apply Hdom, elem_of_dom; eauto).
  apply elem_of_dom in Har as [w Hw].
  rewrite Hw. f_equal. apply Htr in Hw. apply HtK in Ha. congruence.
Qed.

(** With no orphans, a row restricts to a row of every stage upstream of
    it, however far. *)
Lemma rows_restrict_upstream st S T t :
  no_orphans reg st → reaches reg S T → t ∈ rows st T →
  ∃ r, r ∈ rows st S ∧ restricts_to t r.
Proof.
  intros Hno HST. revert t.
  induction HST as [|T U d _ IH Hd HT]; intros t Ht.
  - exists t. split; [done|apply restricts_to_refl].
  - destruct (Hno U d T t Hd HT Ht) as (u & Hu & Htu).
    destruct (IH u Hu) as (r & Hr & Hur).
    exists r. split; [done|]. by eapply restricts_to_trans.
Qed.

Lemma filter_idemp {A} (P : A → Prop) `{∀ x, Decision (P x)} (l : list A) :
  filter P (filter P l) = filter P l.
Proof.
  induction l as [|x l IH]; [done|].
  rewrite filter_cons. destruct (decide (P x)) as [HP|HP]; [|done].
  rewrite filter_cons. destruct (decide (P x)); [|done]. by rewrite IH.
Qed.

(** The rows of a stage after the deletions of a list of stages. *)
Lemma rows_after S K deleted order : ∀ st U,
  rows (foldl (λ st T, delete_where (doomed_in S K deleted T) T st) st order) U
  = if decide (U ∈ order)
    then filter (λ r, ¬ doomed_in S K deleted U r) (rows st U)
    else rows st U.
Proof.
  induction order as [|T order IH]; intros st U; simpl.
  - destruct (decide (U ∈ [])) as [Hin|]; [by apply elem_of_nil in Hin|done].
  - rewrite IH. simpl.
    destruct (decide (U = T)) as [->|Hne].
    + destruct (decide (T ∈ order)), (decide (T ∈ T :: order)) as [|Hn];
        try done.
      * apply filter_idemp.
      * exfalso. apply Hn. by left.
      * exfalso. apply Hn. by left.
    + destruct (decide (U ∈ order)) as [Hin|Hnin],
               (decide (U ∈ T :: order)) as [Hin'|Hnin']; try done.
      * exfalso. apply Hnin'. by right.
      * exfalso. apply elem_of_cons in Hin' as [?|?]; done.
Qed.

(** The rows that stay in a stage downstream of [S], and in any other. *)
Lemma rows_cascade_delete_downstream S K st U :
  reaches reg S U →
  rows (cascade_delete reg S K st).1 U
  = filter (λ r, ¬ doomed_in S K
                     (filter (λ r, restricts_to r K) (rows st S)) U r)
           (rows st U).
Proof.
  intros HU. unfold cascade_delete. simpl. rewrite rows_after.
  destruct (decide (U ∈ reverse (affected reg S))) as [Hin|Hnin]; [done|].
  exfalso. apply Hnin. by rewrite elem_of_reverse, (elem_of_affected reg Hreg).
Qed.

Lemma rows_cascade_delete_elsewhere S K st U :
  ¬ reaches reg S U →
  rows (cascade_delete reg S K st).1 U = rows st U.
Proof.
  intros HU. unfold cascade_delete. simpl. rewrite rows_after.
  destruct (decide (U ∈ reverse (affected reg S))) as [Hin|Hnin]; [|done].
  exfalso. apply HU. by rewrite elem_of_reverse, (elem_of_affected reg Hreg) in Hin.
Qed.

(** Deletion only removes rows. *)
Lemma rows_cascade_delete_subset S K st U t :
  t ∈ rows (cascade_delete reg S K st).1 U → t ∈ rows st U.
Proof.
  unfold cascade_delete. simpl. rewrite rows_after.
  destruct (decide (U ∈ reverse (affected reg S))); [|done].
  rewrite list_elem_of_filter. by intros [_ ?].
Qed.

(** C3.  In a registry without cycles and a store without orphans,
    deleting the key [K] (on attributes of the stage's rows) from stage [S]
    deletes from exactly the stages reachable downstream of [S], from every
    stage before the stages it depends on and from [S] last; afterwards no
    stage reachable downstream of [S] holds a row whose key restricts to
    [K], and the store is again without orphans. *)
Theorem cascade_delete_descendants_first_and_complete S K st :
  no_orphans reg st →
  (∀ r, r ∈ rows st S → dom K ⊆ dom r) →
  (∀ T, T ∈ (cascade_delete reg S K st).2 ↔ reaches reg S T) ∧
  (∀ i j T U, (cascade_delete reg S K st).2 !! i = Some T →
              (cascade_delete reg S K st).2 !! j = Some U →
              reaches reg U T → T ≠ U → (i < j)%nat) ∧
  last (cascade_delete reg S K st).2 = Some S ∧
  (∀ T t, reaches reg S T → t ∈ rows (cascade_delete reg S K st).1 T →
          ¬ restricts_to t K) ∧
  no_orphans reg (cascade_delete reg S K st).1.
Proof.
  intros Hno HK. split; [|split; [|split; [|split]]].
  - intros T. unfold cascade_delete. simpl.
    by rewrite elem_of_reverse, (elem_of_affected reg Hreg).
  - unfold cascade_delete. simpl. intros i j T U Hi Hj HUT Hne.
    apply reverse_lookup_Some in Hi as [Hi Hilt].
    apply reverse_lookup_Some in Hj as [Hj Hjlt].
    pose proof (reaches_le reg Hreg U T HUT) as Hle.
    destruct (decide (i < j)%nat) as [|Hge]; [done|]. exfalso.
    destruct (decide (i = j)) as [->|Hij]; [congruence|].
    pose proof (affected_ascending reg Hreg S _ _ _ _ Hi Hj). lia.
  - unfold cascade_delete. simpl. rewrite last_reverse.
    apply (affected_head reg Hreg).
  - intros T t HT Ht HtK.
    rewrite (rows_cascade_delete_downstream S K st T HT) in Ht.
    apply list_elem_of_filter in Ht as [Hkeep Ht]. apply Hkeep.
    unfold doomed_in. destruct (decide (T = S)) as [->|HTS]; [done|].
    destruct (rows_restrict_upstream st S T t Hno HT Ht) as (r & Hr & Htr).
    apply Exists_exists. exists r. split; [|done].
    apply list_elem_of_filter. split; [|done].
    eapply restricts_to_down; eauto.
  - intros T d U t Hd HU Ht.
    pose proof (upstream_earlier reg Hreg T d U Hd HU) as HUT.
    pose proof (rows_cascade_delete_subset S K st T t Ht) as Ht0.
    destruct (Hno T d U t Hd HU Ht0) as (u & Hu & Htu).
    exists u. split; [|done].
    unfold cascade_delete in *. simpl in *. rewrite rows_after in *.
    destruct (decide (U ∈ reverse (affected reg S))) as [HUin|]; [|done].
    apply list_elem_of_filter. split; [|done]. intros Hdoomed.
    assert (HSU : reaches reg S U).
    { by rewrite elem_of_reverse, (elem_of_affected reg Hreg) in HUin. }
    assert (HST : reaches reg S T) by (by eapply reaches_down).
    pose proof (reaches_le reg Hreg S U HSU) as HSUle.
    destruct (decide (T ∈ reverse (affected reg S))) as [HTin|HTnin].
    2:{ apply HTnin. by rewrite elem_of_reverse, (elem_of_affected reg Hreg). }
    apply list_elem_of_filter in Ht as [Hkeep _]. apply Hkeep.
    unfold doomed_in in *.
    destruct (decide (T = S)) as [->|_]; [lia|].
    apply Exists_exists.
    destruct (decide (U = S)) as [->|_].
    + exists u. split; [|done]. apply list_elem_of_filter. by split.
    + apply Exists_exists in Hdoomed as (r & Hr & Hur).
      exists r. split; [done|]. by eapply restricts_to_trans.
Qed.

End Deletion.

Import CascadeDemo.

Lemma abc_no_orphans : no_orphans abc abc_store.
Proof.
  intros T d U t Hd HU Ht.
  destruct T as [|[|[|T]]]; simpl in Hd; try discriminate;
    injection Hd as <-; simpl in HU.
  - by apply elem_of_nil in HU.
  - apply list_elem_of_singleton in HU as ->. exists (scan 1). split; [by left|].
    simpl in Ht. apply elem_of_cons in Ht as [->|Ht];
      [|apply list_elem_of_singleton in Ht as ->]; by_evaluation.
  - apply list_elem_of_singleton in HU as ->. exists (scan_slice 1 1).
    split; [by left|].
    simpl in Ht. apply list_elem_of_singleton in Ht as ->. by_evaluation.
Qed.

(** Scenario 5 of the design document: after deleting scan 1 from A, the
    stages were deleted from in the order C, B, A, and only scan 2 is left. *)
Lemma abc_delete_scan_1 :
  (cascade_delete abc 0 (scan 1) abc_store).2 = [2; 1; 0]%nat ∧
  rows (cascade_delete abc 0 (scan 1) abc_store).1 0 = [scan 2] ∧
  rows (cascade_delete abc 0 (scan 1) abc_store).1 1 = [] ∧
  rows (cascade_delete abc 0 (scan 1) abc_store).1 2 = [].
Proof. repeat split; by_evaluation. Qed.

Lemma cascade_delete_descendants_first_and_complete_witness :
  (∀ T, T ∈ (cascade_delete abc 0 (scan 1) abc_store).2 ↔ reaches abc 0 T) ∧
  (∀ i j T U, (cascade_delete abc 0 (scan 1) abc_store).2 !! i = Some T →
              (cascade_delete abc 0 (scan 1) abc_store).2 !! j = Some U →
              reaches abc U T → T ≠ U → (i < j)%nat) ∧
  last (cascade_delete abc 0 (scan 1) abc_store).2 = Some 0%nat ∧
  (∀ T t, reaches abc 0 T →
          t ∈ rows (cascade_delete abc 0 (scan 1) abc_store).1 T →
          ¬ restricts_to t (scan 1)) ∧
  no_orphans abc (cascade_delete abc 0 (scan 1) abc_store).1.
Proof.
  apply (cascade_delete_descendants_first_and_complete abc).
  - by_evaluation.
  - exact abc_no_orphans.
  - intros r Hr. simpl in Hr.
    apply elem_of_cons in Hr as [->|Hr];
      [|apply list_elem_of_singleton in Hr as ->]; by_evaluation.
Defined.

End CascadeFacts.

(** ** Reservation *)

Module ReservationFacts.
Import Reservation.

Section Workers.
Context {Job : Type} `{EqDecision Job}.
Variable retryable : Job → bool.

Implicit Types (s : world (Job := Job)) (j : Job) (w : nat).

Lemma commits_of_snoc j j' s r d :
  commits_of j {| reservations := r; commits := commits s ++ [j']; doing := d |}
  = (commits_of j s + if decide (j' = j) then 1 else 0)%nat.
Proof.
  unfold commits_of. simpl. rewrite filter_app, length_app. f_equal.
  rewrite filter_cons, filter_nil. by destruct (decide (j' = j)).
Qed.

Lemma initial_consistent : consistent (initial (Job := Job)).
Proof.
  intros j. unfold commits_of. simpl. repeat split; try done.
  - by intros w [?|?].
  - lia.
Qed.

(** A worker that computes a job has not committed it, nor has any other. *)
Lemma computing_not_committed s w j :
  consistent s → doing s w = Computing j → commits_of j s = 0%nat.
Proof.
  intros Hc Hw. destruct (Hc j) as (H1 & H2 & H3 & _).
  destruct (decide (commits_of j s = 0%nat)) as [|Hne]; [done|]. exfalso.
  assert (Hone : commits_of j s = 1%nat) by lia.
  destruct (H3 Hone) as (w' & [Hdone|[Hres Hw']]).
  - rewrite (H1 w) in Hdone; [discriminate|by left].
  - rewrite (H1 w) in Hres; [|by left]. injection Hres as ->. congruence.
Qed.

Lemma committed_once s w j :
  consistent s → doing s w = Committed j → commits_of j s = 1%nat.
Proof.
  intros Hc Hw. destruct (Hc j) as (_ & H2 & _ & H4).
  destruct (decide (commits_of j s = 0%nat)) as [Hz|]; [|lia].
  destruct (H4 Hz w) as [_ Hn]. done.
Qed.

(** Nobody is busy with a job that can be reserved. *)
Lemma available_free s j w :
  consistent s → available retryable s j = true →
  doing s w ≠ Computing j ∧ doing s w ≠ Committed j ∧ commits_of j s = 0%nat.
Proof.
  intros Hc Hav. destruct (Hc j) as (H1 & H2 & H3 & _).
  unfold available in Hav.
  assert (Hfree : ∀ w', ¬ (doing s w' = Computing j ∨ doing s w' = Committed j)).
  { intros w' Hw'. apply H1 in Hw'. rewrite Hw' in Hav. done. }
  split; [|split].
  - intros ?. apply (Hfree w). by left.
  - intros ?. apply (Hfree w). by right.
  - destruct (decide (commits_of j s = 0%nat)) as [|Hne]; [done|]. exfalso.
    assert (Hone : commits_of j s = 1%nat) by lia.
    destruct (H3 Hone) as (w' & [Hdone|[Hres Hw']]).
    + rewrite Hdone in Hav. done.
    + rewrite Hres in Hav. done.
Qed.

Lemma step_consistent a s : consistent s → consistent (step retryable a s).
Proof.
  intros Hc. destruct a as [w j|w|w|w detail]; simpl.
  - (* try_reserve *)
    destruct (doing s w) eqn:Hw; [|done..].
    unfold try_reserve. destruct (available retryable s j) eqn:Hav; [|done].
    simpl. intros j'. destruct (Hc j') as (H1 & H2 & H3 & H4).
    unfold commits_of in *. simpl. unfold set_record, set_doing.
    destruct (decide (j' = j)) as [->|Hne].
    + pose proof (λ w', available_free s j w' Hc Hav) as Hfree.
      unfold commits_of in Hfree.
      repeat split.
      * intros w'. destruct (decide (w' = w)) as [->|]; [done|].
        intros [?|?]; by destruct (Hfree w') as (? & ? & _).
      * done.
      * intros Hone. destruct (Hfree w) as (_ & _ & Hz). lia.
      * done.
      * destruct (decide (w0 = w)); [done|]. by destruct (Hfree w0) as (_ & ? & _).
    + repeat split; try done.
      * intros w'. destruct (decide (w' = w)) as [->|]; [|by apply H1].
        intros [[=]|[=]]. done.
      * intros Hone. destruct (H3 Hone) as (w' & [?|[? Hw']]);
          exists w'; [by left|right]. split; [done|].
        destruct (decide (w' = w)) as [->|]; [congruence|done].
      * by apply H4.
      * destruct (decide (w0 = w)); [done|]. by apply H4.
  - (* commit *)
    destruct (doing s w) as [|j|j] eqn:Hw; [done| |done].
    pose proof (computing_not_committed s w j Hc Hw) as Hz.
    intros j'. destruct (Hc j') as (H1 & H2 & H3 & H4).
    rewrite !commits_of_snoc. simpl. unfold set_doing.
    destruct (decide (j = j')) as [<-|Hne].
    + repeat split.
      * intros w'. destruct (decide (w' = w)) as [->|]; [|by apply H1].
        intros _. apply H1. by left.
      * lia.
      * intros _. exists w. right. split; [apply H1; by left|].
        by destruct (decide (w = w)).
      * lia.
      * lia.
    + rewrite !Nat.add_0_r. repeat split; try done.
      * intros w'. destruct (decide (w' = w)) as [->|]; [|by apply H1].
        intros [[=]|[=]]. done.
      * intros Hone. destruct (H3 Hone) as (w' & [?|[? Hw']]);
          exists w'; [by left|right]. split; [done|].
        destruct (decide (w' = w)) as [->|]; [congruence|done].
      * by apply H4.
      * destruct (decide (w0 = w)); [congruence|]. by apply H4.
  - (* mark_done *)
    destruct (doing s w) as [|j|j] eqn:Hw; [done|done|].
    pose proof (committed_once s w j Hc Hw) as Hone.
    intros j'. destruct (Hc j') as (H1 & H2 & H3 & H4).
    unfold commits_of in *. simpl. unfold set_record, set_doing.
    destruct (decide (j' = j)) as [->|Hne].
    + repeat split; try done.
      * intros w'. destruct (decide (w' = w)) as [->|Hw']; [by intros [?|?]|].
        intros Hbusy. apply H1 in Hbusy.
        rewrite (H1 w) in Hbusy; [|by right]. by injection Hbusy as ->.
      * intros _. exists w. by left.
      * lia.
      * lia.
    + repeat split; try done.
      * intros w'. destruct (decide (w' = w)) as [->|]; [by intros [?|?]|].
        by apply H1.
      * intros Hone'. destruct (H3 Hone') as (w' & [?|[? Hw']]);
          exists w'; [by left|right]. split; [done|].
        destruct (decide (w' = w)) as [->|]; [congruence|done].
      * by apply H4.
      * destruct (decide (w0 = w)); [done|]. by apply H4.
  - (* mark_error *)
    destruct (doing s w) as [|j|j] eqn:Hw; [done| |done].
    pose proof (computing_not_committed s w j Hc Hw) as Hz.
    intros j'. destruct (Hc j') as (H1 & H2 & H3 & H4).
    unfold commits_of in *. simpl. unfold set_record, set_doing.
    destruct (decide (j' = j)) as [->|Hne].
    + repeat split; try done.
      * intros w'. destruct (decide (w' = w)) as [->|Hw']; [by intros [?|?]|].
        intros Hbusy. apply H1 in Hbusy.
        rewrite (H1 w) in Hbusy; [|by left]. by injection Hbusy as ->.
      * lia.
      * destruct (decide (w0 = w)); [done|]. by apply H4.
    + repeat split; try done.
      * intros w'. destruct (decide (w' = w)) as [->|]; [by intros [?|?]|].
        by apply H1.
      * intros Hone'. destruct (H3 Hone') as (w' & [?|[? Hw']]);
          exists w'; [by left|right]. split; [done|].
        destruct (decide (w' = w)) as [->|]; [congruence|done].
      * by apply H4.
      * destruct (decide (w0 = w)); [done|]. by apply H4.
Qed.

Lemma run_schedule_consistent schedule : ∀ s,
  consistent s → consistent (run_schedule retryable schedule s).
Proof.
  induction schedule as [|a schedule IH]; intros s Hc; [done|].
  simpl. apply IH. by apply step_consistent.
Qed.

(** A job that cannot be reserved stays as it is, whoever tries. *)
Lemma reserved_conflict s w j :
  available retryable s j = false →
  try_reserve retryable w j s = (false, s) ∧
  step retryable (TryReserve w j) s = s.
Proof.
  intros Hav. unfold step, try_reserve. rewrite Hav. split; [done|].
  by destruct (doing s w).
Qed.

(** C1.  However the steps of however many workers are interleaved, every
    job is committed at most once; and of two workers that try to reserve
    the same job, free until then, one after the other, the first succeeds
    and the second meets a conflict and leaves the shared state exactly as
    it was. *)
Theorem at_most_one_commit schedule j :
  (commits_of j (run_schedule retryable schedule initial) = 0%nat ∨
   commits_of j (run_schedule retryable schedule initial) = 1%nat) ∧
  (∀ s w1 w2,
     w1 ≠ w2 → doing s w1 = Idle → doing s w2 = Idle →
     available retryable s j = true →
     (try_reserve retryable w1 j s).1 = true ∧
     try_reserve retryable w2 j (step retryable (TryReserve w1 j) s)
     = (false, step retryable (TryReserve w1 j) s) ∧
     step retryable (TryReserve w2 j) (step retryable (TryReserve w1 j) s)
     = step retryable (TryReserve w1 j) s).
Proof.
  split.
  - destruct (run_schedule_consistent schedule initial initial_consistent j)
      as (_ & Hle & _). lia.
  - intros s w1 w2 Hne Hw1 Hw2 Hav.
    assert (Hs1 : step retryable (TryReserve w1 j) s
                  = (try_reserve retryable w1 j s).2).
    { simpl. by rewrite Hw1. }
    assert (Hfirst : try_reserve retryable w1 j s
                     = (true, (try_reserve retryable w1 j s).2)).
    { unfold try_reserve. by rewrite Hav. }
    split; [by rewrite Hfirst|]. rewrite Hs1.
    apply reserved_conflict.
    unfold try_reserve. rewrite Hav. simpl.
    unfold available, set_record. simpl. by destruct (decide (j = j)).
Qed.

End Workers.

Import ReservationDemo.

Lemma at_most_one_commit_witness :
  (commits_of scan_1_of_B (run_schedule never race initial) = 0%nat ∨
   commits_of scan_1_of_B (run_schedule never race initial) = 1%nat) ∧
  (try_reserve never 1 scan_1_of_B initial).1 = true ∧
  try_reserve never 2 scan_1_of_B
    (step never (TryReserve 1 scan_1_of_B) initial)
  = (false, step never (TryReserve 1 scan_1_of_B) initial).
Proof.
  destruct (at_most_one_commit never race scan_1_of_B) as [Hcount Hrace].
  split; [exact Hcount|].
  destruct (Hrace initial 1%nat 2%nat) as (H1 & H2 & _); try done.
Defined.

(** In the race the key is committed exactly once, by worker 1. *)
Lemma race_commits_once :
  commits (run_schedule never race initial) = [scan_1_of_B].
Proof. reflexivity. Qed.


End ReservationFacts.
